(** * OpenMM: CUDA nonbonded utilities and the AMOEBA angle-force reference

    A shallow embedding of

    - [platforms/cuda/src/CudaNonbondedUtilities.h]: the class
      [CudaNonbondedUtilities] with its inline accessors, and the nested
      class [CudaNonbondedUtilities::ParameterInfo];
    - [plugins/amoeba/platforms/reference/tests/TestReferenceAmoebaAngleForce.cpp]:
      [crossProductVector3], [getPrefactorsGivenAngleCosine],
      [computeAmoebaAngleForce] and [computeAmoebaAngleForces].

    The header only declares [addInteraction], [requestExclusions],
    [prepareInteractions], [computeInteractions], [updateNeighborListSize]
    and [findExclusionIndex]; their bodies live in a translation unit that
    is not part of the sources.  Those operations are modelled from the
    design document, and every such definition says so in its comment. *)

From Stdlib Require Import ZArith QArith Qround Qabs Qminmax Lqa.
From Stdlib Require Import Reals Lra Lia Floats.
From Stdlib Require Import String Ascii DecimalString DecimalPos DecimalZ List.
From stdpp Require Import base list gmap.

(** ** C++ [int] *)

(** A C++ [int] is a 32-bit two's complement integer.  It is modelled as a
    [Z]; arithmetic on it wraps around. *)
Module Int.

Definition min_int : Z := - 2 ^ 31.
Definition max_int : Z := 2 ^ 31 - 1.

Definition in_range (z : Z) : Prop := (min_int <= z <= max_int)%Z.

Definition wrap (z : Z) : Z := ((z + 2 ^ 31) mod 2 ^ 32 - 2 ^ 31)%Z.

Definition mul (a b : Z) : Z := wrap (a * b).

(** [operator<<(std::ostream&, int)]: the decimal digits, with a leading
    minus sign for a negative number. *)
Definition to_string (z : Z) : string := NilEmpty.string_of_int (Z.to_int z).

End Int.

(** ** References *)

(** A C++ reference [A&] into an object of type [S]: what reading through
    it yields, and what assigning through it does to the object. *)
Record Ref (S A : Type) : Type := MkRef {
  deref : S -> A;
  assign : A -> S -> S
}.
Arguments MkRef {S A} _ _.
Arguments deref {S A} _ _.
Arguments assign {S A} _ _ _.

(** ** [CudaNonbondedUtilities::ParameterInfo] *)

Section ParameterInfoClass.

(** [CUdeviceptr] is declared by the CUDA driver API headers. *)
Context {CUdeviceptr : Type}.

Record ParameterInfo : Type := MkParameterInfo {
  name : string;
  componentType : string;
  type : string;
  size : Z;
  numComponents : Z;
  memory : CUdeviceptr
}.

(** The constructor [ParameterInfo(name, componentType, numComponents, size,
    memory)]. *)
Definition newParameterInfo (name componentType : string)
    (numComponents size : Z) (memory : CUdeviceptr) : ParameterInfo :=
  {| name := name;
     componentType := componentType;
     type := if (numComponents =? 1)%Z then componentType
             else String.append componentType (Int.to_string numComponents);
     size := size;
     numComponents := numComponents;
     memory := memory |}.

Definition getName (p : ParameterInfo) : string := name p.
Definition getComponentType (p : ParameterInfo) : string := componentType p.
Definition getType (p : ParameterInfo) : string := type p.
Definition getNumComponents (p : ParameterInfo) : Z := numComponents p.
Definition getSize (p : ParameterInfo) : Z := size p.

(** [CUdeviceptr& getMemory()]. *)
Definition getMemory : Ref ParameterInfo CUdeviceptr :=
  MkRef memory
        (fun m p => {| name := name p; componentType := componentType p;
                       type := type p; size := size p;
                       numComponents := numComponents p; memory := m |}).

End ParameterInfoClass.

Arguments ParameterInfo : clear implicits.

(** ** C++ [double] *)

(** The arithmetic the sources perform on [double]s.  The code is embedded
    once, over this interface, and read over IEEE 754 binary64 (what the
    compiled code executes) or in exact arithmetic (the rational or the
    real numbers). *)
Class Scalar (D : Type) : Type := MkScalar {
  dadd : D -> D -> D;
  dsub : D -> D -> D;
  dmul : D -> D -> D;
  ddiv : D -> D -> D;
  dneg : D -> D;
  dlt : D -> D -> bool;
  dle : D -> D -> bool;
  deq : D -> D -> bool;
  (** an integer-valued literal such as [2.0] or [-1.0] *)
  dint : Z -> D
}.

(** What the AMOEBA reference code needs besides: [sqrt] and [acos] of
    the C library, and three decimal literals. *)
Class Double (D : Type) : Type := MkDouble {
  Double_Scalar :: Scalar D;
  dsqrt : D -> D;
  dacos : D -> D;
  (** the literal [1.0e-06] *)
  d1em6 : D;
  (** the macro [RADIAN], 57.29577951308 *)
  dRADIAN : D;
  (** the macro [PI_M], 3.141592653589 *)
  dPI_M : D
}.

Definition dge {D} `{Scalar D} (a b : D) : bool := dle b a.
Definition dne {D} `{Scalar D} (a b : D) : bool := negb (deq a b).

Declare Scope double_scope.
Delimit Scope double_scope with dbl.
Infix "+" := dadd : double_scope.
Infix "-" := dsub : double_scope.
Infix "*" := dmul : double_scope.
Infix "/" := ddiv : double_scope.
Notation "- x" := (dneg x) : double_scope.
Infix "<?" := dlt : double_scope.
Infix "<=?" := dle : double_scope.
Infix ">=?" := dge (at level 70) : double_scope.
Infix "!=?" := dne (at level 70) : double_scope.

Definition Rltb (a b : R) : bool := if Rlt_dec a b then true else false.
Definition Rleb (a b : R) : bool := if Rle_dec a b then true else false.
Definition Reqb (a b : R) : bool := if Req_dec_T a b then true else false.

(** Exact arithmetic: the real numbers. *)
#[export] Instance Scalar_R : Scalar R := {|
  dadd := Rplus; dsub := Rminus; dmul := Rmult; ddiv := Rdiv; dneg := Ropp;
  dlt := Rltb; dle := Rleb; deq := Reqb;
  dint := IZR
|}.

#[export] Instance Double_R : Double R := {|
  dsqrt := R_sqrt.sqrt; dacos := Ratan.acos;
  d1em6 := (1 / 1000000)%R;
  dRADIAN := (5729577951308 / 100000000000)%R;
  dPI_M := (3141592653589 / 1000000000000)%R
|}.

(** Exact arithmetic: the rational numbers. *)
Definition Qltb (a b : Q) : bool := negb (Qle_bool b a).

#[export] Instance Scalar_Q : Scalar Q := {|
  dadd := Qplus; dsub := Qminus; dmul := Qmult; ddiv := Qdiv; dneg := Qopp;
  dlt := Qltb; dle := Qle_bool; deq := Qeq_bool;
  dint := inject_Z
|}.

Definition float_of_Z (z : Z) : float :=
  match z with
  | Z0 => PrimFloat.zero
  | Zpos _ => PrimFloat.of_uint63 (Uint63.of_Z z)
  | Zneg _ => PrimFloat.opp (PrimFloat.of_uint63 (Uint63.of_Z (- z)))
  end.

(** IEEE 754 binary64. *)
#[export] Instance Scalar_float : Scalar float := {|
  dadd := PrimFloat.add; dsub := PrimFloat.sub; dmul := PrimFloat.mul;
  ddiv := PrimFloat.div; dneg := PrimFloat.opp;
  dlt := PrimFloat.ltb; dle := PrimFloat.leb; deq := PrimFloat.eqb;
  dint := float_of_Z
|}.

(** [acos] comes from the C library and is a parameter; the three decimal
    literals are the binary64 values nearest to them. *)
Definition Double_float (acos : float -> float) : Double float := {|
  dsqrt := PrimFloat.sqrt; dacos := acos;
  d1em6 := 0x1.0c6f7a0b5ed8dp-20%float;
  dRADIAN := 0x1.ca5dc1a63c0b1p+5%float;
  dPI_M := 0x1.921fb5444261ep+1%float
|}.

(** ** The AMOEBA angle force reference computation *)

Module Amoeba.
Section Reference.

Context {D : Type} `{Double D}.
Local Open Scope double_scope.

(** A [double[3]], and OpenMM's [Vec3], indexed by 0, 1, 2. *)
Record Vec3 : Type := MkVec3 { c0 : D; c1 : D; c2 : D }.

(** [AmoebaAngleForce], as far as the test reads it: the per-angle
    parameters behind [getAngleParameters] and the four global
    coefficients. *)
Record AngleParameters : Type := MkAngleParameters {
  particle1 : nat;
  particle2 : nat;
  particle3 : nat;
  idealAngle : D;
  quadraticK : D
}.

Record AmoebaAngleForce : Type := MkAmoebaAngleForce {
  angles : list AngleParameters;
  getAmoebaGlobalAngleCubic : D;
  getAmoebaGlobalAngleQuartic : D;
  getAmoebaGlobalAnglePentic : D;
  getAmoebaGlobalAngleSextic : D
}.

Definition getAngleParameters (f : AmoebaAngleForce) (bondIndex : nat)
  : option AngleParameters := angles f !! bondIndex.

Definition getNumAngles (f : AmoebaAngleForce) : nat := length (angles f).

Definition crossProductVector3 (vectorX vectorY : Vec3) : Vec3 :=
  {| c0 := c1 vectorX * c2 vectorY - c2 vectorX * c1 vectorY;
     c1 := c2 vectorX * c0 vectorY - c0 vectorX * c2 vectorY;
     c2 := c0 vectorX * c1 vectorY - c1 vectorX * c0 vectorY |}.

(** Returns the pair [( *dEdR, *energyTerm )]. *)
Definition getPrefactorsGivenAngleCosine
    (cosine idealAngle quadraticK cubicK quarticK penticK sexticK : D)
  : D * D :=
  let angle :=
    if cosine >=? dint 1 then dint 0
    else if cosine <=? dint (-1) then dRADIAN * dPI_M
    else dRADIAN * dacos cosine in
  let deltaIdeal := angle - idealAngle in
  let deltaIdeal2 := deltaIdeal * deltaIdeal in
  let deltaIdeal3 := deltaIdeal * deltaIdeal2 in
  let deltaIdeal4 := deltaIdeal2 * deltaIdeal2 in
  let dEdR := dint 2 + dint 3 * cubicK * deltaIdeal
              + dint 4 * quarticK * deltaIdeal2
              + dint 5 * penticK * deltaIdeal3
              + dint 6 * sexticK * deltaIdeal4 in
  let dEdR := dEdR * (dRADIAN * quadraticK * deltaIdeal) in
  let energyTerm := dint 1 + cubicK * deltaIdeal
                    + quarticK * deltaIdeal2
                    + penticK * deltaIdeal3
                    + sexticK * deltaIdeal4 in
  let energyTerm := energyTerm * (quadraticK * deltaIdeal2) in
  (dEdR, energyTerm).

(** The local variables of [computeAmoebaAngleForce] at the point where it
    starts to update [forces]; [deltaR0], [deltaR1] are the rows of
    [deltaR], and [deltaCrossP0..2] the rows of [deltaCrossP]. *)
Record AngleLocals : Type := MkAngleLocals {
  deltaR0 : Vec3;
  deltaR1 : Vec3;
  r2_0 : D;
  r2_1 : D;
  pVector : Vec3;
  rp : D;
  dot : D;
  cosine : D;
  dEdR : D;
  energyTerm : D;
  termA : D;
  termC : D;
  deltaCrossP0 : Vec3;
  deltaCrossP1 : Vec3;
  deltaCrossP2 : Vec3
}.

Definition vsub (a b : Vec3) : Vec3 :=
  {| c0 := c0 a - c0 b; c1 := c1 a - c1 b; c2 := c2 a - c2 b |}.

Definition vadd (a b : Vec3) : Vec3 :=
  {| c0 := c0 a + c0 b; c1 := c1 a + c1 b; c2 := c2 a + c2 b |}.

Definition vscale (v : Vec3) (k : D) : Vec3 :=
  {| c0 := c0 v * k; c1 := c1 v * k; c2 := c2 v * k |}.

(** The body of [computeAmoebaAngleForce] from the first loop to the
    last assignment to [deltaCrossP], for the three positions
    [positions[particle1]], [positions[particle2]], [positions[particle3]]. *)
Definition angleLocals (pos1 pos2 pos3 : Vec3)
    (idealAngle quadraticK cubicK quarticK penticK sexticK : D) : AngleLocals :=
  let deltaR0 := vsub pos1 pos2 in
  let deltaR1 := vsub pos3 pos2 in
  let r2_0 := dint 0 + c0 deltaR0 * c0 deltaR0 + c1 deltaR0 * c1 deltaR0
              + c2 deltaR0 * c2 deltaR0 in
  let r2_1 := dint 0 + c0 deltaR1 * c0 deltaR1 + c1 deltaR1 * c1 deltaR1
              + c2 deltaR1 * c2 deltaR1 in
  let pVector := crossProductVector3 deltaR0 deltaR1 in
  let rp := dsqrt (c0 pVector * c0 pVector + c1 pVector * c1 pVector
                   + c2 pVector * c2 pVector) in
  let rp := if rp <? d1em6 then d1em6 else rp in
  let dot := c0 deltaR0 * c0 deltaR1 + c1 deltaR0 * c1 deltaR1
             + c2 deltaR0 * c2 deltaR1 in
  let cosine := dot / dsqrt (r2_0 * r2_1) in
  let '(dEdR, energyTerm) :=
    getPrefactorsGivenAngleCosine cosine idealAngle quadraticK cubicK
                                  quarticK penticK sexticK in
  let termA := (- dEdR) / (r2_0 * rp) in
  let termC := dEdR / (r2_1 * rp) in
  let deltaCrossP0 := vscale (crossProductVector3 deltaR0 pVector) termA in
  let deltaCrossP2 := vscale (crossProductVector3 deltaR1 pVector) termC in
  let deltaCrossP1 :=
    {| c0 := dint (-1) * (c0 deltaCrossP0 + c0 deltaCrossP2);
       c1 := dint (-1) * (c1 deltaCrossP0 + c1 deltaCrossP2);
       c2 := dint (-1) * (c2 deltaCrossP0 + c2 deltaCrossP2) |} in
  {| deltaR0 := deltaR0; deltaR1 := deltaR1; r2_0 := r2_0; r2_1 := r2_1;
     pVector := pVector; rp := rp; dot := dot; cosine := cosine;
     dEdR := dEdR; energyTerm := energyTerm; termA := termA; termC := termC;
     deltaCrossP0 := deltaCrossP0; deltaCrossP1 := deltaCrossP1;
     deltaCrossP2 := deltaCrossP2 |}.

(** [forces[i] += v], componentwise. *)
Definition addForce (forces : list Vec3) (i : nat) (v : Vec3) : list Vec3 :=
  match forces !! i with
  | Some f => <[i := vadd f v]> forces
  | None => forces
  end.

Definition vzero : Vec3 := {| c0 := dint 0; c1 := dint 0; c2 := dint 0 |}.

(** The sum of all the entries of a force array. *)
Definition totalForce (forces : list Vec3) : Vec3 := foldr vadd vzero forces.

(** [computeAmoebaAngleForce(bondIndex, positions, AmoebaAngleForce, forces,
    energy, log)]: the updated [forces] and [*energy].  [log] is only read
    under [AMOEBA_DEBUG].  An index outside [positions] or [forces], or a
    [bondIndex] the force does not have, is outside what the C++ defines:
    the result is [None]. *)
Definition computeAmoebaAngleForce (bondIndex : nat) (positions : list Vec3)
    (force : AmoebaAngleForce) (forces : list Vec3) (energy : D)
  : option (list Vec3 * D) :=
  a ← getAngleParameters force bondIndex;
  pos1 ← positions !! particle1 a;
  pos2 ← positions !! particle2 a;
  pos3 ← positions !! particle3 a;
  if decide (particle1 a < length forces /\ particle2 a < length forces
             /\ particle3 a < length forces)%nat
  then
    let l := angleLocals pos1 pos2 pos3 (idealAngle a) (quadraticK a)
               (getAmoebaGlobalAngleCubic force)
               (getAmoebaGlobalAngleQuartic force)
               (getAmoebaGlobalAnglePentic force)
               (getAmoebaGlobalAngleSextic force) in
    let forces := addForce forces (particle1 a) (deltaCrossP0 l) in
    let forces := addForce forces (particle2 a) (deltaCrossP1 l) in
    let forces := addForce forces (particle3 a) (deltaCrossP2 l) in
    Some (forces, energy + energyTerm l)
  else None.

(** [computeAmoebaAngleForces], after the positions have been read from
    the context: forces zeroed, energy zeroed, one call per angle. *)
Fixpoint computeAngles (n : nat) (bondIndex : nat) (positions : list Vec3)
    (force : AmoebaAngleForce) (forces : list Vec3) (energy : D)
  : option (list Vec3 * D) :=
  match n with
  | O => Some (forces, energy)
  | S n =>
      '(forces, energy) ← computeAmoebaAngleForce bondIndex positions force
                            forces energy;
      computeAngles n (S bondIndex) positions force forces energy
  end.

Definition computeAmoebaAngleForces (positions : list Vec3)
    (force : AmoebaAngleForce) : option (list Vec3 * D) :=
  computeAngles (getNumAngles force) 0 positions force
                (replicate (length positions) vzero) (dint 0).

End Reference.

Arguments Vec3 : clear implicits.
Arguments AngleParameters : clear implicits.
Arguments AmoebaAngleForce : clear implicits.
Arguments AngleLocals : clear implicits.

End Amoeba.

(** ** Notions used to state the properties of the reference computation *)

Section AngleGeometry.

Context {D : Type} `{Double D}.
Local Open Scope double_scope.

(** The scalar product of two vectors, in the form in which
    [computeAmoebaAngleForce] computes [dot]. *)
Definition vdot (u v : Amoeba.Vec3 D) : D :=
  Amoeba.c0 u * Amoeba.c0 v + Amoeba.c1 u * Amoeba.c1 v + Amoeba.c2 u * Amoeba.c2 v.

(** The moment [pos1 x F1 + pos2 x F2 + pos3 x F3] of three forces applied
    at three points. *)
Definition torque (pos1 pos2 pos3 F1 F2 F3 : Amoeba.Vec3 D) : Amoeba.Vec3 D :=
  Amoeba.vadd (Amoeba.vadd (Amoeba.crossProductVector3 pos1 F1)
                           (Amoeba.crossProductVector3 pos2 F2))
              (Amoeba.crossProductVector3 pos3 F3).

(** The three particles of an angle index into an array of [n] entries. *)
Definition angleInRange (n : nat) (a : Amoeba.AngleParameters D) : Prop :=
  (Amoeba.particle1 a < n /\ Amoeba.particle2 a < n /\ Amoeba.particle3 a < n)%nat.

#[global] Instance angleInRange_dec n a : Decision (angleInRange n a).
Proof. unfold angleInRange. apply _. Defined.

End AngleGeometry.

(** ** [CudaNonbondedUtilities] *)

(** A tile [(x, y)] of atom blocks. *)
Abbreviation Tile := (nat * nat)%type.

Section Engine.

Context {D : Type} `{Scalar D} {CUdeviceptr : Type}.
Local Open Scope double_scope.

(** A position, the [x], [y], [z] of a [float4]/[double4]. *)
Record Point : Type := MkPoint { px : D; py : D; pz : D }.


(** Modelled from the spec: [CudaContext] is declared in [CudaContext.h],
    which is not among the sources.  This is what the engine reads of it:
    the current particle positions, the periodic box and the block size
    ([CudaContext::TileSize], the width of a parallel unit). *)
Record CudaContext : Type := MkCudaContext {
  posq : list Point;
  periodicBoxSize : Point;
  TileSize : nat
}.

(** The data members of the class.  A [CudaArray*] is modelled by the
    content of the device array; the compiled kernels ([CUfunction]) and
    their argument lists are not data of the model. *)
Record CudaNonbondedUtilities : Type := MkCudaNonbondedUtilities {
  context : CudaContext;
  exclusions : list N;
  exclusionIndices : list nat;
  exclusionRowIndices : list nat;
  interactingTiles : list Tile;
  interactionFlags : list N;
  interactionCount : nat;
  blockCenter : list Point;
  blockBoundingBox : list Point;
  atomExclusions : list (list nat);
  parameters : list (ParameterInfo CUdeviceptr);
  arguments : list (ParameterInfo CUdeviceptr);
  kernelSource : string;
  cutoff : D;
  useCutoff : bool;
  usePeriodic : bool;
  anyExclusions : bool;
  startTileIndex : Z;
  numTiles : Z;
  maxTiles : Z;
  numForceThreadBlocks : Z;
  forceThreadBlockSize : Z;
  nonbondedForceGroup : Z;
  numAtoms : Z
}.

(** *** The inline member functions of the header *)

Definition getNumEnergyBuffers (this : CudaNonbondedUtilities) : Z :=
  Int.mul (numForceThreadBlocks this) (forceThreadBlockSize this).

Definition getUseCutoff (this : CudaNonbondedUtilities) : bool := useCutoff this.

Definition getUsePeriodic (this : CudaNonbondedUtilities) : bool := usePeriodic this.

Definition getNumForceThreadBlocks (this : CudaNonbondedUtilities) : Z :=
  numForceThreadBlocks this.

Definition getForceThreadBlockSize (this : CudaNonbondedUtilities) : Z :=
  forceThreadBlockSize this.

Definition getCutoffDistance (this : CudaNonbondedUtilities) : D := cutoff this.

Definition getHasInteractions (this : CudaNonbondedUtilities) : bool :=
  cutoff this !=? dint (-1).

Definition getForceGroup (this : CudaNonbondedUtilities) : Z :=
  nonbondedForceGroup this.

Definition getBlockCenters (this : CudaNonbondedUtilities) := blockCenter this.
Definition getBlockBoundingBoxes (this : CudaNonbondedUtilities) :=
  blockBoundingBox this.
Definition getInteractionCount (this : CudaNonbondedUtilities) :=
  interactionCount this.
Definition getInteractingTiles (this : CudaNonbondedUtilities) :=
  interactingTiles this.
Definition getInteractionFlags (this : CudaNonbondedUtilities) :=
  interactionFlags this.
Definition getExclusions (this : CudaNonbondedUtilities) := exclusions this.
Definition getExclusionIndices (this : CudaNonbondedUtilities) :=
  exclusionIndices this.
Definition getExclusionRowIndices (this : CudaNonbondedUtilities) :=
  exclusionRowIndices this.

Definition getStartTileIndex (this : CudaNonbondedUtilities) : Z :=
  startTileIndex this.

Definition getNumTiles (this : CudaNonbondedUtilities) : Z := numTiles this.

(** *** Construction and registration *)

(** Modelled from the spec: the constructor's body is not among the
    sources.  Nothing is registered yet and the cutoff distance is
    uninitialised, the state [getHasInteractions] tests for with
    [cutoff != -1.0].  The engine is responsible for the whole tile index
    space [[0, numBlocks*(numBlocks+1)/2)] of the context's particles
    until [setTileRange] assigns it a part of it. *)
Definition newCudaNonbondedUtilities (context : CudaContext)
  : CudaNonbondedUtilities :=
  let numBlocks :=
    ((length (posq context) + TileSize context - 1) / TileSize context)%nat in
  {| context := context;
     exclusions := []; exclusionIndices := []; exclusionRowIndices := [];
     interactingTiles := []; interactionFlags := []; interactionCount := 0;
     blockCenter := []; blockBoundingBox := [];
     atomExclusions := []; parameters := []; arguments := [];
     kernelSource := EmptyString;
     cutoff := dint (-1);
     useCutoff := false; usePeriodic := false; anyExclusions := false;
     startTileIndex := 0;
     numTiles := Z.of_nat (numBlocks * (numBlocks + 1) / 2);
     maxTiles := 0;
     numForceThreadBlocks := 0; forceThreadBlockSize := 0;
     nonbondedForceGroup := 0; numAtoms := 0 |}.

Definition set_exclusion_request (atomExclusions' : list (list nat))
    (this : CudaNonbondedUtilities) : CudaNonbondedUtilities :=
  {| context := context this;
     exclusions := exclusions this;
     exclusionIndices := exclusionIndices this;
     exclusionRowIndices := exclusionRowIndices this;
     interactingTiles := interactingTiles this;
     interactionFlags := interactionFlags this;
     interactionCount := interactionCount this;
     blockCenter := blockCenter this;
     blockBoundingBox := blockBoundingBox this;
     atomExclusions := atomExclusions';
     parameters := parameters this; arguments := arguments this;
     kernelSource := kernelSource this;
     cutoff := cutoff this;
     useCutoff := useCutoff this; usePeriodic := usePeriodic this;
     anyExclusions := true;
     startTileIndex := startTileIndex this; numTiles := numTiles this;
     maxTiles := maxTiles this;
     numForceThreadBlocks := numForceThreadBlocks this;
     forceThreadBlockSize := forceThreadBlockSize this;
     nonbondedForceGroup := nonbondedForceGroup this;
     numAtoms := numAtoms this |}.

(** Modelled from the spec: [requestExclusions(exclusionList)], declared
    only.  An engine has one exclusion set; a request that differs from
    the one already made is a contract violation and is rejected
    ([None]). *)
Definition requestExclusions (exclusionList : list (list nat))
    (this : CudaNonbondedUtilities) : option CudaNonbondedUtilities :=
  if anyExclusions this
  then if decide (atomExclusions this = exclusionList) then Some this else None
  else Some (set_exclusion_request exclusionList this).

(** What the member [cutoff] holds once a term that uses no cutoff has
    been registered.  The header documents [cutoffDistance] as ignored if
    [usesCutoff] is false, and neither it nor the design says which value
    the member then has: it is a parameter of the model. *)
Variable noCutoffDistance : D.

Definition set_interaction (usesCutoff usesPeriodic : bool)
    (cutoffDistance : D) (kernel : string) (forceGroup : Z)
    (this : CudaNonbondedUtilities) : CudaNonbondedUtilities :=
  {| context := context this;
     exclusions := exclusions this;
     exclusionIndices := exclusionIndices this;
     exclusionRowIndices := exclusionRowIndices this;
     interactingTiles := interactingTiles this;
     interactionFlags := interactionFlags this;
     interactionCount := interactionCount this;
     blockCenter := blockCenter this;
     blockBoundingBox := blockBoundingBox this;
     atomExclusions := atomExclusions this;
     parameters := parameters this; arguments := arguments this;
     kernelSource := String.append (kernelSource this) kernel;
     cutoff := if usesCutoff then cutoffDistance else noCutoffDistance;
     useCutoff := usesCutoff; usePeriodic := usesPeriodic;
     anyExclusions := anyExclusions this;
     startTileIndex := startTileIndex this; numTiles := numTiles this;
     maxTiles := maxTiles this;
     numForceThreadBlocks := numForceThreadBlocks this;
     forceThreadBlockSize := forceThreadBlockSize this;
     nonbondedForceGroup := forceGroup;
     numAtoms := numAtoms this |}.

(** Modelled from the spec: [addInteraction(usesCutoff, usesPeriodic,
    usesExclusions, cutoffDistance, exclusionList, kernel, forceGroup)],
    declared only.  It registers a term of the default kernel: the source
    fragment is appended to the kernel source, the term's cutoff, periodic
    and force-group settings become the engine's, its cutoff distance too
    when it uses one ([cutoffDistance] is ignored otherwise), and a term
    that uses exclusions requests its exclusion list. *)
Definition addInteraction (usesCutoff usesPeriodic usesExclusions : bool)
    (cutoffDistance : D) (exclusionList : list (list nat)) (kernel : string)
    (forceGroup : Z) (this : CudaNonbondedUtilities)
  : option CudaNonbondedUtilities :=
  this ← (if usesExclusions then requestExclusions exclusionList this
          else Some this);
  Some (set_interaction usesCutoff usesPeriodic cutoffDistance kernel
                        forceGroup this).

(** An InteractionTerm of the design: the arguments of one call of
    [addInteraction]. *)
Record InteractionTerm : Type := MkInteractionTerm {
  term_usesCutoff : bool;
  term_usesPeriodic : bool;
  term_usesExclusions : bool;
  term_cutoffDistance : D;
  term_exclusionList : list (list nat);
  term_kernel : string;
  term_forceGroup : Z
}.

(** The registrations of a set-up, made in order; [None] when one of them
    is rejected. *)
Definition registerAll (terms : list InteractionTerm)
    (this : CudaNonbondedUtilities) : option CudaNonbondedUtilities :=
  foldl (fun acc t =>
           this ← acc;
           addInteraction (term_usesCutoff t) (term_usesPeriodic t)
                          (term_usesExclusions t) (term_cutoffDistance t)
                          (term_exclusionList t) (term_kernel t)
                          (term_forceGroup t) this)
        (Some this) terms.

End Engine.

Arguments Point : clear implicits.
Arguments CudaContext : clear implicits.
Arguments CudaNonbondedUtilities : clear implicits.
Arguments InteractionTerm : clear implicits.

(** ** The exclusion encoding *)

(** Modelled from the spec: the encoder that fills [exclusions],
    [exclusionIndices] and [exclusionRowIndices] is part of [initialize],
    which the header only declares.  This is the ExclusionEncoder of the
    design.  Atoms are grouped in blocks of [blockSize]; the pair [{i, j}]
    belongs to the tile [(block (max i j), block (min i j))] and owns one
    bit of that tile's mask, at [(localRow, localCol)], bit number
    [localRow * blockSize + localCol]. *)
Section ExclusionEncoder.

Variable blockSize : nat.

Definition blockOf (i : nat) : nat := i / blockSize.

Definition numAtomBlocks (numAtoms : nat) : nat :=
  (numAtoms + blockSize - 1) / blockSize.

Definition ownerTile (i j : nat) : Tile := (blockOf (i `max` j), blockOf (i `min` j)).

Definition bitIndex (localRow localCol : nat) : N :=
  N.of_nat (localRow * blockSize + localCol).

Definition pairBit (i j : nat) : N :=
  bitIndex ((i `max` j) mod blockSize) ((i `min` j) mod blockSize).

(** The pairs listed by a per-atom exclusion list. *)
Definition exclusionPairs (exclusionList : list (list nat)) : list (nat * nat) :=
  mjoin (imap (fun i js => pair i <$> js) exclusionList).

(** [{i, j}] is excluded when either atom lists the other. *)
Definition excluded (exclusionList : list (list nat)) (i j : nat) : bool :=
  bool_decide (j ∈ default [] (exclusionList !! i))
  || bool_decide (i ∈ default [] (exclusionList !! j)).

Definition placePair (masks : gmap Tile N) (p : nat * nat) : gmap Tile N :=
  let t := ownerTile p.1 p.2 in
  <[t := N.setbit (default 0%N (masks !! t)) (pairBit p.1 p.2)]> masks.

(** One mask per tile that has an excluded pair. *)
Definition tileMasks (exclusionList : list (list nat)) : gmap Tile N :=
  foldl placePair ∅ (exclusionPairs exclusionList).

(** The columns [x] of row [y] that have a mask, ascending. *)
Definition exclusionRow (masks : gmap Tile N) (numBlocks y : nat) : list nat :=
  filter (fun x => is_Some (masks !! (x, y))) (seq 0 numBlocks).

Fixpoint prefixSums (acc : nat) (lengths : list nat) : list nat :=
  acc :: match lengths with
         | [] => []
         | n :: lengths => prefixSums (acc + n) lengths
         end.

Record ExclusionSet : Type := MkExclusionSet {
  es_exclusions : list N;
  es_exclusionIndices : list nat;
  es_exclusionRowIndices : list nat
}.

(** Modelled from the spec: [build(exclusionList, numAtoms, blockSize)],
    the encoding [initialize] computes.  Rows are emitted by block index
    [y], the columns [x] of a row ascending; [exclusionRowIndices[y]] is
    the number of tiles before row [y]. *)
Definition build (exclusionList : list (list nat)) (numAtoms : nat)
  : ExclusionSet :=
  let numBlocks := numAtomBlocks numAtoms in
  let masks := tileMasks exclusionList in
  let rows := exclusionRow masks numBlocks <$> seq 0 numBlocks in
  {| es_exclusions :=
       mjoin (imap (fun y (row : list nat) =>
                      (fun x => default 0%N (masks !! (x, y))) <$> row)
                   rows);
     es_exclusionIndices := mjoin rows;
     es_exclusionRowIndices := prefixSums 0 (length <$> rows) |}.

End ExclusionEncoder.

(** What a call of [findExclusionIndex] does: it returns an [int], throws
    an exception, or reads outside one of its arrays (which C++ leaves
    undefined). *)
Inductive outcome : Type :=
| Return (p : Z)
| Exception
| OutOfBounds.

(** The scan for [x] in [exclusionIndices[i .. i + n)]. *)
Fixpoint scanRow (x : nat) (exclusionIndices : list nat) (i n : nat) : outcome :=
  match n with
  | O => Exception
  | S n =>
      match exclusionIndices !! i with
      | Some v => if (v =? x)%nat then Return (Z.of_nat i)
                  else scanRow x exclusionIndices (S i) n
      | None => OutOfBounds
      end
  end.

(** Modelled from the spec: [findExclusionIndex(x, y, exclusionIndices,
    exclusionRowIndices)] scans [exclusionIndices] within
    [[exclusionRowIndices[y], exclusionRowIndices[y+1])] for the value [x];
    it fails when [x < y] and when [x] is not found. *)
Definition findExclusionIndex (x y : Z)
    (exclusionIndices exclusionRowIndices : list nat) : outcome :=
  if (x <? y)%Z then Exception
  else if (y <? 0)%Z then OutOfBounds
  else
    match exclusionRowIndices !! Z.to_nat y,
          exclusionRowIndices !! (Z.to_nat y + 1)%nat with
    | Some start, Some stop =>
        scanRow (Z.to_nat x) exclusionIndices start (stop - start)
    | _, _ => OutOfBounds
    end.

(** ** The neighbor list *)

(** Modelled from the spec: the header only declares [initialize],
    [setTileRange], [prepareInteractions], [computeInteractions] and
    [updateNeighborListSize], and names the kernels [findBlockBounds],
    [findInteractingBlocks], [findInteractionsWithinBlocks] and the force
    kernel without their source.  This section is the NeighborListBuilder
    and the NonbondedEngine of the design.  Distances are computed in exact
    rational arithmetic; a pass that the device runs in parallel is
    modelled in the order of its index space, as a count-then-compact
    implementation produces it. *)
Section NeighborList.

Context {CUdeviceptr : Type}.

Abbreviation Engine := (CudaNonbondedUtilities Q CUdeviceptr).
Abbreviation QPoint := (Point Q).

Local Open Scope Q_scope.

(** *** Geometry *)

Definition pointMin (a b : QPoint) : QPoint :=
  MkPoint (Qmin (px a) (px b)) (Qmin (py a) (py b)) (Qmin (pz a) (pz b)).

Definition pointMax (a b : QPoint) : QPoint :=
  MkPoint (Qmax (px a) (px b)) (Qmax (py a) (py b)) (Qmax (pz a) (pz b)).

(** The image of a coordinate in the primary cell of edge [L]. *)
Definition foldCoord (L x : Q) : Q := x - inject_Z (Qfloor (x / L)) * L.

Definition foldPoint (periodic : bool) (box p : QPoint) : QPoint :=
  if periodic
  then MkPoint (foldCoord (px box) (px p)) (foldCoord (py box) (py p))
               (foldCoord (pz box) (pz p))
  else p.

(** The difference [d] of two coordinates, replaced by its nearest
    periodic image when the box is periodic. *)
Definition nearestImage (periodic : bool) (L d : Q) : Q :=
  if periodic then d - inject_Z (Qfloor (d / L + (1 # 2))) * L else d.

(** [distance <= cutoff], decided on the squared distance. *)
Definition withinDistance (cutoff distance2 : Q) : bool :=
  Qle_bool 0 cutoff && Qle_bool distance2 (cutoff * cutoff).

(** Center and half-extent of the bounding box of a block's members. *)
Definition boundOf (members : list QPoint) : QPoint * QPoint :=
  match members with
  | [] => (MkPoint 0 0 0, MkPoint 0 0 0)
  | p :: ps =>
      let lo := foldl pointMin p ps in
      let hi := foldl pointMax p ps in
      (MkPoint ((px lo + px hi) / 2) ((py lo + py hi) / 2) ((pz lo + pz hi) / 2),
       MkPoint ((px hi - px lo) / 2) ((py hi - py lo) / 2) ((pz hi - pz lo) / 2))
  end.

(** How far apart two boxes are along one axis, at least. *)
Definition axisGap (periodic : bool) (L cx cy hx hy : Q) : Q :=
  Qmax 0 (Qabs (nearestImage periodic L (cx - cy)) - hx - hy).

(** *** The engine's view of its state *)

Definition blockSizeOf (this : Engine) : nat := TileSize (context this).
Definition atomCount (this : Engine) : nat := Z.to_nat (numAtoms this).
Definition blockCount (this : Engine) : nat :=
  numAtomBlocks (blockSizeOf this) (atomCount this).
Definition capacity (this : Engine) : nat := Z.to_nat (maxTiles this).

(** The tile index space [[0, numBlocks*(numBlocks+1)/2)]: rows [y]
    ascending, and in a row the columns [x >= y] ascending. *)
Definition allTiles (numBlocks : nat) : list Tile :=
  mjoin ((fun y => (fun x => (x, y)) <$> seq y (numBlocks - y))
         <$> seq 0 numBlocks).

(** The tiles of [[startTileIndex, startTileIndex + numTiles)]. *)
Definition tilesInRange (this : Engine) : list Tile :=
  take (Z.to_nat (numTiles this))
       (drop (Z.to_nat (startTileIndex this)) (allTiles (blockCount this))).

Definition blockMembers (this : Engine) (b : nat) : list QPoint :=
  foldPoint (usePeriodic this) (periodicBoxSize (context this))
  <$> (take (blockSizeOf this)
            (drop (b * blockSizeOf this) (take (atomCount this) (posq (context this))))).

Definition pointOr0 (o : option QPoint) : QPoint := default (MkPoint 0 0 0) o.

(** The squared distance between the bounding boxes of the blocks of a
    tile. *)
Definition tileDistance2 (this : Engine) (t : Tile) : Q :=
  let cx := pointOr0 (blockCenter this !! t.1) in
  let cy := pointOr0 (blockCenter this !! t.2) in
  let hx := pointOr0 (blockBoundingBox this !! t.1) in
  let hy := pointOr0 (blockBoundingBox this !! t.2) in
  let box := periodicBoxSize (context this) in
  let gx := axisGap (usePeriodic this) (px box) (px cx) (px cy) (px hx) (px hy) in
  let gy := axisGap (usePeriodic this) (py box) (py cx) (py cy) (py hx) (py hy) in
  let gz := axisGap (usePeriodic this) (pz box) (pz cx) (pz cy) (pz hx) (pz hy) in
  gx * gx + gy * gy + gz * gz.

Definition tileInteracts (this : Engine) (t : Tile) : bool :=
  negb (useCutoff this) || withinDistance (cutoff this) (tileDistance2 this t).

(** The squared distance of two particles (of nearest images when the
    box is periodic). *)
Definition pairDistance2 (this : Engine) (p q : QPoint) : Q :=
  let box := periodicBoxSize (context this) in
  let dx := nearestImage (usePeriodic this) (px box) (px p - px q) in
  let dy := nearestImage (usePeriodic this) (py box) (py p - py q) in
  let dz := nearestImage (usePeriodic this) (pz box) (pz p - pz q) in
  dx * dx + dy * dy + dz * dz.

Definition pairInteracts (this : Engine) (p q : QPoint) : bool :=
  negb (useCutoff this) || withinDistance (cutoff this) (pairDistance2 this p q).

(** The squared distance of [p] to the periodic image of [q] displaced by
    [k] box edges along the three axes. *)
Definition imageDistance2 (box : QPoint) (k : Z * Z * Z) (p q : QPoint) : Q :=
  let dx := px p - px q - inject_Z k.1.1 * px box in
  let dy := py p - py q - inject_Z k.1.2 * py box in
  let dz := pz p - pz q - inject_Z k.2 * pz box in
  dx * dx + dy * dy + dz * dz.

(** Two particles are within the cutoff distance: their distance, or with
    a periodic box the distance of some pair of their images, is at most
    the cutoff.  An engine that uses no cutoff lets every pair interact. *)
Definition withinCutoff (this : Engine) (p q : QPoint) : Prop :=
  useCutoff this = false
  ∨ (0 <= cutoff this
     ∧ ∃ k : Z * Z * Z,
         (usePeriodic this = false → k = (0, 0, 0)%Z)
         ∧ imageDistance2 (periodicBoxSize (context this)) k p q
           <= cutoff this * cutoff this).

(** An initialized engine: the blocks have a size and the exclusion
    arrays encode the requested exclusions for the particles of the
    system. *)
Definition Initialized (this : Engine) : Prop :=
  (0 < blockSizeOf this)%nat
  ∧ MkExclusionSet (exclusions this) (exclusionIndices this)
                   (exclusionRowIndices this)
    = build (blockSizeOf this) (atomExclusions this) (atomCount this).

(** *** State updates *)

Definition set_bounds (centers boxes : list QPoint) (this : Engine) : Engine :=
  {| context := context this;
     exclusions := exclusions this;
     exclusionIndices := exclusionIndices this;
     exclusionRowIndices := exclusionRowIndices this;
     interactingTiles := interactingTiles this;
     interactionFlags := interactionFlags this;
     interactionCount := interactionCount this;
     blockCenter := centers;
     blockBoundingBox := boxes;
     atomExclusions := atomExclusions this;
     parameters := parameters this; arguments := arguments this;
     kernelSource := kernelSource this;
     cutoff := cutoff this;
     useCutoff := useCutoff this; usePeriodic := usePeriodic this;
     anyExclusions := anyExclusions this;
     startTileIndex := startTileIndex this; numTiles := numTiles this;
     maxTiles := maxTiles this;
     numForceThreadBlocks := numForceThreadBlocks this;
     forceThreadBlockSize := forceThreadBlockSize this;
     nonbondedForceGroup := nonbondedForceGroup this;
     numAtoms := numAtoms this |}.

Definition set_neighbors (maxTiles' : Z) (count : nat) (tiles : list Tile)
    (flags : list N) (this : Engine) : Engine :=
  {| context := context this;
     exclusions := exclusions this;
     exclusionIndices := exclusionIndices this;
     exclusionRowIndices := exclusionRowIndices this;
     interactingTiles := tiles;
     interactionFlags := flags;
     interactionCount := count;
     blockCenter := blockCenter this;
     blockBoundingBox := blockBoundingBox this;
     atomExclusions := atomExclusions this;
     parameters := parameters this; arguments := arguments this;
     kernelSource := kernelSource this;
     cutoff := cutoff this;
     useCutoff := useCutoff this; usePeriodic := usePeriodic this;
     anyExclusions := anyExclusions this;
     startTileIndex := startTileIndex this; numTiles := numTiles this;
     maxTiles := maxTiles';
     numForceThreadBlocks := numForceThreadBlocks this;
     forceThreadBlockSize := forceThreadBlockSize this;
     nonbondedForceGroup := nonbondedForceGroup this;
     numAtoms := numAtoms this |}.

(** *** The four phases *)

(** Modelled from the spec: phase 1, bound computation (the kernel
    [findBlockBounds]). *)
Definition findBlockBounds (this : Engine) : Engine :=
  let bounds := (fun b => boundOf (blockMembers this b))
                <$> seq 0 (blockCount this) in
  set_bounds (fst <$> bounds) (snd <$> bounds) this.

(** The atomic append of one tile: the counter always advances, the tile
    is stored while there is room. *)
Definition appendTile (maxTiles : nat) (acc : nat * list Tile) (t : Tile)
  : nat * list Tile :=
  (S acc.1, if (acc.1 <? maxTiles)%nat then acc.2 ++ [t] else acc.2).

(** Modelled from the spec: phase 2, block-pair discovery (the kernel
    [findInteractingBlocks]), with the counter reset first. *)
Definition discover (this : Engine) : nat * list Tile :=
  foldl (fun acc t => if tileInteracts this t
                      then appendTile (capacity this) acc t else acc)
        (O, []) (tilesInRange this).

Definition findInteractingBlocks (this : Engine) : Engine :=
  let r := discover this in
  set_neighbors (maxTiles this) r.1 r.2 (interactionFlags this) this.

(** Modelled from the spec: discovery with unbounded capacity, every
    interacting tile of the range. *)
Definition discoverUnbounded (this : Engine) : list Tile :=
  filter (fun t => tileInteracts this t = true) (tilesInRange this).

(** The new capacity chosen when [count] tiles did not fit in [maxTiles]:
    the design fixes no formula, only that the arrays grow. *)
Variable grow : nat -> nat -> nat.

(** Modelled from the spec: phase 3, [updateNeighborListSize()].  When
    the count exceeds the capacity the tile-indexed arrays are reallocated
    larger (nothing is copied) and the counter is cleared. *)
Definition updateNeighborListSize (this : Engine) : Engine :=
  if (interactionCount this <=? capacity this)%nat then this
  else set_neighbors (Z.of_nat (grow (capacity this) (interactionCount this)))
                     O [] [] this.

Definition overflowed (this : Engine) : bool :=
  negb (interactionCount this <=? capacity this)%nat.

(** Discovery, retried after growth for as long as it overflows.  [fuel]
    bounds the number of retries. *)
Fixpoint discoverAndGrow (fuel : nat) (this : Engine) : Engine :=
  let this := findInteractingBlocks this in
  match fuel with
  | O => this
  | S fuel =>
      if overflowed this
      then discoverAndGrow fuel (updateNeighborListSize this)
      else this
  end.

(** Bit [(r, c)] of the flags of tile [(x, y)] stands for the pair of
    atom [x*blockSize + r] with atom [y*blockSize + c]. *)
Definition pairOfBit (this : Engine) (t : Tile) (r c : nat) : nat * nat :=
  (t.1 * blockSizeOf this + r, t.2 * blockSizeOf this + c)%nat.

(** The exact test of one bit: both atoms exist, the second has the
    smaller index (so that a pair of a diagonal tile is tested once, and no
    atom with itself), and they are within the cutoff. *)
Definition bitInteracts (this : Engine) (t : Tile) (r c : nat) : bool :=
  let '(i, j) := pairOfBit this t r c in
  match take (atomCount this) (posq (context this)) !! i,
        take (atomCount this) (posq (context this)) !! j with
  | Some p, Some q => (j <? i)%nat && pairInteracts this p q
  | _, _ => false
  end.

(** The mask whose bit [(r, c)] is [f r c], for [r], [c] below [size]. *)
Definition setBits (f : nat -> nat -> bool) (size : nat) : N :=
  foldl (fun m r =>
           foldl (fun m c => if f r c then N.setbit m (bitIndex size r c) else m)
                 m (seq 0 size))
        0%N (seq 0 size).

(** The exclusion mask of a tile, looked up in the engine's arrays; a
    tile that is not found has no exclusions. *)
Definition exclusionMask (this : Engine) (t : Tile) : N :=
  match findExclusionIndex (Z.of_nat t.1) (Z.of_nat t.2)
                           (exclusionIndices this) (exclusionRowIndices this) with
  | Return p => default 0%N (exclusions this !! Z.to_nat p)
  | _ => 0%N
  end.

(** The flags of a tile: the pairs within the cutoff, the excluded ones
    forced off. *)
Definition tileFlags (this : Engine) (t : Tile) : N :=
  N.ldiff (setBits (bitInteracts this t) (blockSizeOf this))
          (exclusionMask this t).

(** Modelled from the spec: phase 4, fine pairing (the kernel
    [findInteractionsWithinBlocks]). *)
Definition findInteractionsWithinBlocks (this : Engine) : Engine :=
  set_neighbors (maxTiles this) (interactionCount this) (interactingTiles this)
                (tileFlags this <$> interactingTiles this) this.

(** Modelled from the spec: [prepareInteractions()], the four phases.  A
    retry happens only when the capacity is below the count, which is at
    most the number of tiles of the range, and it raises the capacity:
    that number of retries is enough. *)
Definition prepareInteractions (this : Engine) : Engine :=
  findInteractionsWithinBlocks
    (discoverAndGrow (length (tilesInRange this)) (findBlockBounds this)).

(** The pair [{i, j}] appears in the flags of the [k]-th interacting
    tile with its bit set: a bit that is set there stands for the two
    atoms. *)
Definition pairFlagged (this : Engine) (k i j : nat) : Prop :=
  (k < interactionCount this)%nat
  ∧ ∃ (t : Tile) (flags : N) (r c : nat),
      interactingTiles this !! k = Some t
      ∧ interactionFlags this !! k = Some flags
      ∧ (r < blockSizeOf this)%nat ∧ (c < blockSizeOf this)%nat
      ∧ N.testbit flags (bitIndex (blockSizeOf this) r c) = true
      ∧ (pairOfBit this t r c = (i, j) ∨ pairOfBit this t r c = (j, i)).

(** *** Initialisation *)

Definition set_initialized (numAtoms' : Z) (es : ExclusionSet) (maxTiles' : Z)
    (this : Engine) : Engine :=
  {| context := context this;
     exclusions := es_exclusions es;
     exclusionIndices := es_exclusionIndices es;
     exclusionRowIndices := es_exclusionRowIndices es;
     interactingTiles := [];
     interactionFlags := [];
     interactionCount := O;
     blockCenter := blockCenter this;
     blockBoundingBox := blockBoundingBox this;
     atomExclusions := atomExclusions this;
     parameters := parameters this; arguments := arguments this;
     kernelSource := kernelSource this;
     cutoff := cutoff this;
     useCutoff := useCutoff this; usePeriodic := usePeriodic this;
     anyExclusions := anyExclusions this;
     startTileIndex := startTileIndex this; numTiles := numTiles this;
     maxTiles := maxTiles';
     numForceThreadBlocks := numForceThreadBlocks this;
     forceThreadBlockSize := forceThreadBlockSize this;
     nonbondedForceGroup := nonbondedForceGroup this;
     numAtoms := numAtoms' |}.

(** The capacity [initialize] starts from, sized from the block count;
    the design fixes no formula. *)
Variable initialCapacity : nat -> nat.

(** Modelled from the spec: [initialize(system)], where [numParticles]
    is the system's particle count.  The exclusion set is built from the
    requested exclusions and the neighbor list is given its first
    capacity.  The tile range is the one the engine has by then: the
    whole tile space, or the part a call of [setTileRange] assigned. *)
Definition initialize (numParticles : nat) (this : Engine) : Engine :=
  set_initialized
    (Z.of_nat numParticles)
    (build (blockSizeOf this) (atomExclusions this) numParticles)
    (Z.of_nat (initialCapacity (numAtomBlocks (blockSizeOf this) numParticles)))
    this.

(** Modelled from the spec: [setTileRange(startTileIndex, numTiles)]. *)
Definition setTileRange (startTileIndex' numTiles' : Z) (this : Engine) : Engine :=
  {| context := context this;
     exclusions := exclusions this;
     exclusionIndices := exclusionIndices this;
     exclusionRowIndices := exclusionRowIndices this;
     interactingTiles := interactingTiles this;
     interactionFlags := interactionFlags this;
     interactionCount := interactionCount this;
     blockCenter := blockCenter this;
     blockBoundingBox := blockBoundingBox this;
     atomExclusions := atomExclusions this;
     parameters := parameters this; arguments := arguments this;
     kernelSource := kernelSource this;
     cutoff := cutoff this;
     useCutoff := useCutoff this; usePeriodic := usePeriodic this;
     anyExclusions := anyExclusions this;
     startTileIndex := startTileIndex'; numTiles := numTiles';
     maxTiles := maxTiles this;
     numForceThreadBlocks := numForceThreadBlocks this;
     forceThreadBlockSize := forceThreadBlockSize this;
     nonbondedForceGroup := nonbondedForceGroup this;
     numAtoms := numAtoms this |}.

(** *** The default kernel *)

(** What the compiled default kernel evaluates for the pair of atom [i] at
    [p] with atom [j] at [q]: an energy, the force on [i] and the force on
    [j].  It is the meaning of the registered source fragments, which the
    model does not interpret. *)
Variable pairTerm : nat -> nat -> QPoint -> QPoint -> Q * QPoint * QPoint.

(** The parallel unit that evaluates the [n]-th flagged pair: the
    assignment of work to units is the device's. *)
Variable unitOf : nat -> nat.

(** One energy buffer per parallel unit of the force kernel. *)
Definition energyBufferCount (this : Engine) : nat :=
  Z.to_nat (getNumEnergyBuffers this).

(** The pairs whose bit is set in the flags of a tile. *)
Definition flaggedPairsOf (this : Engine) (t : Tile) (flags : N) : list (nat * nat) :=
  mjoin ((fun r =>
            omap (fun c => if N.testbit flags (bitIndex (blockSizeOf this) r c)
                           then Some (pairOfBit this t r c) else None)
                 (seq 0 (blockSizeOf this)))
         <$> seq 0 (blockSizeOf this)).

Definition flaggedPairs (this : Engine) : list (nat * nat) :=
  mjoin (zip_with (flaggedPairsOf this)
                   (take (interactionCount this) (interactingTiles this))
                   (interactionFlags this)).

Definition pointAdd (a b : QPoint) : QPoint :=
  MkPoint (px a + px b) (py a + py b) (pz a + pz b).

Definition accumulate {A} (add : A -> A -> A) (buffer : list A) (i : nat) (v : A)
  : list A :=
  match buffer !! i with
  | Some a => <[i := add a v]> buffer
  | None => buffer
  end.

Definition evaluatePair (this : Engine) (acc : nat * (list QPoint * list Q))
    (ij : nat * nat) : nat * (list QPoint * list Q) :=
  let '(n, (forces, energies)) := acc in
  let p := pointOr0 (posq (context this) !! ij.1) in
  let q := pointOr0 (posq (context this) !! ij.2) in
  let '(e, fi, fj) := pairTerm ij.1 ij.2 p q in
  (S n, (accumulate pointAdd (accumulate pointAdd forces ij.1 fi) ij.2 fj,
         accumulate Qplus energies (unitOf n mod energyBufferCount this) e)).

(** Modelled from the spec: [computeInteractions()].  The default kernel
    is launched on [getNumEnergyBuffers()] parallel units; they run over
    the interacting tiles and their flags, and add into the force buffer
    and, each unit into its own, into the energy buffers. *)
Definition computeInteractions (this : Engine) (forces : list QPoint)
    (energyBuffers : list Q) : list QPoint * list Q :=
  if (energyBufferCount this =? 0)%nat then (forces, energyBuffers)
  else (foldl (evaluatePair this) (O, (forces, energyBuffers))
              (flaggedPairs this)).2.

End NeighborList.

(** ** Example configurations *)

Section Examples.

Local Open Scope Q_scope.

(** A growth policy: the capacity doubles. *)
Definition doubling (maxTiles count : nat) : nat := (2 * (maxTiles `max` 1))%nat.

(** A first capacity: one tile per block. *)
Definition oneTilePerBlock (numBlocks : nat) : nat := numBlocks.

(** An engine taken through the calls of a set-up: construction, one
    registered interaction that uses exclusions, a tile range, and
    [initialize] for the particles of the context.  In the examples
    [cutoff] holds 0 after a term without cutoff. *)
Definition exampleEngine (context : CudaContext Q)
    (usesCutoff usesPeriodic : bool) (cutoffDistance : Q)
    (exclusionList : list (list nat)) (startTile numTiles : Z)
  : CudaNonbondedUtilities Q N :=
  let this := newCudaNonbondedUtilities context in
  let this := default this (addInteraction 0 usesCutoff usesPeriodic true
                              cutoffDistance exclusionList "E = k/r" 0 this) in
  let this := setTileRange startTile numTiles this in
  initialize oneTilePerBlock (length (posq context)) this.

(** The same set-up without a call of [setTileRange]: the engine of a
    single device. *)
Definition defaultEngine (context : CudaContext Q)
    (usesCutoff usesPeriodic usesExclusions : bool) (cutoffDistance : Q)
    (exclusionList : list (list nat))
  : CudaNonbondedUtilities Q N :=
  let this := newCudaNonbondedUtilities context in
  let this := default this (addInteraction 0 usesCutoff usesPeriodic
                              usesExclusions cutoffDistance exclusionList
                              "E = k/r" 0 this) in
  initialize oneTilePerBlock (length (posq context)) this.

Definition atX (x : Q) : Point Q := MkPoint x 0 0.

Definition onLine (xs : list Q) : list (Point Q) := atX <$> xs.

(** Seven particles one unit apart on a line, in blocks of two, in a
    periodic box of edge 7, with cutoff 3/2 and the pair of particles 0
    and 1 excluded; the engine owns all ten tiles. *)
Definition lineEngine : CudaNonbondedUtilities Q N :=
  exampleEngine (MkCudaContext (onLine [0; 1; 2; 3; 4; 5; 6]) (MkPoint 7 7 7) 2)
                true true (3 # 2)
                [[1%nat]; [0%nat]; []; []; []; []; []] 0 10.

(** The same line of seven particles on a single device: no call of
    [setTileRange]. *)
Definition wholeLineEngine : CudaNonbondedUtilities Q N :=
  defaultEngine (MkCudaContext (onLine [0; 1; 2; 3; 4; 5; 6]) (MkPoint 7 7 7) 2)
                true true true (3 # 2)
                [[1%nat]; [0%nat]; []; []; []; []; []].

(** Four particles one unit apart, in blocks of two, no periodicity,
    cutoff 3/2, on a single device. *)
Definition fourEngine : CudaNonbondedUtilities Q N :=
  defaultEngine (MkCudaContext (onLine [0; 1; 2; 3]) (MkPoint 0 0 0) 2)
                true false true (3 # 2) [[]; []; []; []].

(** The end-to-end scenario of the design: three particles, no cutoff, no
    exclusions, one registered term [E = k/r]. *)
Definition threeParticleEngine : CudaNonbondedUtilities Q N :=
  defaultEngine (MkCudaContext [MkPoint 0 0 0; MkPoint 1 0 0; MkPoint 0 2 0]
                               (MkPoint 0 0 0) 32)
                false false false 0 [].

(** The line engine, its force kernel launched on 30 blocks of 256
    units. *)
Definition launchedEngine : CudaNonbondedUtilities Q N :=
  {| context := context lineEngine;
     exclusions := exclusions lineEngine;
     exclusionIndices := exclusionIndices lineEngine;
     exclusionRowIndices := exclusionRowIndices lineEngine;
     interactingTiles := interactingTiles lineEngine;
     interactionFlags := interactionFlags lineEngine;
     interactionCount := interactionCount lineEngine;
     blockCenter := blockCenter lineEngine;
     blockBoundingBox := blockBoundingBox lineEngine;
     atomExclusions := atomExclusions lineEngine;
     parameters := parameters lineEngine; arguments := arguments lineEngine;
     kernelSource := kernelSource lineEngine;
     cutoff := cutoff lineEngine;
     useCutoff := useCutoff lineEngine; usePeriodic := usePeriodic lineEngine;
     anyExclusions := anyExclusions lineEngine;
     startTileIndex := startTileIndex lineEngine;
     numTiles := numTiles lineEngine;
     maxTiles := maxTiles lineEngine;
     numForceThreadBlocks := 30;
     forceThreadBlockSize := 256;
     nonbondedForceGroup := nonbondedForceGroup lineEngine;
     numAtoms := numAtoms lineEngine |}.

(** Five particles in blocks of two, with the pairs 0-1, 1-4 and 2-3
    excluded. *)
Definition exampleExclusions : list (list nat) :=
  [[1]; [0; 4]; [3]; [2]; [1]]%nat.

End Examples.

(** The configuration of [testOneAngle], in exact arithmetic: three
    particles at a right angle with unit arms, and the one angle
    [(0, 1, 2)] with its parameters. *)
Definition testOneAnglePositions : list (Amoeba.Vec3 R) :=
  [Amoeba.MkVec3 0 1 0; Amoeba.MkVec3 0 0 0; Amoeba.MkVec3 0 0 1]%R.

Definition testOneAngleForce : Amoeba.AmoebaAngleForce R :=
  {| Amoeba.angles := [Amoeba.MkAngleParameters 0 1 2 100%R 1%R];
     Amoeba.getAmoebaGlobalAngleCubic := (1 / 10)%R;
     Amoeba.getAmoebaGlobalAngleQuartic := (1 / 100)%R;
     Amoeba.getAmoebaGlobalAnglePentic := (1 / 1000)%R;
     Amoeba.getAmoebaGlobalAngleSextic := (1 / 10000)%R |}.

(** * Properties *)

(** ** [int] and strings *)

Lemma wrap_in_range z : Int.in_range (Int.wrap z).
Proof.
  unfold Int.in_range, Int.wrap, Int.min_int, Int.max_int.
  pose proof (Z.mod_pos_bound (z + 2 ^ 31) (2 ^ 32) ltac:(lia)). lia.
Qed.

Lemma wrap_id z : Int.in_range z -> Int.wrap z = z.
Proof.
  unfold Int.in_range, Int.wrap, Int.min_int, Int.max_int. intros Hz.
  rewrite Z.mod_small; lia.
Qed.

Lemma to_string_nonempty z : Int.to_string z <> EmptyString.
Proof.
  unfold Int.to_string. destruct z as [|p|p]; simpl; try discriminate.
  pose proof (Unsigned.to_uint_nonnil p) as Hp.
  destruct (Pos.to_uint p); simpl; congruence.
Qed.

Lemma string_append_empty_r (s t : string) :
  String.append s t = s -> t = EmptyString.
Proof.
  induction s as [|c s IH]; simpl; [easy|].
  intros Heq. injection Heq as Heq. auto.
Qed.

(** ** [ParameterInfo] *)

Section ParameterInfoProperties.

Context {CUdeviceptr : Type}.
Implicit Types (name componentType : string) (numComponents size : Z)
               (memory : CUdeviceptr).

Lemma getType_one name componentType size memory :
  getType (newParameterInfo name componentType 1 size memory) = componentType.
Proof. reflexivity. Qed.

Lemma getType_suffix name componentType numComponents size memory :
  numComponents <> 1%Z ->
  getType (newParameterInfo name componentType numComponents size memory)
  = String.append componentType (Int.to_string numComponents).
Proof.
  intros Hn. unfold getType, newParameterInfo; simpl.
  destruct (Z.eqb_spec numComponents 1); [contradiction|reflexivity].
Qed.

(** C7.  A [ParameterInfo] built from [(name, componentType, numComponents,
    size, memory)] gives every supplied field back through its getter;
    [getType()] is [componentType] followed by the count when the count is
    greater than 1 and the bare [componentType] when it is 1; [getMemory()]
    is a reference to the stored handle: reading it gives [memory], and an
    assignment through it replaces the handle and nothing else. *)
Theorem ParameterInfo_getters name componentType numComponents size memory :
  let p := newParameterInfo name componentType numComponents size memory in
  getName p = name
  /\ getComponentType p = componentType
  /\ getNumComponents p = numComponents
  /\ getSize p = size
  /\ deref getMemory p = memory
  /\ ((1 < numComponents)%Z ->
      getType p = String.append componentType (Int.to_string numComponents))
  /\ (numComponents = 1%Z -> getType p = componentType)
  /\ (forall m : CUdeviceptr,
        let p' := assign getMemory m p in
        deref getMemory p' = m
        /\ getName p' = name
        /\ getComponentType p' = componentType
        /\ getType p' = getType p
        /\ getNumComponents p' = numComponents
        /\ getSize p' = size).
Proof.
  intros p. repeat split.
  - intros Hn. apply getType_suffix. lia.
  - intros ->. apply getType_one.
Qed.

(** C8.  Whenever [numComponents] is not exactly 1 (zero and negative
    counts included) [getType()] is [componentType] with the count
    appended, and that is never the bare [componentType]. *)
Theorem getType_count_not_one name componentType numComponents size memory :
  numComponents <> 1%Z ->
  let p := newParameterInfo name componentType numComponents size memory in
  getType p = String.append componentType (Int.to_string numComponents)
  /\ getType p <> componentType.
Proof.
  intros Hn p. assert (Ht := getType_suffix name componentType _ size memory Hn).
  split; [exact Ht|]. fold p in Ht. rewrite Ht. intros Heq.
  apply string_append_empty_r in Heq. exact (to_string_nonempty _ Heq).
Qed.

End ParameterInfoProperties.

Example getType_float4 :
  getType (newParameterInfo "sigma" "float" 4 16 0%N) = "float4"%string.
Proof. reflexivity. Qed.

Example getType_negative :
  getType (newParameterInfo "q" "int" (-3) 4 0%N) = "int-3"%string.
Proof. reflexivity. Qed.

Lemma getType_count_not_one_witness :
  (0 <> 1)%Z
  /\ getType (newParameterInfo "charge" "float" 0 4 7%N) = "float0"%string
  /\ getType (newParameterInfo "charge" "float" 0 4 7%N) <> "float"%string.
Proof.
  split; [lia|].
  exact (getType_count_not_one "charge" "float" 0%Z 4%Z 7%N ltac:(lia)).
Defined.

Lemma to_string_inj (a b : Z) : Int.to_string a = Int.to_string b -> a = b.
Proof.
  unfold Int.to_string. intros Heq.
  assert (Hi : Some (Z.to_int a) = Some (Z.to_int b)).
  { rewrite <- !NilEmpty.isi. now rewrite Heq. }
  injection Hi as Hi. rewrite <- (DecimalZ.of_to a), <- (DecimalZ.of_to b).
  now rewrite Hi.
Qed.

Lemma string_append_cancel_l (s t u : string) :
  String.append s t = String.append s u -> t = u.
Proof.
  induction s as [|c s IH]; simpl; [easy|]. intros [= Heq]. auto.
Qed.

Section ParameterInfoNames.

Context {CUdeviceptr : Type}.

(** For a given component type, [getType()] determines the number of
    components: two parameters of the same component type have the same
    type name exactly when they have the same [numComponents]. *)
Theorem getType_determines_count (name1 name2 componentType : string)
    (numComponents1 numComponents2 size1 size2 : Z) (memory1 memory2 : CUdeviceptr) :
  getType (newParameterInfo name1 componentType numComponents1 size1 memory1)
  = getType (newParameterInfo name2 componentType numComponents2 size2 memory2)
  <-> numComponents1 = numComponents2.
Proof.
  split; [|intros ->; reflexivity].
  unfold getType, newParameterInfo; cbn [type].
  destruct (Z.eqb_spec numComponents1 1) as [->|H1],
           (Z.eqb_spec numComponents2 1) as [->|H2].
  - reflexivity.
  - intros Heq. symmetry in Heq. apply string_append_empty_r in Heq.
    now apply to_string_nonempty in Heq.
  - intros Heq. apply string_append_empty_r in Heq.
    now apply to_string_nonempty in Heq.
  - intros Heq. apply string_append_cancel_l in Heq. now apply to_string_inj.
Qed.

End ParameterInfoNames.

(** ** The AMOEBA angle force *)

Section AngleLocalsShape.

Context {D : Type} `{Double D}.
Local Open Scope double_scope.

(** How [deltaCrossP[1]] and [rp] are computed, whatever the arithmetic. *)
Lemma deltaCrossP1_eq (pos1 pos2 pos3 : Amoeba.Vec3 D) ia qk ck qtk pk sk :
  let l := Amoeba.angleLocals pos1 pos2 pos3 ia qk ck qtk pk sk in
  Amoeba.deltaCrossP1 l =
   {| Amoeba.c0 := dint (-1) * (Amoeba.c0 (Amoeba.deltaCrossP0 l) + Amoeba.c0 (Amoeba.deltaCrossP2 l));
      Amoeba.c1 := dint (-1) * (Amoeba.c1 (Amoeba.deltaCrossP0 l) + Amoeba.c1 (Amoeba.deltaCrossP2 l));
      Amoeba.c2 := dint (-1) * (Amoeba.c2 (Amoeba.deltaCrossP0 l) + Amoeba.c2 (Amoeba.deltaCrossP2 l)) |}.
Proof. reflexivity. Qed.

Lemma rp_eq (pos1 pos2 pos3 : Amoeba.Vec3 D) ia qk ck qtk pk sk :
  let l := Amoeba.angleLocals pos1 pos2 pos3 ia qk ck qtk pk sk in
  let p := Amoeba.pVector l in
  let s := dsqrt (Amoeba.c0 p * Amoeba.c0 p + Amoeba.c1 p * Amoeba.c1 p
                  + Amoeba.c2 p * Amoeba.c2 p) in
  Amoeba.rp l = (if s <? d1em6 then d1em6 else s)
  /\ Amoeba.termA l = (- Amoeba.dEdR l) / (Amoeba.r2_0 l * Amoeba.rp l)
  /\ Amoeba.termC l = Amoeba.dEdR l / (Amoeba.r2_1 l * Amoeba.rp l).
Proof. repeat split. Qed.

End AngleLocalsShape.

Lemma float_ltb_zero_1em6 (x : float) :
  PrimFloat.eqb x 0%float = true ->
  PrimFloat.ltb x 0x1.0c6f7a0b5ed8dp-20%float = true.
Proof.
  rewrite FloatAxioms.eqb_spec, FloatAxioms.ltb_spec.
  replace (Prim2SF 0%float) with (S754_zero false) by reflexivity.
  replace (Prim2SF 0x1.0c6f7a0b5ed8dp-20%float)
    with (S754_finite false 4722366482869645 (-72)) by reflexivity.
  unfold SFeqb, SFltb.
  destruct (Prim2SF x) as [s|s| |s m e].
  - reflexivity.
  - destruct s; intros Hx; discriminate Hx.
  - intros Hx; discriminate Hx.
  - destruct s; intros Hx; discriminate Hx.
Qed.

(** The clamp, on binary64 values: whatever [x] is (a zero of either sign,
    a subnormal, an infinity or a NaN), the clamped value does not compare
    below [1.0e-06] and is not a zero. *)
Lemma float_clamp_nonzero (x : float) :
  let r := if PrimFloat.ltb x 0x1.0c6f7a0b5ed8dp-20%float
           then 0x1.0c6f7a0b5ed8dp-20%float else x in
  PrimFloat.ltb r 0x1.0c6f7a0b5ed8dp-20%float = false
  /\ PrimFloat.eqb r 0%float = false.
Proof.
  simpl. destruct (PrimFloat.ltb x _) eqn:Hlt.
  - split; reflexivity.
  - split; [exact Hlt|].
    destruct (PrimFloat.eqb x 0%float) eqn:Heq; [|reflexivity].
    apply float_ltb_zero_1em6 in Heq. congruence.
Qed.

Lemma Rltb_false a b : Rltb a b = false -> (b <= a)%R.
Proof. unfold Rltb. destruct (Rlt_dec a b); [discriminate|lra]. Qed.

(** C9.  In [computeAmoebaAngleForce] the divisor [rp] of [termA] and
    [termC] has been clamped to at least [1.0e-06]: in binary64, for every
    input (collinear particles, infinities and NaNs included), [rp] does not
    compare below [1.0e-06] and is not a zero; in exact arithmetic
    [1.0e-06 <= rp].  [termA] and [termC] divide by [r2_0*rp] and
    [r2_1*rp] with that clamped [rp]. *)
Theorem rp_clamped_before_division :
  (forall (acos : float -> float) (pos1 pos2 pos3 : Amoeba.Vec3 float)
          (idealAngle quadraticK cubicK quarticK penticK sexticK : float),
      let l := Amoeba.angleLocals (H := Double_float acos) pos1 pos2 pos3
                 idealAngle quadraticK cubicK quarticK penticK sexticK in
      let p := Amoeba.pVector l in
      let s := PrimFloat.sqrt
                 (Amoeba.c0 p * Amoeba.c0 p + Amoeba.c1 p * Amoeba.c1 p
                  + Amoeba.c2 p * Amoeba.c2 p)%float in
      Amoeba.rp l = (if PrimFloat.ltb s 0x1.0c6f7a0b5ed8dp-20%float
                     then 0x1.0c6f7a0b5ed8dp-20%float else s)
      /\ PrimFloat.ltb (Amoeba.rp l) 0x1.0c6f7a0b5ed8dp-20%float = false
      /\ PrimFloat.eqb (Amoeba.rp l) 0%float = false
      /\ Amoeba.termA l
         = PrimFloat.div (PrimFloat.opp (Amoeba.dEdR l))
                         (PrimFloat.mul (Amoeba.r2_0 l) (Amoeba.rp l))
      /\ Amoeba.termC l
         = PrimFloat.div (Amoeba.dEdR l)
                         (PrimFloat.mul (Amoeba.r2_1 l) (Amoeba.rp l)))
  /\ (forall (pos1 pos2 pos3 : Amoeba.Vec3 R)
             (idealAngle quadraticK cubicK quarticK penticK sexticK : R),
        let l := Amoeba.angleLocals pos1 pos2 pos3
                   idealAngle quadraticK cubicK quarticK penticK sexticK in
        let p := Amoeba.pVector l in
        let s := R_sqrt.sqrt
                   (Amoeba.c0 p * Amoeba.c0 p + Amoeba.c1 p * Amoeba.c1 p
                    + Amoeba.c2 p * Amoeba.c2 p)%R in
        Amoeba.rp l = (if Rltb s (1 / 1000000) then 1 / 1000000 else s)%R
        /\ (1 / 1000000 <= Amoeba.rp l)%R
        /\ Amoeba.rp l <> 0%R
        /\ Amoeba.termA l = (- Amoeba.dEdR l / (Amoeba.r2_0 l * Amoeba.rp l))%R
        /\ Amoeba.termC l = (Amoeba.dEdR l / (Amoeba.r2_1 l * Amoeba.rp l))%R).
Proof.
  split.
  - intros acos pos1 pos2 pos3 ia qk ck qtk pk sk l p s.
    destruct (rp_eq (H := Double_float acos) pos1 pos2 pos3 ia qk ck qtk pk sk)
      as (Hrp & HA & HC).
    cbv zeta in Hrp. fold l in Hrp, HA, HC. fold p in Hrp.
    change (Amoeba.rp l = (if PrimFloat.ltb s 0x1.0c6f7a0b5ed8dp-20%float
                           then 0x1.0c6f7a0b5ed8dp-20%float else s)) in Hrp.
    split; [exact Hrp|]. rewrite HA, HC, Hrp.
    destruct (float_clamp_nonzero s) as [Hlt Hne].
    repeat split; assumption.
  - intros pos1 pos2 pos3 ia qk ck qtk pk sk l p s.
    destruct (rp_eq pos1 pos2 pos3 ia qk ck qtk pk sk) as (Hrp & HA & HC).
    cbv zeta in Hrp. fold l in Hrp, HA, HC. fold p in Hrp.
    change (Amoeba.rp l = (if Rltb s (1 / 1000000) then 1 / 1000000 else s)%R)
      in Hrp.
    split; [exact Hrp|]. rewrite HA, HC, Hrp.
    destruct (Rltb s (1 / 1000000)) eqn:Hlt.
    + repeat split; lra.
    + apply Rltb_false in Hlt. repeat split; lra.
Qed.

(** Three collinear particles: the cross product vanishes and [rp] is the
    clamp value; at a right angle with unit arms, as in [testOneAngle],
    [rp] is 1. *)
Example rp_collinear (acos : float -> float) :
  Amoeba.rp (Amoeba.angleLocals (H := Double_float acos)
               (Amoeba.MkVec3 0 0 0) (Amoeba.MkVec3 1 0 0) (Amoeba.MkVec3 2 0 0)
               100 1 0.5 0.25 0.125 0.0625)%float
  = 0x1.0c6f7a0b5ed8dp-20%float.
Proof. reflexivity. Qed.

Example rp_testOneAngle (acos : float -> float) :
  Amoeba.rp (Amoeba.angleLocals (H := Double_float acos)
               (Amoeba.MkVec3 0 1 0) (Amoeba.MkVec3 0 0 0) (Amoeba.MkVec3 0 0 1)
               100 1 0.5 0.25 0.125 0.0625)%float
  = 1%float.
Proof. reflexivity. Qed.

Section AngleForceExact.

Local Open Scope R_scope.
Implicit Types (u v w : Amoeba.Vec3 R) (forces : list (Amoeba.Vec3 R)).

Lemma Vec3_eq u v :
  Amoeba.c0 u = Amoeba.c0 v -> Amoeba.c1 u = Amoeba.c1 v ->
  Amoeba.c2 u = Amoeba.c2 v -> u = v.
Proof. destruct u, v; simpl; intros -> -> ->; reflexivity. Qed.

Lemma vadd_assoc u v w :
  Amoeba.vadd (Amoeba.vadd u v) w = Amoeba.vadd u (Amoeba.vadd v w).
Proof. apply Vec3_eq; cbn; ring. Qed.

Lemma vadd_zero_r u : Amoeba.vadd u Amoeba.vzero = u.
Proof. apply Vec3_eq; cbn; ring. Qed.

Lemma totalForce_addForce forces i v :
  (i < length forces)%nat ->
  Amoeba.totalForce (Amoeba.addForce forces i v)
  = Amoeba.vadd (Amoeba.totalForce forces) v.
Proof.
  unfold Amoeba.addForce. revert i.
  induction forces as [|f forces IH]; intros i Hi; simpl in Hi; [lia|].
  destruct i as [|i].
  - apply Vec3_eq; cbn; ring.
  - specialize (IH i ltac:(lia)).
    change ((f :: forces) !! S i) with (forces !! i).
    destruct (forces !! i) as [g|] eqn:Hg.
    + change (Amoeba.totalForce (f :: <[i:=Amoeba.vadd g v]> forces)
              = Amoeba.vadd (Amoeba.totalForce (f :: forces)) v).
      change (Amoeba.vadd f (Amoeba.totalForce (<[i:=Amoeba.vadd g v]> forces))
              = Amoeba.vadd (Amoeba.vadd f (Amoeba.totalForce forces)) v).
      rewrite IH. symmetry. apply vadd_assoc.
    + apply lookup_ge_None in Hg. lia.
Qed.

Lemma length_addForce forces i v :
  length (Amoeba.addForce forces i v) = length forces.
Proof.
  unfold Amoeba.addForce. destruct (forces !! i); [apply length_insert|reflexivity].
Qed.

(** C10.  In exact arithmetic the three force increments of
    [computeAmoebaAngleForce], [deltaCrossP[0]], [deltaCrossP[1]] and
    [deltaCrossP[2]], sum to the zero vector for every input, the middle one
    being componentwise minus the sum of the other two; so a call that
    updates [forces] leaves the total force unchanged. *)
Theorem force_increments_sum_to_zero :
  (forall (pos1 pos2 pos3 : Amoeba.Vec3 R)
          (idealAngle quadraticK cubicK quarticK penticK sexticK : R),
      let l := Amoeba.angleLocals pos1 pos2 pos3
                 idealAngle quadraticK cubicK quarticK penticK sexticK in
      Amoeba.vadd (Amoeba.vadd (Amoeba.deltaCrossP0 l) (Amoeba.deltaCrossP1 l))
                  (Amoeba.deltaCrossP2 l) = Amoeba.vzero
      /\ Amoeba.c0 (Amoeba.deltaCrossP1 l)
         = - (Amoeba.c0 (Amoeba.deltaCrossP0 l) + Amoeba.c0 (Amoeba.deltaCrossP2 l))
      /\ Amoeba.c1 (Amoeba.deltaCrossP1 l)
         = - (Amoeba.c1 (Amoeba.deltaCrossP0 l) + Amoeba.c1 (Amoeba.deltaCrossP2 l))
      /\ Amoeba.c2 (Amoeba.deltaCrossP1 l)
         = - (Amoeba.c2 (Amoeba.deltaCrossP0 l) + Amoeba.c2 (Amoeba.deltaCrossP2 l)))
  /\ (forall (bondIndex : nat) (positions : list (Amoeba.Vec3 R))
             (force : Amoeba.AmoebaAngleForce R) forces (energy : R)
             forces' (energy' : R),
        Amoeba.computeAmoebaAngleForce bondIndex positions force forces energy
        = Some (forces', energy') ->
        Amoeba.totalForce forces' = Amoeba.totalForce forces).
Proof.
  assert (Hinc : forall pos1 pos2 pos3 ia qk ck qtk pk sk,
             let l := Amoeba.angleLocals pos1 pos2 pos3 ia qk ck qtk pk sk in
             Amoeba.vadd (Amoeba.vadd (Amoeba.deltaCrossP0 l) (Amoeba.deltaCrossP1 l))
                         (Amoeba.deltaCrossP2 l) = Amoeba.vzero).
  { intros. pose proof (deltaCrossP1_eq pos1 pos2 pos3 ia qk ck qtk pk sk) as E.
    cbv zeta in E. fold l in E. rewrite E.
    generalize (Amoeba.deltaCrossP0 l) (Amoeba.deltaCrossP2 l). intros u w.
    apply Vec3_eq; cbn; ring. }
  split.
  - intros pos1 pos2 pos3 ia qk ck qtk pk sk l. split; [apply Hinc|].
    pose proof (deltaCrossP1_eq pos1 pos2 pos3 ia qk ck qtk pk sk) as E.
    cbv zeta in E. fold l in E. rewrite E.
    generalize (Amoeba.deltaCrossP0 l) (Amoeba.deltaCrossP2 l). intros u w.
    cbn. repeat split; ring.
  - intros bondIndex positions force forces energy forces' energy'.
    unfold Amoeba.computeAmoebaAngleForce.
    destruct (Amoeba.getAngleParameters force bondIndex) as [a|]; [|discriminate].
    cbn [mbind option_bind].
    destruct (positions !! Amoeba.particle1 a) as [pos1|]; [|discriminate].
    destruct (positions !! Amoeba.particle2 a) as [pos2|]; [|discriminate].
    destruct (positions !! Amoeba.particle3 a) as [pos3|]; [|discriminate].
    cbn [mbind option_bind]. case_decide as Hlen; [|discriminate].
    destruct Hlen as (H1 & H2 & H3). cbv zeta.
    specialize (Hinc pos1 pos2 pos3 (Amoeba.idealAngle a) (Amoeba.quadraticK a)
                  (Amoeba.getAmoebaGlobalAngleCubic force)
                  (Amoeba.getAmoebaGlobalAngleQuartic force)
                  (Amoeba.getAmoebaGlobalAnglePentic force)
                  (Amoeba.getAmoebaGlobalAngleSextic force)).
    cbv zeta in Hinc. revert Hinc.
    generalize (Amoeba.angleLocals pos1 pos2 pos3 (Amoeba.idealAngle a)
                  (Amoeba.quadraticK a)
                  (Amoeba.getAmoebaGlobalAngleCubic force)
                  (Amoeba.getAmoebaGlobalAngleQuartic force)
                  (Amoeba.getAmoebaGlobalAnglePentic force)
                  (Amoeba.getAmoebaGlobalAngleSextic force)).
    intros l Hinc [= <- _].
    rewrite !totalForce_addForce by (rewrite ?length_addForce; assumption).
    rewrite !vadd_assoc.
    rewrite <- (vadd_assoc (Amoeba.deltaCrossP0 l)), Hinc.
    apply vadd_zero_r.
Qed.

End AngleForceExact.

(** ** The locals of [computeAmoebaAngleForce], field by field *)

Section AngleLocalsFields.

Context {D : Type} `{Double D}.
Local Open Scope double_scope.

Lemma angleLocals_fields (pos1 pos2 pos3 : Amoeba.Vec3 D) ia qk ck qtk pk sk :
  let l := Amoeba.angleLocals pos1 pos2 pos3 ia qk ck qtk pk sk in
  Amoeba.deltaR0 l = Amoeba.vsub pos1 pos2
  /\ Amoeba.deltaR1 l = Amoeba.vsub pos3 pos2
  /\ Amoeba.r2_0 l = dint 0 + Amoeba.c0 (Amoeba.deltaR0 l) * Amoeba.c0 (Amoeba.deltaR0 l)
                     + Amoeba.c1 (Amoeba.deltaR0 l) * Amoeba.c1 (Amoeba.deltaR0 l)
                     + Amoeba.c2 (Amoeba.deltaR0 l) * Amoeba.c2 (Amoeba.deltaR0 l)
  /\ Amoeba.r2_1 l = dint 0 + Amoeba.c0 (Amoeba.deltaR1 l) * Amoeba.c0 (Amoeba.deltaR1 l)
                     + Amoeba.c1 (Amoeba.deltaR1 l) * Amoeba.c1 (Amoeba.deltaR1 l)
                     + Amoeba.c2 (Amoeba.deltaR1 l) * Amoeba.c2 (Amoeba.deltaR1 l)
  /\ Amoeba.pVector l = Amoeba.crossProductVector3 (Amoeba.deltaR0 l) (Amoeba.deltaR1 l)
  /\ Amoeba.dot l = vdot (Amoeba.deltaR0 l) (Amoeba.deltaR1 l)
  /\ Amoeba.cosine l = Amoeba.dot l / dsqrt (Amoeba.r2_0 l * Amoeba.r2_1 l)
  /\ (Amoeba.dEdR l, Amoeba.energyTerm l)
     = Amoeba.getPrefactorsGivenAngleCosine (Amoeba.cosine l) ia qk ck qtk pk sk
  /\ Amoeba.deltaCrossP0 l
     = Amoeba.vscale (Amoeba.crossProductVector3 (Amoeba.deltaR0 l) (Amoeba.pVector l))
                     (Amoeba.termA l)
  /\ Amoeba.deltaCrossP2 l
     = Amoeba.vscale (Amoeba.crossProductVector3 (Amoeba.deltaR1 l) (Amoeba.pVector l))
                     (Amoeba.termC l).
Proof. repeat split. Qed.

End AngleLocalsFields.

(** ** The reference angle force in exact arithmetic *)

Lemma Rleb_true a b : Rleb a b = true <-> (a <= b)%R.
Proof.
  unfold Rleb. destruct (Rle_dec a b); split; (discriminate || tauto || auto).
Qed.

Lemma Rleb_false a b : Rleb a b = false <-> (b < a)%R.
Proof.
  unfold Rleb. destruct (Rle_dec a b); split; try discriminate; try lra; auto.
Qed.

Section AngleForceGeometry.

Local Open Scope R_scope.
Implicit Types (u v w t : Amoeba.Vec3 R).

(** In exact arithmetic the vector [crossProductVector3] writes is
    orthogonal to both of its operands, changes sign when the operands are
    swapped, and vanishes when they are equal. *)
Theorem crossProductVector3_orthogonal u v :
  vdot u (Amoeba.crossProductVector3 u v) = 0
  /\ vdot v (Amoeba.crossProductVector3 u v) = 0
  /\ Amoeba.crossProductVector3 v u
     = Amoeba.vscale (Amoeba.crossProductVector3 u v) (-1)
  /\ Amoeba.crossProductVector3 u u = Amoeba.vzero.
Proof.
  destruct u as [u0 u1 u2], v as [v0 v1 v2].
  repeat split; try (apply Vec3_eq); cbn; ring.
Qed.

Lemma vdot_self_pos u : u <> Amoeba.vzero -> 0 < vdot u u.
Proof.
  destruct u as [x y z]. intros Hne. unfold vdot; cbn.
  destruct (Req_dec x 0) as [->|Hx]; [|nra].
  destruct (Req_dec y 0) as [->|Hy]; [|nra].
  destruct (Req_dec z 0) as [->|Hz]; [|nra].
  exfalso. apply Hne. reflexivity.
Qed.

Lemma vsub_nonzero u v : u <> v -> Amoeba.vsub u v <> Amoeba.vzero.
Proof.
  destruct u as [x y z], v as [x' y' z']. intros Hne [= H0 H1 H2].
  cbn in *. apply Hne. f_equal; lra.
Qed.

(** In exact arithmetic the squared norm of [pVector] is
    [r2_0*r2_1 - dot*dot] (Lagrange's identity): before the clamp, [rp] is
    the product of the two bond lengths with the sine of the angle, as
    [cosine] is their product with its cosine. *)
Theorem pVector_norm_identity (pos1 pos2 pos3 : Amoeba.Vec3 R)
    (idealAngle quadraticK cubicK quarticK penticK sexticK : R) :
  let l := Amoeba.angleLocals pos1 pos2 pos3
             idealAngle quadraticK cubicK quarticK penticK sexticK in
  vdot (Amoeba.pVector l) (Amoeba.pVector l)
  = Amoeba.r2_0 l * Amoeba.r2_1 l - Amoeba.dot l * Amoeba.dot l.
Proof.
  intros l.
  destruct (angleLocals_fields pos1 pos2 pos3 idealAngle quadraticK cubicK
              quarticK penticK sexticK) as (_ & _ & H0 & H1 & Hp & Hd & _).
  cbv zeta in *. fold l in H0, H1, Hp, Hd. rewrite H0, H1, Hp, Hd.
  generalize (Amoeba.deltaR0 l) (Amoeba.deltaR1 l). intros [a0 a1 a2] [b0 b1 b2].
  unfold vdot; cbn. ring.
Qed.

Lemma r2_pos (pos1 pos2 pos3 : Amoeba.Vec3 R) ia qk ck qtk pk sk :
  let l := Amoeba.angleLocals pos1 pos2 pos3 ia qk ck qtk pk sk in
  (pos1 <> pos2 -> 0 < Amoeba.r2_0 l) /\ (pos3 <> pos2 -> 0 < Amoeba.r2_1 l).
Proof.
  intros l.
  destruct (angleLocals_fields pos1 pos2 pos3 ia qk ck qtk pk sk)
    as (Hd0 & Hd1 & H0 & H1 & _).
  cbv zeta in *. fold l in Hd0, Hd1, H0, H1. rewrite H0, H1, Hd0, Hd1.
  split; intros Hne; apply vsub_nonzero, vdot_self_pos in Hne;
    unfold vdot in Hne; cbn in *; lra.
Qed.

(** In exact arithmetic, for bonds of nonzero length, [cosine] lies in
    [[-1, 1]]: the branches [cosine >= 1.0] and [cosine <= -1.0] of
    [getPrefactorsGivenAngleCosine] only guard against rounding. *)
Theorem cosine_bounded (pos1 pos2 pos3 : Amoeba.Vec3 R)
    (idealAngle quadraticK cubicK quarticK penticK sexticK : R) :
  pos1 <> pos2 -> pos3 <> pos2 ->
  let l := Amoeba.angleLocals pos1 pos2 pos3
             idealAngle quadraticK cubicK quarticK penticK sexticK in
  -1 <= Amoeba.cosine l <= 1.
Proof.
  intros Hne1 Hne3 l.
  pose proof (pVector_norm_identity pos1 pos2 pos3 idealAngle quadraticK cubicK
                quarticK penticK sexticK) as HL.
  destruct (r2_pos pos1 pos2 pos3 idealAngle quadraticK cubicK
                quarticK penticK sexticK) as [Hr0 Hr1].
  destruct (angleLocals_fields pos1 pos2 pos3 idealAngle quadraticK cubicK
              quarticK penticK sexticK) as (_ & _ & _ & _ & _ & _ & Hc & _).
  cbv zeta in *. fold l in HL, Hr0, Hr1, Hc.
  specialize (Hr0 Hne1). specialize (Hr1 Hne3). rewrite Hc.
  assert (Hp : 0 <= vdot (Amoeba.pVector l) (Amoeba.pVector l)).
  { generalize (Amoeba.pVector l). intros [x y z]. unfold vdot; cbn. nra. }
  rewrite HL in Hp.
  revert Hp Hr0 Hr1.
  generalize (Amoeba.dot l) (Amoeba.r2_0 l) (Amoeba.r2_1 l). intros d r0 r1 Hp Hr0 Hr1.
  change (-1 <= d / R_sqrt.sqrt (r0 * r1) <= 1).
  assert (Hprod : 0 < r0 * r1) by nra.
  pose proof (sqrt_lt_R0 _ Hprod) as Hs.
  pose proof (sqrt_sqrt (r0 * r1) ltac:(lra)) as Hss.
  set (s := R_sqrt.sqrt (r0 * r1)) in *.
  assert (Hd : -s <= d <= s) by nra.
  split.
  - apply Rmult_le_reg_r with s; [exact Hs|]. unfold Rdiv.
    rewrite Rmult_assoc, Rinv_l by lra. lra.
  - apply Rmult_le_reg_r with s; [exact Hs|]. unfold Rdiv.
    rewrite Rmult_assoc, Rinv_l by lra. lra.
Qed.

Lemma increments_exact (pos1 pos2 pos3 : Amoeba.Vec3 R) ia qk ck qtk pk sk :
  let l := Amoeba.angleLocals pos1 pos2 pos3 ia qk ck qtk pk sk in
  let d0 := Amoeba.vsub pos1 pos2 in
  let d1 := Amoeba.vsub pos3 pos2 in
  let p := Amoeba.crossProductVector3 d0 d1 in
  1 / 1000000 <= Amoeba.rp l
  /\ Amoeba.deltaCrossP0 l
     = Amoeba.vscale (Amoeba.crossProductVector3 d0 p)
                     (- Amoeba.dEdR l / (vdot d0 d0 * Amoeba.rp l))
  /\ Amoeba.deltaCrossP2 l
     = Amoeba.vscale (Amoeba.crossProductVector3 d1 p)
                     (Amoeba.dEdR l / (vdot d1 d1 * Amoeba.rp l))
  /\ Amoeba.deltaCrossP1 l
     = Amoeba.vscale (Amoeba.vadd (Amoeba.deltaCrossP0 l) (Amoeba.deltaCrossP2 l)) (-1).
Proof.
  intros l d0 d1 p.
  destruct (angleLocals_fields pos1 pos2 pos3 ia qk ck qtk pk sk)
    as (Hd0 & Hd1 & H0 & H1 & Hp & _ & _ & _ & HP0 & HP2).
  destruct (rp_eq pos1 pos2 pos3 ia qk ck qtk pk sk) as (Hrp & HA & HC).
  pose proof (deltaCrossP1_eq pos1 pos2 pos3 ia qk ck qtk pk sk) as HP1.
  cbv zeta in *. fold l in Hd0, Hd1, H0, H1, Hp, HP0, HP2, Hrp, HA, HC, HP1.
  rewrite Hd0 in *. rewrite Hd1 in *. fold d0 in H0, Hp, HP0. fold d1 in H1, Hp, HP2.
  rewrite Hp in HP0, HP2. fold p in HP0, HP2.
  split; [|split; [|split]].
  - rewrite Hrp. match goal with |- context [if ?b then _ else _] =>
      destruct b eqn:Hlt end; [change (1 / 1000000 <= 1 / 1000000); lra|].
    apply Rltb_false in Hlt. exact Hlt.
  - rewrite HP0, HA, H0. f_equal. change (dneg (Amoeba.dEdR l)) with (- Amoeba.dEdR l).
    unfold vdot. cbn. f_equal. f_equal. ring.
  - rewrite HP2, HC, H1. f_equal. unfold vdot. cbn. f_equal. f_equal. ring.
  - rewrite HP1. apply Vec3_eq; cbn; ring.
Qed.

(** Rewrites the three increments of [l] to their closed forms and
    abstracts [dEdR] and [rp]. *)
Ltac exact_increments l pos1 pos2 pos3 ia qk ck qtk pk sk :=
  let Hrp := fresh "Hrp" in
  let HP0 := fresh "HP0" in
  let HP1 := fresh "HP1" in
  let HP2 := fresh "HP2" in
  destruct (increments_exact pos1 pos2 pos3 ia qk ck qtk pk sk)
    as (Hrp & HP0 & HP2 & HP1);
  cbv zeta in Hrp, HP0, HP1, HP2; fold l in Hrp, HP0, HP1, HP2;
  rewrite HP1, HP0, HP2; clear HP0 HP1 HP2;
  revert Hrp; generalize (Amoeba.dEdR l) (Amoeba.rp l).

(** In exact arithmetic, for bonds of nonzero length, the three force
    increments exert no net torque: [sum_i positions[particle_i] x
    deltaCrossP[i]] is the zero vector, clamped [rp] or not. *)
Theorem angle_force_torque_free (pos1 pos2 pos3 : Amoeba.Vec3 R)
    (idealAngle quadraticK cubicK quarticK penticK sexticK : R) :
  pos1 <> pos2 -> pos3 <> pos2 ->
  let l := Amoeba.angleLocals pos1 pos2 pos3
             idealAngle quadraticK cubicK quarticK penticK sexticK in
  torque pos1 pos2 pos3
         (Amoeba.deltaCrossP0 l) (Amoeba.deltaCrossP1 l) (Amoeba.deltaCrossP2 l)
  = Amoeba.vzero.
Proof.
  intros Hne1 Hne3 l.
  apply vsub_nonzero, vdot_self_pos in Hne1, Hne3.
  exact_increments l pos1 pos2 pos3 idealAngle quadraticK cubicK quarticK penticK sexticK.
  intros E rho Hrho. clear l.
  destruct pos1 as [x1 y1 z1], pos2 as [x2 y2 z2], pos3 as [x3 y3 z3].
  unfold vdot in *. cbn in Hne1, Hne3.
  apply Vec3_eq; cbn; field; repeat split; lra.
Qed.

(** In exact arithmetic, for bonds of nonzero length, the increment on
    [particle1] is perpendicular to the bond from [particle2] to
    [particle1], the one on [particle3] to the bond from [particle2] to
    [particle3], and all three lie in the plane of the three particles
    (they are orthogonal to [pVector]). *)
Theorem angle_force_directions (pos1 pos2 pos3 : Amoeba.Vec3 R)
    (idealAngle quadraticK cubicK quarticK penticK sexticK : R) :
  pos1 <> pos2 -> pos3 <> pos2 ->
  let l := Amoeba.angleLocals pos1 pos2 pos3
             idealAngle quadraticK cubicK quarticK penticK sexticK in
  vdot (Amoeba.deltaCrossP0 l) (Amoeba.vsub pos1 pos2) = 0
  /\ vdot (Amoeba.deltaCrossP2 l) (Amoeba.vsub pos3 pos2) = 0
  /\ vdot (Amoeba.deltaCrossP0 l) (Amoeba.pVector l) = 0
  /\ vdot (Amoeba.deltaCrossP1 l) (Amoeba.pVector l) = 0
  /\ vdot (Amoeba.deltaCrossP2 l) (Amoeba.pVector l) = 0.
Proof.
  intros Hne1 Hne3 l.
  apply vsub_nonzero, vdot_self_pos in Hne1, Hne3.
  destruct (angleLocals_fields pos1 pos2 pos3 idealAngle quadraticK cubicK
              quarticK penticK sexticK) as (Hd0 & Hd1 & _ & _ & Hp & _).
  cbv zeta in Hd0, Hd1, Hp. fold l in Hd0, Hd1, Hp. rewrite Hp, Hd0, Hd1.
  clear Hd0 Hd1 Hp.
  exact_increments l pos1 pos2 pos3 idealAngle quadraticK cubicK quarticK penticK sexticK.
  intros E rho Hrho. clear l.
  destruct pos1 as [x1 y1 z1], pos2 as [x2 y2 z2], pos3 as [x3 y3 z3].
  unfold vdot in *. cbn in Hne1, Hne3.
  repeat split; cbn; field; repeat split; lra.
Qed.

Lemma exchange_prefactors (pos1 pos2 pos3 : Amoeba.Vec3 R) ia qk ck qtk pk sk :
  let l := Amoeba.angleLocals pos1 pos2 pos3 ia qk ck qtk pk sk in
  let l' := Amoeba.angleLocals pos3 pos2 pos1 ia qk ck qtk pk sk in
  Amoeba.cosine l' = Amoeba.cosine l
  /\ Amoeba.dEdR l' = Amoeba.dEdR l
  /\ Amoeba.energyTerm l' = Amoeba.energyTerm l
  /\ Amoeba.rp l' = Amoeba.rp l.
Proof.
  intros l l'.
  destruct (angleLocals_fields pos1 pos2 pos3 ia qk ck qtk pk sk)
    as (Hd0 & Hd1 & H0 & H1 & Hp & Hd & Hc & Hpre & _).
  destruct (angleLocals_fields pos3 pos2 pos1 ia qk ck qtk pk sk)
    as (Hd0' & Hd1' & H0' & H1' & Hp' & Hd' & Hc' & Hpre' & _).
  destruct (rp_eq pos1 pos2 pos3 ia qk ck qtk pk sk) as (Hrp & _).
  destruct (rp_eq pos3 pos2 pos1 ia qk ck qtk pk sk) as (Hrp' & _).
  cbv zeta in *.
  fold l in Hd0, Hd1, H0, H1, Hp, Hd, Hc, Hpre, Hrp.
  fold l' in Hd0', Hd1', H0', H1', Hp', Hd', Hc', Hpre', Hrp'.
  assert (Hcos : Amoeba.cosine l' = Amoeba.cosine l).
  { rewrite Hc, Hc'.
    replace (Amoeba.r2_0 l') with (Amoeba.r2_1 l) by reflexivity.
    replace (Amoeba.r2_1 l') with (Amoeba.r2_0 l) by reflexivity.
    replace (Amoeba.dot l') with (Amoeba.dot l).
    - change (Amoeba.dot l / R_sqrt.sqrt (Amoeba.r2_1 l * Amoeba.r2_0 l)
              = Amoeba.dot l / R_sqrt.sqrt (Amoeba.r2_0 l * Amoeba.r2_1 l)).
      now rewrite (Rmult_comm (Amoeba.r2_1 l)).
    - rewrite Hd, Hd', Hd0, Hd1, Hd0', Hd1'. unfold vdot. cbn. ring. }
  rewrite Hcos in Hpre'. rewrite <- Hpre in Hpre'. injection Hpre' as HE Hen.
  repeat split; try assumption.
  rewrite Hrp, Hrp', Hp, Hp', Hd0, Hd1, Hd0', Hd1'.
  match goal with
  | |- (if dlt (dsqrt ?a) _ then _ else _) = (if dlt (dsqrt ?b) _ then _ else _) =>
      replace a with b; [reflexivity|]
  end.
  destruct pos1, pos2, pos3; cbn; ring.
Qed.

(** In exact arithmetic, exchanging [particle1] and [particle3] leaves
    the energy term and the increment on [particle2] unchanged and
    exchanges the increments on the two outer particles. *)
Theorem angle_force_exchange (pos1 pos2 pos3 : Amoeba.Vec3 R)
    (idealAngle quadraticK cubicK quarticK penticK sexticK : R) :
  let l := Amoeba.angleLocals pos1 pos2 pos3
             idealAngle quadraticK cubicK quarticK penticK sexticK in
  let l' := Amoeba.angleLocals pos3 pos2 pos1
              idealAngle quadraticK cubicK quarticK penticK sexticK in
  Amoeba.energyTerm l' = Amoeba.energyTerm l
  /\ Amoeba.deltaCrossP0 l' = Amoeba.deltaCrossP2 l
  /\ Amoeba.deltaCrossP1 l' = Amoeba.deltaCrossP1 l
  /\ Amoeba.deltaCrossP2 l' = Amoeba.deltaCrossP0 l.
Proof.
  intros l l'.
  destruct (exchange_prefactors pos1 pos2 pos3 idealAngle quadraticK cubicK
              quarticK penticK sexticK) as (_ & HE & Hen & Hrho).
  destruct (increments_exact pos1 pos2 pos3 idealAngle quadraticK cubicK
              quarticK penticK sexticK) as (_ & HP0 & HP2 & HP1).
  destruct (increments_exact pos3 pos2 pos1 idealAngle quadraticK cubicK
              quarticK penticK sexticK) as (_ & HP0' & HP2' & HP1').
  cbv zeta in *. fold l in HE, Hen, Hrho, HP0, HP1, HP2.
  fold l' in HE, Hen, Hrho, HP0', HP1', HP2'.
  assert (H02 : Amoeba.deltaCrossP0 l' = Amoeba.deltaCrossP2 l).
  { rewrite HP0', HP2, HE, Hrho. generalize (Amoeba.dEdR l) (Amoeba.rp l).
    intros E rho. destruct pos1, pos2, pos3.
    apply Vec3_eq; cbn; unfold vdot, Rdiv; cbn; ring. }
  assert (H20 : Amoeba.deltaCrossP2 l' = Amoeba.deltaCrossP0 l).
  { rewrite HP2', HP0, HE, Hrho. generalize (Amoeba.dEdR l) (Amoeba.rp l).
    intros E rho. destruct pos1, pos2, pos3.
    apply Vec3_eq; cbn; unfold vdot, Rdiv; cbn; ring. }
  repeat split; try assumption.
  rewrite HP1', HP1, H02, H20.
  generalize (Amoeba.deltaCrossP0 l) (Amoeba.deltaCrossP2 l). intros u w.
  apply Vec3_eq; cbn; ring.
Qed.

(** The locals depend on the positions through [deltaR] only. *)
Lemma angleLocals_translate (pos1 pos2 pos3 t : Amoeba.Vec3 R) ia qk ck qtk pk sk :
  Amoeba.angleLocals (Amoeba.vadd pos1 t) (Amoeba.vadd pos2 t) (Amoeba.vadd pos3 t)
                     ia qk ck qtk pk sk
  = Amoeba.angleLocals pos1 pos2 pos3 ia qk ck qtk pk sk.
Proof.
  assert (Hsub : forall u v, Amoeba.vsub (Amoeba.vadd u t) (Amoeba.vadd v t)
                             = Amoeba.vsub u v).
  { intros u v. apply Vec3_eq; cbn; ring. }
  unfold Amoeba.angleLocals. rewrite !Hsub. reflexivity.
Qed.

(** Derivatives of the polynomial expressions of the code. *)
Ltac deriv :=
  lazymatch goal with
  | |- derivable_pt_lim (fun x => x) _ _ => apply derivable_pt_lim_id
  | |- derivable_pt_lim (fun _ => ?c) _ _ => apply derivable_pt_lim_const
  | |- derivable_pt_lim (fun x => @?f x + @?g x) ?a _ =>
      apply (derivable_pt_lim_plus f g a); deriv
  | |- derivable_pt_lim (fun x => @?f x - @?g x) ?a _ =>
      apply (derivable_pt_lim_minus f g a); deriv
  | |- derivable_pt_lim (fun x => @?f x * @?g x) ?a _ =>
      apply (derivable_pt_lim_mult f g a); deriv
  end.

Lemma getPrefactors_interior (cosine ia k cK qK pK sK : R) :
  -1 < cosine < 1 ->
  Amoeba.getPrefactorsGivenAngleCosine cosine ia k cK qK pK sK
  = (let d := dRADIAN * acos cosine - ia in
     ((2 + 3 * cK * d + 4 * qK * (d * d) + 5 * pK * (d * (d * d))
       + 6 * sK * ((d * d) * (d * d))) * (dRADIAN * k * d),
      (1 + cK * d + qK * (d * d) + pK * (d * (d * d)) + sK * ((d * d) * (d * d)))
      * (k * (d * d)))).
Proof.
  intros Hc. unfold Amoeba.getPrefactorsGivenAngleCosine.
  change (dge cosine (dint 1)) with (Rleb 1 cosine).
  change (dle cosine (dint (-1))) with (Rleb cosine (-1)).
  destruct (Rleb 1 cosine) eqn:E1; [apply Rleb_true in E1; lra|].
  destruct (Rleb cosine (-1)) eqn:E2; [apply Rleb_true in E2; lra|].
  reflexivity.
Qed.

(** In exact arithmetic, for a cosine strictly inside (-1, 1), [*dEdR] is
    consistent with [*energyTerm]: the derivative of the energy term with
    respect to the cosine is [-dEdR / sqrt(1 - cosine^2)]; the factor
    [RADIAN] in [dEdR] is the one that converts the angle to degrees. *)
Theorem dEdR_is_energy_slope (cosine idealAngle quadraticK cubicK quarticK
    penticK sexticK : R) :
  -1 < cosine < 1 ->
  derivable_pt_lim
    (fun x => snd (Amoeba.getPrefactorsGivenAngleCosine
                     x idealAngle quadraticK cubicK quarticK penticK sexticK))
    cosine
    (- fst (Amoeba.getPrefactorsGivenAngleCosine
              cosine idealAngle quadraticK cubicK quarticK penticK sexticK)
     / R_sqrt.sqrt (1 - cosine * cosine)).
Proof.
  intros Hc.
  set (P := fun d : R =>
              (1 + cubicK * d + quarticK * (d * d) + penticK * (d * (d * d))
               + sexticK * ((d * d) * (d * d))) * (quadraticK * (d * d))).
  set (inner := fun x : R => dRADIAN * acos x - idealAngle).
  apply (derivable_pt_lim_locally_ext (comp P inner) _ cosine (-1) 1); [exact Hc| |].
  - intros z Hz. rewrite (getPrefactors_interior z) by exact Hz. reflexivity.
  - rewrite (getPrefactors_interior cosine) by exact Hc. cbv zeta. cbn [fst].
    assert (Hs : 0 < R_sqrt.sqrt (1 - cosine * cosine)) by (apply sqrt_lt_R0; nra).
    assert (Hin : derivable_pt_lim inner cosine
                    (dRADIAN * (-1 / R_sqrt.sqrt (1 - cosine * cosine)) - 0)).
    { unfold inner.
      apply (derivable_pt_lim_minus (fun x => dRADIAN * acos x) (fun _ => idealAngle)).
      - apply (derivable_pt_lim_scal acos dRADIAN).
        pose proof (derive_pt_eq_1 acos cosine _ (derivable_pt_acos cosine Hc)
                      (derive_pt_acos cosine Hc)) as Ha.
        unfold Rsqr in Ha. exact Ha.
      - apply derivable_pt_lim_const. }
    eassert (HP : derivable_pt_lim P (inner cosine) _).
    { unfold P. deriv. }
    pose proof (derivable_pt_lim_comp inner P cosine _ _ Hin HP) as Hcomp.
    match type of Hcomp with derivable_pt_lim _ _ ?l =>
      match goal with |- derivable_pt_lim _ _ ?l' => replace l' with l; [exact Hcomp|] end
    end.
    unfold inner. generalize (acos cosine). intros a.
    field. lra.
Qed.

Lemma quotient_sqrt_slope (N M : R -> R) (x N' M' : R) :
  derivable_pt_lim N x N' -> derivable_pt_lim M x M' -> 0 < M x ->
  derivable_pt_lim (fun h => N h / R_sqrt.sqrt (M h)) x
                   ((N' - N x * M' / (2 * M x)) / R_sqrt.sqrt (M x)).
Proof.
  intros HN HM Hpos.
  pose proof (derivable_pt_lim_comp M R_sqrt.sqrt x _ _ HM
                (derivable_pt_lim_sqrt _ Hpos)) as Hs.
  pose proof (sqrt_lt_R0 _ Hpos) as Hs0.
  pose proof (derivable_pt_lim_div N (comp R_sqrt.sqrt M) x _ _ HN Hs) as Hd.
  assert (Hne : comp R_sqrt.sqrt M x <> 0) by (unfold comp; lra).
  specialize (Hd Hne).
  match type of Hd with derivable_pt_lim _ _ ?l =>
    match goal with |- derivable_pt_lim _ _ ?l' => replace l' with l; [exact Hd|] end
  end.
  unfold comp, Rsqr. pose proof (sqrt_sqrt (M x) ltac:(lra)) as Hsq.
  set (s := R_sqrt.sqrt (M x)) in *. rewrite <- Hsq. field. lra.
Qed.

Lemma sqrt_pos_inv x : 0 < R_sqrt.sqrt x -> 0 < x.
Proof.
  intros Hs. destruct (Rle_or_lt x 0) as [Hx|Hx]; [|exact Hx].
  rewrite (sqrt_neg_0 x Hx) in Hs. lra.
Qed.

(** Away from collinearity the cosine is strictly inside (-1, 1) and [rp]
    is the norm of [pVector], not the clamp value. *)
Lemma unclamped_locals (pos1 pos2 pos3 : Amoeba.Vec3 R) ia qk ck qtk pk sk :
  let l := Amoeba.angleLocals pos1 pos2 pos3 ia qk ck qtk pk sk in
  1 / 1000000 <= R_sqrt.sqrt (vdot (Amoeba.pVector l) (Amoeba.pVector l)) ->
  Amoeba.rp l = R_sqrt.sqrt (vdot (Amoeba.pVector l) (Amoeba.pVector l))
  /\ 0 < Amoeba.r2_0 l /\ 0 < Amoeba.r2_1 l
  /\ -1 < Amoeba.cosine l < 1
  /\ R_sqrt.sqrt (1 - Amoeba.cosine l * Amoeba.cosine l)
     = Amoeba.rp l / R_sqrt.sqrt (Amoeba.r2_0 l * Amoeba.r2_1 l).
Proof.
  intros l Hp.
  pose proof (pVector_norm_identity pos1 pos2 pos3 ia qk ck qtk pk sk) as HL.
  destruct (angleLocals_fields pos1 pos2 pos3 ia qk ck qtk pk sk)
    as (_ & _ & H0 & H1 & _ & _ & Hc & _).
  destruct (rp_eq pos1 pos2 pos3 ia qk ck qtk pk sk) as (Hrp & _).
  cbv zeta in *. fold l in HL, H0, H1, Hc, Hrp.
  assert (Hrho : Amoeba.rp l = R_sqrt.sqrt (vdot (Amoeba.pVector l) (Amoeba.pVector l))).
  { rewrite Hrp.
    change (dsqrt _) with (R_sqrt.sqrt (vdot (Amoeba.pVector l) (Amoeba.pVector l))).
    change (dlt ?a ?b) with (Rltb a b). change d1em6 with (1 / 1000000).
    unfold Rltb. destruct (Rlt_dec _ _); [lra|reflexivity]. }
  assert (Hpp : 0 < vdot (Amoeba.pVector l) (Amoeba.pVector l))
    by (apply sqrt_pos_inv; lra).
  assert (Hr0 : 0 <= Amoeba.r2_0 l).
  { rewrite H0. generalize (Amoeba.deltaR0 l). intros [x y z]. cbn. nra. }
  assert (Hr1 : 0 <= Amoeba.r2_1 l).
  { rewrite H1. generalize (Amoeba.deltaR1 l). intros [x y z]. cbn. nra. }
  rewrite Hrho, Hc. rewrite HL in *.
  revert Hpp Hr0 Hr1. clear.
  generalize (Amoeba.dot l) (Amoeba.r2_0 l) (Amoeba.r2_1 l).
  intros d r0 r1 Hpp Hr0 Hr1.
  change (ddiv d (dsqrt (dmul r0 r1))) with (d / R_sqrt.sqrt (r0 * r1)).
  assert (Hprod : 0 < r0 * r1) by nra.
  pose proof (sqrt_lt_R0 _ Hprod) as Hs.
  pose proof (sqrt_sqrt (r0 * r1) ltac:(lra)) as Hss.
  set (s := R_sqrt.sqrt (r0 * r1)) in *.
  assert (Hsq : 1 - d / s * (d / s) = (r0 * r1 - d * d) / (r0 * r1)).
  { rewrite <- Hss. field. lra. }
  split; [reflexivity|]. split; [nra|]. split; [nra|]. split.
  - assert (Hd : - s < d < s) by nra.
    split; apply Rmult_lt_reg_r with s; try exact Hs; unfold Rdiv;
      rewrite Rmult_assoc, Rinv_l by lra; lra.
  - rewrite Hsq. rewrite sqrt_div_alt by exact Hprod. reflexivity.
Qed.

(** In exact arithmetic, wherever the clamp of [rp] is not active, the
    force increments are minus the gradient of the energy term: displacing
    the three particles along [v1], [v2], [v3], the energy term changes
    at the rate [-(deltaCrossP[0].v1 + deltaCrossP[1].v2 +
    deltaCrossP[2].v3)]. *)
Theorem angle_force_is_gradient (pos1 pos2 pos3 v1 v2 v3 : Amoeba.Vec3 R)
    (idealAngle quadraticK cubicK quarticK penticK sexticK : R) :
  let l := Amoeba.angleLocals pos1 pos2 pos3
             idealAngle quadraticK cubicK quarticK penticK sexticK in
  1 / 1000000 <= R_sqrt.sqrt (vdot (Amoeba.pVector l) (Amoeba.pVector l)) ->
  derivable_pt_lim
    (fun h =>
       Amoeba.energyTerm
         (Amoeba.angleLocals (Amoeba.vadd pos1 (Amoeba.vscale v1 h))
                             (Amoeba.vadd pos2 (Amoeba.vscale v2 h))
                             (Amoeba.vadd pos3 (Amoeba.vscale v3 h))
                             idealAngle quadraticK cubicK quarticK penticK sexticK))
    0
    (- (vdot (Amoeba.deltaCrossP0 l) v1 + vdot (Amoeba.deltaCrossP1 l) v2
        + vdot (Amoeba.deltaCrossP2 l) v3)).
Proof.
  intros l Hp.
  destruct (unclamped_locals pos1 pos2 pos3 idealAngle quadraticK cubicK quarticK
              penticK sexticK Hp) as (Hrho & Hr0 & Hr1 & Hcos & Hsin).
  fold l in Hrho, Hr0, Hr1, Hcos, Hsin.
  destruct (angleLocals_fields pos1 pos2 pos3 idealAngle quadraticK cubicK quarticK
              penticK sexticK) as (Hd0 & Hd1 & H0 & H1 & _ & Hd & Hc & Hpre & _).
  cbv zeta in Hd0, Hd1, H0, H1, Hd, Hc, Hpre. fold l in Hd0, Hd1, H0, H1, Hd, Hc, Hpre.
  set (D0 := fun h : R => Amoeba.vsub (Amoeba.vadd pos1 (Amoeba.vscale v1 h))
                                      (Amoeba.vadd pos2 (Amoeba.vscale v2 h))).
  set (D1 := fun h : R => Amoeba.vsub (Amoeba.vadd pos3 (Amoeba.vscale v3 h))
                                      (Amoeba.vadd pos2 (Amoeba.vscale v2 h))).
  set (N := fun h : R => vdot (D0 h) (D1 h)).
  set (M := fun h : R => (0 + Amoeba.c0 (D0 h) * Amoeba.c0 (D0 h)
                          + Amoeba.c1 (D0 h) * Amoeba.c1 (D0 h)
                          + Amoeba.c2 (D0 h) * Amoeba.c2 (D0 h))
                         * (0 + Amoeba.c0 (D1 h) * Amoeba.c0 (D1 h)
                            + Amoeba.c1 (D1 h) * Amoeba.c1 (D1 h)
                            + Amoeba.c2 (D1 h) * Amoeba.c2 (D1 h))).
  set (Eof := fun c : R => snd (Amoeba.getPrefactorsGivenAngleCosine
                                  c idealAngle quadraticK cubicK quarticK penticK sexticK)).
  assert (HN0 : N 0 = Amoeba.dot l).
  { rewrite Hd, Hd0, Hd1. unfold N, D0, D1, vdot. cbn. ring. }
  assert (HM0 : M 0 = Amoeba.r2_0 l * Amoeba.r2_1 l).
  { rewrite H0, H1, Hd0, Hd1. unfold M, D0, D1. cbn. ring. }
  assert (Hc0 : N 0 / R_sqrt.sqrt (M 0) = Amoeba.cosine l).
  { rewrite HN0, HM0, Hc. reflexivity. }
  eassert (HN : derivable_pt_lim N 0 _).
  { unfold N, D0, D1, vdot. cbn. deriv. }
  eassert (HM : derivable_pt_lim M 0 _).
  { unfold M, D0, D1. cbn. deriv. }
  assert (HMpos : 0 < M 0) by (rewrite HM0; nra).
  pose proof (quotient_sqrt_slope N M 0 _ _ HN HM HMpos) as Hq.
  assert (HE := dEdR_is_energy_slope (N 0 / R_sqrt.sqrt (M 0)) idealAngle quadraticK
                  cubicK quarticK penticK sexticK ltac:(rewrite Hc0; exact Hcos)).
  pose proof (derivable_pt_lim_comp _ _ 0 _ _ Hq HE) as Hcomp.
  cbv beta in Hcomp.
  match type of Hcomp with derivable_pt_lim _ _ ?lim =>
    match goal with |- derivable_pt_lim _ _ ?lim' =>
      replace lim' with lim; [exact Hcomp|] end
  end.
  rewrite Hc0, Hsin. rewrite <- Hpre. cbn [fst].
  rewrite HM0, HN0.
  destruct (increments_exact pos1 pos2 pos3 idealAngle quadraticK cubicK quarticK
              penticK sexticK) as (_ & HP0 & HP2 & HP1).
  cbv zeta in HP0, HP1, HP2. fold l in HP0, HP1, HP2.
  rewrite HP1, HP0, HP2.
  pose proof (sqrt_lt_R0 _ (Rmult_lt_0_compat _ _ Hr0 Hr1)) as Hs.
  assert (Hrhopos : 0 < Amoeba.rp l) by (rewrite Hrho; lra).
  rewrite Hd, H0, H1, Hd0, Hd1 in *.
  revert Hs Hrhopos Hr0 Hr1. clear.
  generalize (Amoeba.dEdR l) (Amoeba.rp l). intros E rho.
  match goal with |- context [R_sqrt.sqrt ?m] => generalize (R_sqrt.sqrt m) end.
  intros s Hs Hrho Hr0 Hr1.
  destruct pos1 as [x1 y1 z1], pos2 as [x2 y2 z2], pos3 as [x3 y3 z3].
  destruct v1 as [a1 b1 c1], v2 as [a2 b2 c2], v3 as [a3 b3 c3].
  unfold vdot in *. cbn in *.
  field. repeat split; lra.
Qed.

Lemma increments_vanish (pos1 pos2 pos3 : Amoeba.Vec3 R) ia qk ck qtk pk sk :
  let l := Amoeba.angleLocals pos1 pos2 pos3 ia qk ck qtk pk sk in
  Amoeba.dEdR l = 0 \/ Amoeba.pVector l = Amoeba.vzero ->
  Amoeba.deltaCrossP0 l = Amoeba.vzero
  /\ Amoeba.deltaCrossP1 l = Amoeba.vzero
  /\ Amoeba.deltaCrossP2 l = Amoeba.vzero.
Proof.
  intros l Hz.
  destruct (angleLocals_fields pos1 pos2 pos3 ia qk ck qtk pk sk)
    as (Hd0 & Hd1 & _ & _ & Hp & _).
  destruct (increments_exact pos1 pos2 pos3 ia qk ck qtk pk sk)
    as (_ & HP0 & HP2 & HP1).
  cbv zeta in Hd0, Hd1, Hp, HP0, HP1, HP2. fold l in Hd0, Hd1, Hp, HP0, HP1, HP2.
  rewrite Hd0, Hd1 in Hp. rewrite <- Hp in HP0, HP2.
  assert (H0 : Amoeba.deltaCrossP0 l = Amoeba.vzero).
  { rewrite HP0. destruct Hz as [-> | ->]; apply Vec3_eq; cbn; unfold Rdiv; ring. }
  assert (H2 : Amoeba.deltaCrossP2 l = Amoeba.vzero).
  { rewrite HP2. destruct Hz as [-> | ->]; apply Vec3_eq; cbn; unfold Rdiv; ring. }
  repeat split; try assumption.
  rewrite HP1, H0, H2. apply Vec3_eq; cbn; ring.
Qed.

(** In exact arithmetic, for bonds of nonzero length: when [idealAngle]
    is the angle [getPrefactorsGivenAngleCosine] computes from the cosine,
    the energy term and the three force increments vanish. *)
Theorem angle_force_equilibrium (pos1 pos2 pos3 : Amoeba.Vec3 R)
    (idealAngle quadraticK cubicK quarticK penticK sexticK : R) :
  let l := Amoeba.angleLocals pos1 pos2 pos3
             idealAngle quadraticK cubicK quarticK penticK sexticK in
  pos1 <> pos2 -> pos3 <> pos2 ->
  (1 <= Amoeba.cosine l /\ idealAngle = 0)
  \/ (Amoeba.cosine l <= -1 /\ idealAngle = dRADIAN * dPI_M)
  \/ (-1 < Amoeba.cosine l < 1 /\ idealAngle = dRADIAN * acos (Amoeba.cosine l)) ->
  Amoeba.energyTerm l = 0
  /\ Amoeba.deltaCrossP0 l = Amoeba.vzero
  /\ Amoeba.deltaCrossP1 l = Amoeba.vzero
  /\ Amoeba.deltaCrossP2 l = Amoeba.vzero.
Proof.
  intros l _ _ Hia.
  destruct (angleLocals_fields pos1 pos2 pos3 idealAngle quadraticK cubicK quarticK
              penticK sexticK) as (_ & _ & _ & _ & _ & _ & _ & Hpre & _).
  cbv zeta in Hpre. fold l in Hpre.
  assert (Hzero : Amoeba.dEdR l = 0 /\ Amoeba.energyTerm l = 0).
  { revert Hpre Hia. generalize (Amoeba.cosine l) (Amoeba.dEdR l) (Amoeba.energyTerm l).
    intros c E en Hpre Hia.
    unfold Amoeba.getPrefactorsGivenAngleCosine in Hpre.
    change (dge c (dint 1)) with (Rleb 1 c) in Hpre.
    change (dle c (dint (-1))) with (Rleb c (-1)) in Hpre.
    destruct Hia as [[Hc ->] | [[Hc ->] | [Hc ->]]].
    - apply Rleb_true in Hc. rewrite Hc in Hpre. injection Hpre as -> ->.
      cbn. split; ring.
    - assert (H1 : Rleb 1 c = false) by (apply Rleb_false; lra).
      apply Rleb_true in Hc. rewrite H1, Hc in Hpre. injection Hpre as -> ->.
      cbn. split; ring.
    - assert (H1 : Rleb 1 c = false) by (apply Rleb_false; lra).
      assert (H2 : Rleb c (-1) = false) by (apply Rleb_false; lra).
      rewrite H1, H2 in Hpre. injection Hpre as -> ->. cbn. split; ring. }
  destruct Hzero as [HE Hen]. split; [exact Hen|].
  apply increments_vanish. left. exact HE.
Qed.

(** In exact arithmetic, for three distinct collinear particles the
    clamp is active ([rp] is [1.0e-06]), [cosine] is 1 or -1 according
    to the side of [particle2] on which [particle3] lies, and the three force
    increments vanish whatever [dEdR] is. *)
Theorem angle_force_collinear (pos1 pos2 pos3 : Amoeba.Vec3 R) (lam : R)
    (idealAngle quadraticK cubicK quarticK penticK sexticK : R) :
  let l := Amoeba.angleLocals pos1 pos2 pos3
             idealAngle quadraticK cubicK quarticK penticK sexticK in
  pos1 <> pos2 -> lam <> 0 ->
  Amoeba.vsub pos3 pos2 = Amoeba.vscale (Amoeba.vsub pos1 pos2) lam ->
  Amoeba.rp l = 1 / 1000000
  /\ Amoeba.cosine l = (if Rltb 0 lam then 1 else -1)
  /\ Amoeba.deltaCrossP0 l = Amoeba.vzero
  /\ Amoeba.deltaCrossP1 l = Amoeba.vzero
  /\ Amoeba.deltaCrossP2 l = Amoeba.vzero.
Proof.
  intros l Hne Hlam Hcol.
  destruct (angleLocals_fields pos1 pos2 pos3 idealAngle quadraticK cubicK quarticK
              penticK sexticK) as (Hd0 & Hd1 & H0 & H1 & Hp & Hd & Hc & _).
  destruct (rp_eq pos1 pos2 pos3 idealAngle quadraticK cubicK quarticK
              penticK sexticK) as (Hrp & _).
  cbv zeta in Hd0, Hd1, H0, H1, Hp, Hd, Hc, Hrp.
  fold l in Hd0, Hd1, H0, H1, Hp, Hd, Hc, Hrp.
  apply vsub_nonzero, vdot_self_pos in Hne.
  rewrite Hcol in Hd1. rewrite <- Hd0 in Hd1, Hne.
  assert (Hpz : Amoeba.pVector l = Amoeba.vzero).
  { rewrite Hp, Hd1. generalize (Amoeba.deltaR0 l). intros [x y z].
    apply Vec3_eq; cbn; ring. }
  split; [|split].
  - rewrite Hrp, Hpz. cbn.
    replace (0 * 0 + 0 * 0 + 0 * 0) with 0 by ring. rewrite sqrt_0.
    unfold Rltb. destruct (Rlt_dec 0 (1 / 1000000)); [reflexivity|lra].
  - rewrite Hc, Hd, H0, H1, Hd1. revert Hne. generalize (Amoeba.deltaR0 l).
    intros [x y z] Hne. unfold vdot in *. cbn in *.
    set (r := x * x + y * y + z * z) in *.
    replace ((0 + x * x + y * y + z * z)
             * (0 + x * lam * (x * lam) + y * lam * (y * lam) + z * lam * (z * lam)))
      with ((lam * r)²) by (unfold Rsqr, r; ring).
    rewrite sqrt_Rsqr_abs.
    replace (x * (x * lam) + y * (y * lam) + z * (z * lam)) with (lam * r)
      by (unfold r; ring).
    unfold Rltb. destruct (Rlt_dec 0 lam) as [Hpos|Hneg].
    + rewrite Rabs_pos_eq by nra. field. nra.
    + rewrite Rabs_left by nra. field. nra.
  - apply increments_vanish. right. exact Hpz.
Qed.

(** In exact arithmetic the cosine, the energy term and [dEdR] depend
    only on the shape of the triangle: two configurations whose bond
    vectors have the same scalar products up to a common factor [k > 0]
    (a translation, rotation, reflection or uniform scaling of one
    another) give the same three values. *)
Theorem angle_energy_depends_on_shape (pos1 pos2 pos3 pos1' pos2' pos3' : Amoeba.Vec3 R)
    (k : R) (idealAngle quadraticK cubicK quarticK penticK sexticK : R) :
  let d0 := Amoeba.vsub pos1 pos2 in
  let d1 := Amoeba.vsub pos3 pos2 in
  let d0' := Amoeba.vsub pos1' pos2' in
  let d1' := Amoeba.vsub pos3' pos2' in
  pos1 <> pos2 -> pos3 <> pos2 -> 0 < k ->
  vdot d0' d0' = k * vdot d0 d0 ->
  vdot d1' d1' = k * vdot d1 d1 ->
  vdot d0' d1' = k * vdot d0 d1 ->
  let l := Amoeba.angleLocals pos1 pos2 pos3
             idealAngle quadraticK cubicK quarticK penticK sexticK in
  let l' := Amoeba.angleLocals pos1' pos2' pos3'
              idealAngle quadraticK cubicK quarticK penticK sexticK in
  Amoeba.cosine l' = Amoeba.cosine l
  /\ Amoeba.energyTerm l' = Amoeba.energyTerm l
  /\ Amoeba.dEdR l' = Amoeba.dEdR l.
Proof.
  intros d0 d1 d0' d1' Hne1 Hne3 Hk H00 H11 H01 l l'.
  apply vsub_nonzero, vdot_self_pos in Hne1, Hne3. fold d0 in Hne1. fold d1 in Hne3.
  destruct (angleLocals_fields pos1 pos2 pos3 idealAngle quadraticK cubicK quarticK
              penticK sexticK) as (Hd0 & Hd1 & H0 & H1 & _ & Hd & Hc & Hpre & _).
  destruct (angleLocals_fields pos1' pos2' pos3' idealAngle quadraticK cubicK quarticK
              penticK sexticK) as (Hd0' & Hd1' & H0' & H1' & _ & Hd' & Hc' & Hpre' & _).
  cbv zeta in *.
  fold l in Hd0, Hd1, H0, H1, Hd, Hc, Hpre.
  fold l' in Hd0', Hd1', H0', H1', Hd', Hc', Hpre'.
  assert (E0 : Amoeba.r2_0 l = vdot d0 d0).
  { rewrite H0, Hd0. unfold vdot. cbn. ring. }
  assert (E1 : Amoeba.r2_1 l = vdot d1 d1).
  { rewrite H1, Hd1. unfold vdot. cbn. ring. }
  assert (E0' : Amoeba.r2_0 l' = vdot d0' d0').
  { rewrite H0', Hd0'. unfold vdot. cbn. ring. }
  assert (E1' : Amoeba.r2_1 l' = vdot d1' d1').
  { rewrite H1', Hd1'. unfold vdot. cbn. ring. }
  assert (Hcos : Amoeba.cosine l' = Amoeba.cosine l).
  { rewrite Hc, Hc', Hd, Hd', Hd0, Hd1, Hd0', Hd1', E0, E1, E0', E1'.
    fold d0 d1 d0' d1'. rewrite H00, H11, H01.
    revert Hne1 Hne3. generalize (vdot d0 d1) (vdot d0 d0) (vdot d1 d1).
    intros d r0 r1 Hn0 Hn1.
    change (k * d / R_sqrt.sqrt (k * r0 * (k * r1)) = d / R_sqrt.sqrt (r0 * r1)).
    replace (k * r0 * (k * r1)) with (k² * (r0 * r1)) by (unfold Rsqr; ring).
    rewrite sqrt_mult_alt by apply Rle_0_sqr.
    rewrite sqrt_Rsqr by lra.
    pose proof (sqrt_lt_R0 (r0 * r1) ltac:(nra)) as Hs.
    field. split; lra. }
  rewrite Hcos in Hpre'. rewrite <- Hpre in Hpre'. injection Hpre' as HE Hen.
  repeat split; assumption.
Qed.

End AngleForceGeometry.

(** ** [acos] in binary64 *)

Lemma SFcompare_finite_antisym s1 m1 e1 s2 m2 e2 :
  SFcompare (S754_finite s2 m2 e2) (S754_finite s1 m1 e1)
  = option_map CompOpp (SFcompare (S754_finite s1 m1 e1) (S754_finite s2 m2 e2)).
Proof.
  unfold SFcompare. destruct s1, s2; cbn [option_map CompOpp]; try reflexivity.
  - rewrite (Z.compare_antisym e1 e2).
    destruct (e1 ?= e2)%Z; cbn [CompOpp]; try reflexivity.
    f_equal. f_equal. apply ZC4.
  - rewrite (Z.compare_antisym e1 e2).
    destruct (e1 ?= e2)%Z; cbn [CompOpp]; try reflexivity.
    f_equal. apply ZC4.
Qed.

Lemma SFcompare_finite_Some s1 m1 e1 s2 m2 e2 :
  exists c, SFcompare (S754_finite s1 m1 e1) (S754_finite s2 m2 e2) = Some c.
Proof. unfold SFcompare. eexists; reflexivity. Qed.

(** A binary64 value that compares neither above [m * 2^e] nor below
    [-(m * 2^e)] lies strictly between the two, or is a NaN. *)
Lemma SF_between (M : positive) (E : Z) (x : spec_float) :
  SFleb (S754_finite false M E) x = false ->
  SFleb x (S754_finite true M E) = false ->
  (SFltb (S754_finite true M E) x = true /\ SFltb x (S754_finite false M E) = true)
  \/ SFeqb x x = false.
Proof.
  unfold SFleb, SFltb, SFeqb.
  destruct x as [s|s| |s m e].
  - intros _ _. left. split; reflexivity.
  - destruct s; intros H1 H2; try discriminate H1; discriminate H2.
  - intros _ _. right. reflexivity.
  - intros H1 H2. left.
    rewrite (SFcompare_finite_antisym true M E s m e) in H2.
    rewrite (SFcompare_finite_antisym s m e false M E) in H1.
    destruct s.
    + split; [|reflexivity].
      destruct (SFcompare_finite_Some true M E true m e) as [c Hc].
      rewrite Hc in *. destruct c; cbn in H2; try discriminate H2; reflexivity.
    + split; [reflexivity|].
      destruct (SFcompare_finite_Some false m e false M E) as [c Hc].
      rewrite Hc in *. destruct c; cbn in H1; try discriminate H1; reflexivity.
Qed.

Lemma float_between_or_nan (c : float) :
  PrimFloat.leb 1%float c = false ->
  PrimFloat.leb c (-1)%float = false ->
  (PrimFloat.ltb (-1)%float c = true /\ PrimFloat.ltb c 1%float = true)
  \/ PrimFloat.is_nan c = true.
Proof.
  unfold PrimFloat.is_nan.
  rewrite !FloatAxioms.leb_spec, !FloatAxioms.ltb_spec, FloatAxioms.eqb_spec.
  replace (Prim2SF 1%float) with (S754_finite false 4503599627370496 (-52))
    by reflexivity.
  replace (Prim2SF (-1)%float) with (S754_finite true 4503599627370496 (-52))
    by reflexivity.
  intros H1 H2. destruct (SF_between _ _ _ H1 H2) as [Hb|Hn]; [left; exact Hb|].
  right. rewrite Hn. reflexivity.
Qed.

(** In binary64, [getPrefactorsGivenAngleCosine] applies [acos] only to
    an argument strictly between -1 and 1, or to a NaN: two [acos]
    functions that agree there give the same [*dEdR] and [*energyTerm]
    for every input. *)
Theorem acos_argument_in_domain (acos1 acos2 : float -> float) :
  (forall x : float,
      (PrimFloat.ltb (-1)%float x = true /\ PrimFloat.ltb x 1%float = true)
      \/ PrimFloat.is_nan x = true ->
      acos1 x = acos2 x) ->
  forall cosine idealAngle quadraticK cubicK quarticK penticK sexticK : float,
    Amoeba.getPrefactorsGivenAngleCosine (H := Double_float acos1)
      cosine idealAngle quadraticK cubicK quarticK penticK sexticK
    = Amoeba.getPrefactorsGivenAngleCosine (H := Double_float acos2)
        cosine idealAngle quadraticK cubicK quarticK penticK sexticK.
Proof.
  intros Hagree cosine ia qk ck qtk pk sk.
  unfold Amoeba.getPrefactorsGivenAngleCosine.
  change (@dge float _ cosine (dint 1)) with (PrimFloat.leb 1%float cosine).
  change (@dle float _ cosine (dint (-1))) with (PrimFloat.leb cosine (-1)%float).
  destruct (PrimFloat.leb 1%float cosine) eqn:H1; [reflexivity|].
  destruct (PrimFloat.leb cosine (-1)%float) eqn:H2; [reflexivity|].
  change (@dacos float (Double_float acos1) cosine) with (acos1 cosine).
  change (@dacos float (Double_float acos2) cosine) with (acos2 cosine).
  rewrite (Hagree cosine (float_between_or_nan cosine H1 H2)). reflexivity.
Qed.

(** ** The force array and the loop over the angles *)

Section AngleForceArrays.

Context {D : Type} `{Double D}.
Implicit Types (forces positions : list (Amoeba.Vec3 D))
               (force : Amoeba.AmoebaAngleForce D) (energy : D).

Lemma length_addForce_gen forces i (v : Amoeba.Vec3 D) :
  length (Amoeba.addForce forces i v) = length forces.
Proof.
  unfold Amoeba.addForce. destruct (forces !! i); [apply length_insert|reflexivity].
Qed.

Lemma lookup_addForce_ne forces i j (v : Amoeba.Vec3 D) :
  i <> j -> Amoeba.addForce forces i v !! j = forces !! j.
Proof.
  intros Hne. unfold Amoeba.addForce.
  destruct (forces !! i); [now apply list_lookup_insert_ne|reflexivity].
Qed.

Lemma lookup_addForce_eq forces i (v f : Amoeba.Vec3 D) :
  forces !! i = Some f ->
  Amoeba.addForce forces i v !! i = Some (Amoeba.vadd f v).
Proof.
  intros Hf. unfold Amoeba.addForce. rewrite Hf.
  apply list_lookup_insert_eq. now apply lookup_lt_Some in Hf.
Qed.

(** What one call does, read off the body. *)
Lemma computeAmoebaAngleForce_Some bondIndex positions force forces energy :
  forall forces' energy',
  Amoeba.computeAmoebaAngleForce bondIndex positions force forces energy
  = Some (forces', energy') <->
  exists a pos1 pos2 pos3,
    Amoeba.getAngleParameters force bondIndex = Some a
    /\ positions !! Amoeba.particle1 a = Some pos1
    /\ positions !! Amoeba.particle2 a = Some pos2
    /\ positions !! Amoeba.particle3 a = Some pos3
    /\ angleInRange (length forces) a
    /\ let l := Amoeba.angleLocals pos1 pos2 pos3
                  (Amoeba.idealAngle a) (Amoeba.quadraticK a)
                  (Amoeba.getAmoebaGlobalAngleCubic force)
                  (Amoeba.getAmoebaGlobalAngleQuartic force)
                  (Amoeba.getAmoebaGlobalAnglePentic force)
                  (Amoeba.getAmoebaGlobalAngleSextic force) in
       forces' = Amoeba.addForce
                   (Amoeba.addForce
                      (Amoeba.addForce forces (Amoeba.particle1 a) (Amoeba.deltaCrossP0 l))
                      (Amoeba.particle2 a) (Amoeba.deltaCrossP1 l))
                   (Amoeba.particle3 a) (Amoeba.deltaCrossP2 l)
       /\ energy' = dadd energy (Amoeba.energyTerm l).
Proof.
  intros forces' energy'. unfold Amoeba.computeAmoebaAngleForce.
  destruct (Amoeba.getAngleParameters force bondIndex) as [a|]; cbn [mbind option_bind].
  2: { split; [discriminate|]. intros (a & ? & ? & ? & Ha & _). discriminate. }
  destruct (positions !! Amoeba.particle1 a) as [pos1|] eqn:E1; cbn [mbind option_bind].
  2: { split; [discriminate|]. intros (a' & ? & ? & ? & [= <-] & Hp & _). congruence. }
  destruct (positions !! Amoeba.particle2 a) as [pos2|] eqn:E2; cbn [mbind option_bind].
  2: { split; [discriminate|]. intros (a' & ? & ? & ? & [= <-] & _ & Hp & _). congruence. }
  destruct (positions !! Amoeba.particle3 a) as [pos3|] eqn:E3; cbn [mbind option_bind].
  2: { split; [discriminate|]. intros (a' & ? & ? & ? & [= <-] & _ & _ & Hp & _). congruence. }
  case_decide as Hlen.
  - split.
    + intros [= <- <-]. exists a, pos1, pos2, pos3. repeat split; try assumption; apply Hlen.
    + intros (a' & q1 & q2 & q3 & [= <-] & Hq1 & Hq2 & Hq3 & _ & Hl).
      rewrite E1 in Hq1. rewrite E2 in Hq2. rewrite E3 in Hq3.
      injection Hq1 as <-. injection Hq2 as <-. injection Hq3 as <-.
      cbv zeta in Hl. destruct Hl as [-> ->]. reflexivity.
  - split; [discriminate|].
    intros (a' & q1 & q2 & q3 & [= <-] & _ & _ & _ & Hr & _). contradiction.
Qed.

(** Whatever the arithmetic, a call of [computeAmoebaAngleForce] keeps
    the size of [forces] and changes no entry other than those of the
    three particles of the angle. *)
Theorem computeAmoebaAngleForce_frame bondIndex positions force forces energy
    forces' energy' :
  Amoeba.computeAmoebaAngleForce bondIndex positions force forces energy
  = Some (forces', energy') ->
  exists a,
    Amoeba.getAngleParameters force bondIndex = Some a
    /\ length forces' = length forces
    /\ forall i : nat,
         i <> Amoeba.particle1 a -> i <> Amoeba.particle2 a ->
         i <> Amoeba.particle3 a ->
         forces' !! i = forces !! i.
Proof.
  intros Hc. apply computeAmoebaAngleForce_Some in Hc.
  destruct Hc as (a & pos1 & pos2 & pos3 & Ha & _ & _ & _ & _ & Hl).
  cbv zeta in Hl. destruct Hl as [-> _]. exists a. split; [exact Ha|]. split.
  - now rewrite !length_addForce_gen.
  - intros i H1 H2 H3. now rewrite !lookup_addForce_ne by congruence.
Qed.

Lemma computeAmoebaAngleForce_is_Some bondIndex positions force forces energy :
  is_Some (Amoeba.computeAmoebaAngleForce bondIndex positions force forces energy)
  <-> exists a, Amoeba.angles force !! bondIndex = Some a
                /\ angleInRange (length positions) a
                /\ angleInRange (length forces) a.
Proof.
  split.
  - intros [[forces' energy'] Hc]. apply computeAmoebaAngleForce_Some in Hc.
    destruct Hc as (a & pos1 & pos2 & pos3 & Ha & H1 & H2 & H3 & Hr & _).
    exists a. split; [exact Ha|]. split; [|exact Hr].
    apply lookup_lt_Some in H1, H2, H3. repeat split; assumption.
  - intros (a & Ha & (H1 & H2 & H3) & Hr).
    apply lookup_lt_is_Some in H1, H2, H3.
    destruct H1 as [pos1 H1], H2 as [pos2 H2], H3 as [pos3 H3].
    eexists (_, _). apply computeAmoebaAngleForce_Some.
    exists a, pos1, pos2, pos3. repeat split; try eassumption; apply Hr.
Qed.

Lemma computeAngles_is_Some n : forall k positions force forces energy,
  length forces = length positions ->
  (is_Some (Amoeba.computeAngles n k positions force forces energy)
   <-> forall j, (k <= j < k + n)%nat ->
         exists a, Amoeba.angles force !! j = Some a
                   /\ angleInRange (length positions) a).
Proof.
  induction n as [|n IH]; intros k positions force forces energy Hlen; simpl.
  - split; [intros _ j Hj; lia|intros _; eexists; reflexivity].
  - destruct (Amoeba.computeAmoebaAngleForce k positions force forces energy)
      as [[forces' energy']|] eqn:Hc; cbn [mbind option_bind].
    + pose proof Hc as Hfr. apply computeAmoebaAngleForce_frame in Hfr.
      destruct Hfr as (a & _ & Hlen' & _).
      rewrite (IH (S k) positions force forces' energy') by congruence.
      assert (Hk : is_Some (Amoeba.computeAmoebaAngleForce k positions force forces energy))
        by (rewrite Hc; eexists; reflexivity).
      apply computeAmoebaAngleForce_is_Some in Hk.
      destruct Hk as (b & Hb & Hrb & _).
      split.
      * intros Hall j Hj. destruct (decide (j = k)) as [->|Hne].
        -- exists b. split; assumption.
        -- apply Hall. lia.
      * intros Hall j Hj. apply Hall. lia.
    + split; [intros [? ?]; discriminate|].
      intros Hall. exfalso.
      destruct (Hall k ltac:(lia)) as (a & Ha & Hr).
      assert (Hk : is_Some (Amoeba.computeAmoebaAngleForce k positions force forces energy)).
      { apply computeAmoebaAngleForce_is_Some. exists a. rewrite Hlen. auto. }
      rewrite Hc in Hk. destruct Hk; discriminate.
Qed.

Lemma computeAngles_length n : forall k positions force forces energy forces' energy',
  Amoeba.computeAngles n k positions force forces energy = Some (forces', energy') ->
  length forces' = length forces.
Proof.
  induction n as [|n IH]; intros k positions force forces energy forces' energy'; simpl.
  - now intros [= <- _].
  - destruct (Amoeba.computeAmoebaAngleForce k positions force forces energy)
      as [[forces1 energy1]|] eqn:Hc; cbn [mbind option_bind]; [|discriminate].
    intros Hn. apply IH in Hn. apply computeAmoebaAngleForce_frame in Hc.
    destruct Hc as (_ & _ & Hl & _). congruence.
Qed.

(** Whatever the arithmetic, [computeAmoebaAngleForces] indexes
    [positions] and [expectedForces] within their bounds exactly when
    the three particles of every angle are below [positions.size()];
    [expectedForces] then has [positions.size()] entries. *)
Theorem computeAmoebaAngleForces_in_bounds positions force :
  (is_Some (Amoeba.computeAmoebaAngleForces positions force)
   <-> Forall (angleInRange (length positions)) (Amoeba.angles force))
  /\ (forall forces energy,
        Amoeba.computeAmoebaAngleForces positions force = Some (forces, energy) ->
        length forces = length positions).
Proof.
  unfold Amoeba.computeAmoebaAngleForces. split.
  - rewrite computeAngles_is_Some by apply length_replicate.
    rewrite Forall_lookup. unfold Amoeba.getNumAngles. split.
    + intros Hall j a Ha. pose proof (lookup_lt_Some _ _ _ Ha) as Hj.
      destruct (Hall j ltac:(lia)) as (b & Hb & Hr). congruence.
    + intros Hall j Hj.
      destruct (lookup_lt_is_Some_2 (Amoeba.angles force) j ltac:(lia)) as [a Ha].
      exists a. split; [exact Ha|]. exact (Hall j a Ha).
  - intros forces energy Hc. apply computeAngles_length in Hc.
    now rewrite length_replicate in Hc.
Qed.

End AngleForceArrays.

Section AngleForceLoopExact.
Local Open Scope R_scope.
Implicit Types (u v w t : Amoeba.Vec3 R) (forces positions : list (Amoeba.Vec3 R))
               (force : Amoeba.AmoebaAngleForce R) (energy : R).

Lemma computeAmoebaAngleForce_totalForce bondIndex positions force forces energy
    forces' energy' :
  Amoeba.computeAmoebaAngleForce bondIndex positions force forces energy
  = Some (forces', energy') ->
  Amoeba.totalForce forces' = Amoeba.totalForce forces.
Proof.
  intros Hc. apply computeAmoebaAngleForce_Some in Hc.
  destruct Hc as (a & pos1 & pos2 & pos3 & _ & _ & _ & _ & (H1 & H2 & H3) & Hl).
  cbv zeta in Hl. destruct Hl as [-> _].
  pose proof (deltaCrossP1_eq pos1 pos2 pos3 (Amoeba.idealAngle a) (Amoeba.quadraticK a)
                (Amoeba.getAmoebaGlobalAngleCubic force)
                (Amoeba.getAmoebaGlobalAngleQuartic force)
                (Amoeba.getAmoebaGlobalAnglePentic force)
                (Amoeba.getAmoebaGlobalAngleSextic force)) as E.
  cbv zeta in E. revert E.
  generalize (Amoeba.angleLocals pos1 pos2 pos3 (Amoeba.idealAngle a)
                (Amoeba.quadraticK a)
                (Amoeba.getAmoebaGlobalAngleCubic force)
                (Amoeba.getAmoebaGlobalAngleQuartic force)
                (Amoeba.getAmoebaGlobalAnglePentic force)
                (Amoeba.getAmoebaGlobalAngleSextic force)).
  intros l E.
  rewrite !totalForce_addForce by (rewrite ?length_addForce; assumption).
  rewrite E. generalize (Amoeba.deltaCrossP0 l) (Amoeba.deltaCrossP2 l).
  intros u w. generalize (Amoeba.totalForce forces). intros s.
  apply Vec3_eq; cbn; ring.
Qed.

Lemma computeAngles_totalForce n : forall k positions force forces energy forces' energy',
  Amoeba.computeAngles n k positions force forces energy = Some (forces', energy') ->
  Amoeba.totalForce forces' = Amoeba.totalForce forces.
Proof.
  induction n as [|n IH]; intros k positions force forces energy forces' energy'; simpl.
  - now intros [= <- _].
  - destruct (Amoeba.computeAmoebaAngleForce k positions force forces energy)
      as [[forces1 energy1]|] eqn:Hc; cbn [mbind option_bind]; [|discriminate].
    intros Hn. apply IH in Hn. apply computeAmoebaAngleForce_totalForce in Hc.
    congruence.
Qed.

Lemma totalForce_replicate n :
  Amoeba.totalForce (replicate n (Amoeba.vzero (D := R))) = Amoeba.vzero.
Proof.
  induction n as [|n IH]; [reflexivity|].
  change (Amoeba.vadd Amoeba.vzero (Amoeba.totalForce (replicate n Amoeba.vzero))
          = Amoeba.vzero :> Amoeba.Vec3 R).
  rewrite IH. apply Vec3_eq; cbn; ring.
Qed.

(** In exact arithmetic, when every angle indexes into [positions], the
    expected forces [computeAmoebaAngleForces] returns, one per position,
    sum to the zero vector. *)
Theorem computeAmoebaAngleForces_net_force positions force :
  Forall (angleInRange (length positions)) (Amoeba.angles force) ->
  exists forces energy,
    Amoeba.computeAmoebaAngleForces positions force = Some (forces, energy)
    /\ length forces = length positions
    /\ Amoeba.totalForce forces = Amoeba.vzero.
Proof.
  intros Hall.
  destruct (computeAmoebaAngleForces_in_bounds positions force) as [Hsome Hlen].
  apply Hsome in Hall. destruct Hall as [[forces energy] Hc].
  exists forces, energy. split; [exact Hc|]. split; [exact (Hlen _ _ Hc)|].
  unfold Amoeba.computeAmoebaAngleForces in Hc.
  apply computeAngles_totalForce in Hc. rewrite Hc. apply totalForce_replicate.
Qed.

Lemma computeAmoebaAngleForce_translate t bondIndex positions force forces energy :
  Amoeba.computeAmoebaAngleForce bondIndex ((fun p => Amoeba.vadd p t) <$> positions)
                                 force forces energy
  = Amoeba.computeAmoebaAngleForce bondIndex positions force forces energy.
Proof.
  unfold Amoeba.computeAmoebaAngleForce.
  destruct (Amoeba.getAngleParameters force bondIndex) as [a|]; [|reflexivity].
  cbn [mbind option_bind]. rewrite !list_lookup_fmap.
  destruct (positions !! Amoeba.particle1 a) as [pos1|]; [|reflexivity].
  destruct (positions !! Amoeba.particle2 a) as [pos2|]; [|reflexivity].
  destruct (positions !! Amoeba.particle3 a) as [pos3|]; [|reflexivity].
  cbn [mbind option_bind fmap option_fmap option_map].
  now rewrite angleLocals_translate.
Qed.

Lemma computeAngles_translate t n : forall k positions force forces energy,
  Amoeba.computeAngles n k ((fun p => Amoeba.vadd p t) <$> positions) force forces energy
  = Amoeba.computeAngles n k positions force forces energy.
Proof.
  induction n as [|n IH]; intros k positions force forces energy; [reflexivity|].
  simpl. rewrite computeAmoebaAngleForce_translate.
  destruct (Amoeba.computeAmoebaAngleForce k positions force forces energy)
    as [[forces1 energy1]|]; [|reflexivity].
  cbn [mbind option_bind]. apply IH.
Qed.

(** In exact arithmetic the expected forces and energy are unchanged
    when all the positions are translated by the same vector. *)
Theorem computeAmoebaAngleForces_translation t positions force :
  Amoeba.computeAmoebaAngleForces ((fun p => Amoeba.vadd p t) <$> positions) force
  = Amoeba.computeAmoebaAngleForces positions force.
Proof.
  unfold Amoeba.computeAmoebaAngleForces. rewrite length_fmap.
  apply computeAngles_translate.
Qed.

End AngleForceLoopExact.

(** ** The order of the angles *)

Section AngleOrderExact.
Local Open Scope R_scope.

Variable positions : list (Amoeba.Vec3 R).
Variables cubicK quarticK penticK sexticK : R.

Implicit Types (forces : list (Amoeba.Vec3 R)) (energy : R)
               (a b : Amoeba.AngleParameters R).

(** One iteration of the loop of [computeAmoebaAngleForces], for the angle
    [a], on the state left by the iterations before it. *)
Let iteration (st : option (list (Amoeba.Vec3 R) * R)) a
  : option (list (Amoeba.Vec3 R) * R) :=
  '(forces, energy) ← st;
  Amoeba.computeAmoebaAngleForce
    0 positions (Amoeba.MkAmoebaAngleForce [a] cubicK quarticK penticK sexticK)
    forces energy.

Let localsOf a : Amoeba.AngleLocals R :=
  Amoeba.angleLocals (default Amoeba.vzero (positions !! Amoeba.particle1 a))
                     (default Amoeba.vzero (positions !! Amoeba.particle2 a))
                     (default Amoeba.vzero (positions !! Amoeba.particle3 a))
                     (Amoeba.idealAngle a) (Amoeba.quadraticK a)
                     cubicK quarticK penticK sexticK.

Let update a forces : list (Amoeba.Vec3 R) :=
  Amoeba.addForce
    (Amoeba.addForce
       (Amoeba.addForce forces (Amoeba.particle1 a) (Amoeba.deltaCrossP0 (localsOf a)))
       (Amoeba.particle2 a) (Amoeba.deltaCrossP1 (localsOf a)))
    (Amoeba.particle3 a) (Amoeba.deltaCrossP2 (localsOf a)).

Lemma iteration_eq a forces energy :
  iteration (Some (forces, energy)) a
  = if decide (angleInRange (length positions) a /\ angleInRange (length forces) a)
    then Some (update a forces, energy + Amoeba.energyTerm (localsOf a))
    else None.
Proof.
  unfold iteration, update, localsOf. cbn [mbind option_bind].
  unfold Amoeba.computeAmoebaAngleForce, Amoeba.getAngleParameters.
  cbn [Amoeba.angles lookup list_lookup mbind option_bind].
  destruct (decide (angleInRange (length positions) a
                    /\ angleInRange (length forces) a)) as [Hr|Hr];
    unfold angleInRange in Hr.
  - destruct Hr as [(H1 & H2 & H3) Hf].
    apply lookup_lt_is_Some in H1, H2, H3.
    destruct H1 as [pos1 H1], H2 as [pos2 H2], H3 as [pos3 H3].
    rewrite H1, H2, H3. cbn [mbind option_bind default].
    rewrite decide_True by exact Hf. reflexivity.
  - destruct (positions !! Amoeba.particle1 a) as [pos1|] eqn:H1;
      cbn [mbind option_bind]; [|reflexivity].
    destruct (positions !! Amoeba.particle2 a) as [pos2|] eqn:H2;
      cbn [mbind option_bind]; [|reflexivity].
    destruct (positions !! Amoeba.particle3 a) as [pos3|] eqn:H3;
      cbn [mbind option_bind]; [|reflexivity].
    case_decide as Hf; [|reflexivity].
    exfalso. apply Hr. split; [|exact Hf].
    apply lookup_lt_Some in H1, H2, H3. repeat split; assumption.
Qed.

Lemma lookup_addForce forces i (v : Amoeba.Vec3 R) (j : nat) :
  Amoeba.addForce forces i v !! j
  = (fun f => if decide (i = j) then Amoeba.vadd f v else f) <$> forces !! j.
Proof.
  destruct (decide (i = j)) as [<-|Hne].
  - destruct (forces !! i) as [f|] eqn:Hf.
    + now rewrite (lookup_addForce_eq _ _ _ _ Hf).
    + unfold Amoeba.addForce. now rewrite Hf, Hf.
  - rewrite lookup_addForce_ne by exact Hne. now destruct (forces !! j).
Qed.

Lemma length_update a forces : length (update a forces) = length forces.
Proof. unfold update. now rewrite !length_addForce_gen. Qed.

Lemma update_comm a b forces :
  update a (update b forces) = update b (update a forces).
Proof.
  unfold update.
  generalize (Amoeba.deltaCrossP0 (localsOf a)) (Amoeba.deltaCrossP1 (localsOf a))
             (Amoeba.deltaCrossP2 (localsOf a)) (Amoeba.deltaCrossP0 (localsOf b))
             (Amoeba.deltaCrossP1 (localsOf b)) (Amoeba.deltaCrossP2 (localsOf b)).
  generalize (Amoeba.particle1 a) (Amoeba.particle2 a) (Amoeba.particle3 a)
             (Amoeba.particle1 b) (Amoeba.particle2 b) (Amoeba.particle3 b).
  intros i1 i2 i3 j1 j2 j3 u1 u2 u3 v1 v2 v3.
  apply list_eq. intros j. rewrite !lookup_addForce.
  destruct (forces !! j) as [f|]; [|reflexivity]. cbn [fmap option_fmap option_map].
  f_equal.
  destruct (decide (i1 = j)), (decide (i2 = j)), (decide (i3 = j)),
           (decide (j1 = j)), (decide (j2 = j)), (decide (j3 = j));
    apply Vec3_eq; cbn; ring.
Qed.

Lemma iteration_comm st a b :
  iteration (iteration st a) b = iteration (iteration st b) a.
Proof.
  destruct st as [[forces energy]|]; [|reflexivity].
  rewrite !iteration_eq.
  destruct (decide (angleInRange (length positions) a /\ angleInRange (length forces) a))
    as [Ha|Ha];
  destruct (decide (angleInRange (length positions) b /\ angleInRange (length forces) b))
    as [Hb|Hb]; try reflexivity; rewrite ?iteration_eq, ?length_update.
  - rewrite decide_True by exact Hb. rewrite decide_True by exact Ha.
    rewrite update_comm. do 2 f_equal. ring.
  - rewrite decide_False by exact Hb. reflexivity.
  - rewrite decide_False by exact Ha. reflexivity.
Qed.

Lemma foldl_iteration_perm (l l' : list (Amoeba.AngleParameters R)) :
  l ≡ₚ l' -> forall st, foldl iteration st l = foldl iteration st l'.
Proof.
  induction 1 as [|a l l' _ IH|a b l|l1 l2 l3 _ IH1 _ IH2]; intros st; simpl.
  - reflexivity.
  - apply IH.
  - now rewrite iteration_comm.
  - now rewrite IH1.
Qed.

Lemma foldl_iteration_None l : foldl iteration None l = None.
Proof. induction l as [|a l IH]; [reflexivity|exact IH]. Qed.

Lemma computeAngles_foldl (angles : list (Amoeba.AngleParameters R)) n :
  forall k forces energy,
    (k + n <= length angles)%nat ->
    Amoeba.computeAngles n k positions
      (Amoeba.MkAmoebaAngleForce angles cubicK quarticK penticK sexticK) forces energy
    = foldl iteration (Some (forces, energy)) (take n (drop k angles)).
Proof.
  induction n as [|n IH]; intros k forces energy Hk; [reflexivity|].
  destruct (lookup_lt_is_Some_2 angles k ltac:(lia)) as [a Ha].
  rewrite (drop_S _ _ _ Ha). cbn [take foldl Amoeba.computeAngles].
  assert (Hstep : Amoeba.computeAmoebaAngleForce k positions
                    (Amoeba.MkAmoebaAngleForce angles cubicK quarticK penticK sexticK)
                    forces energy
                  = iteration (Some (forces, energy)) a).
  { unfold iteration. cbn [mbind option_bind].
    unfold Amoeba.computeAmoebaAngleForce, Amoeba.getAngleParameters.
    cbn [Amoeba.angles]. rewrite Ha. reflexivity. }
  rewrite Hstep.
  destruct (iteration (Some (forces, energy)) a) as [[forces1 energy1]|];
    cbn [mbind option_bind].
  - apply IH. lia.
  - now rewrite foldl_iteration_None.
Qed.

(** In exact arithmetic the expected forces and energy do not depend on
    the order in which the force lists its angles. *)
Theorem computeAmoebaAngleForces_order (angles angles' : list (Amoeba.AngleParameters R)) :
  angles ≡ₚ angles' ->
  Amoeba.computeAmoebaAngleForces positions
    (Amoeba.MkAmoebaAngleForce angles cubicK quarticK penticK sexticK)
  = Amoeba.computeAmoebaAngleForces positions
      (Amoeba.MkAmoebaAngleForce angles' cubicK quarticK penticK sexticK).
Proof.
  intros Hperm. unfold Amoeba.computeAmoebaAngleForces, Amoeba.getNumAngles.
  cbn [Amoeba.angles].
  rewrite !computeAngles_foldl by (simpl; lia).
  rewrite !drop_0, !firstn_all.
  apply foldl_iteration_perm, Hperm.
Qed.

End AngleOrderExact.

(** ** The properties on the configuration of [testOneAngle] *)

Section TestOneAngle.

Local Open Scope R_scope.

Lemma Vec3_neq_c1 (u v : Amoeba.Vec3 R) : Amoeba.c1 u <> Amoeba.c1 v -> u <> v.
Proof. intros Hne ->. now apply Hne. Qed.

Lemma Vec3_neq_c2 (u v : Amoeba.Vec3 R) : Amoeba.c2 u <> Amoeba.c2 v -> u <> v.
Proof. intros Hne ->. now apply Hne. Qed.

Lemma Vec3_neq_c0 (u v : Amoeba.Vec3 R) : Amoeba.c0 u <> Amoeba.c0 v -> u <> v.
Proof. intros Hne ->. now apply Hne. Qed.

Lemma cosine_bounded_witness :
  -1 <= Amoeba.cosine (Amoeba.angleLocals (Amoeba.MkVec3 0 1 0) (Amoeba.MkVec3 0 0 0)
                         (Amoeba.MkVec3 0 0 1) 100 1 (1 / 10) (1 / 100) (1 / 1000)
                         (1 / 10000)) <= 1.
Proof.
  apply (cosine_bounded (Amoeba.MkVec3 0 1 0) (Amoeba.MkVec3 0 0 0) (Amoeba.MkVec3 0 0 1)).
  - apply Vec3_neq_c1. cbn. lra.
  - apply Vec3_neq_c2. cbn. lra.
Defined.

Lemma angle_force_torque_free_witness :
  let l := Amoeba.angleLocals (Amoeba.MkVec3 0 1 0) (Amoeba.MkVec3 0 0 0)
             (Amoeba.MkVec3 0 0 1) 100 1 (1 / 10) (1 / 100) (1 / 1000) (1 / 10000) in
  torque (Amoeba.MkVec3 0 1 0) (Amoeba.MkVec3 0 0 0) (Amoeba.MkVec3 0 0 1)
         (Amoeba.deltaCrossP0 l) (Amoeba.deltaCrossP1 l) (Amoeba.deltaCrossP2 l)
  = Amoeba.vzero.
Proof.
  apply (angle_force_torque_free (Amoeba.MkVec3 0 1 0) (Amoeba.MkVec3 0 0 0)
           (Amoeba.MkVec3 0 0 1)).
  - apply Vec3_neq_c1. cbn. lra.
  - apply Vec3_neq_c2. cbn. lra.
Defined.

Lemma angle_force_directions_witness :
  let l := Amoeba.angleLocals (Amoeba.MkVec3 0 1 0) (Amoeba.MkVec3 0 0 0)
             (Amoeba.MkVec3 0 0 1) 100 1 (1 / 10) (1 / 100) (1 / 1000) (1 / 10000) in
  vdot (Amoeba.deltaCrossP0 l)
       (Amoeba.vsub (Amoeba.MkVec3 0 1 0) (Amoeba.MkVec3 0 0 0)) = 0
  /\ vdot (Amoeba.deltaCrossP2 l)
          (Amoeba.vsub (Amoeba.MkVec3 0 0 1) (Amoeba.MkVec3 0 0 0)) = 0
  /\ vdot (Amoeba.deltaCrossP0 l) (Amoeba.pVector l) = 0
  /\ vdot (Amoeba.deltaCrossP1 l) (Amoeba.pVector l) = 0
  /\ vdot (Amoeba.deltaCrossP2 l) (Amoeba.pVector l) = 0.
Proof.
  apply (angle_force_directions (Amoeba.MkVec3 0 1 0) (Amoeba.MkVec3 0 0 0)
           (Amoeba.MkVec3 0 0 1)).
  - apply Vec3_neq_c1. cbn. lra.
  - apply Vec3_neq_c2. cbn. lra.
Defined.

Lemma dEdR_is_energy_slope_witness :
  -1 < 0 < 1
  /\ derivable_pt_lim
       (fun x => snd (Amoeba.getPrefactorsGivenAngleCosine
                        x 100 1 (1 / 10) (1 / 100) (1 / 1000) (1 / 10000)))
       0
       (- fst (Amoeba.getPrefactorsGivenAngleCosine
                 0 100 1 (1 / 10) (1 / 100) (1 / 1000) (1 / 10000))
        / R_sqrt.sqrt (1 - 0 * 0)).
Proof.
  split; [lra|]. apply dEdR_is_energy_slope. lra.
Defined.

(** The cross product of the two unit arms of [testOneAngle] has norm 1. *)
Lemma testOneAngle_unclamped ia qk ck qtk pk sk :
  let l := Amoeba.angleLocals (Amoeba.MkVec3 0 1 0) (Amoeba.MkVec3 0 0 0)
             (Amoeba.MkVec3 0 0 1) ia qk ck qtk pk sk in
  1 / 1000000 <= R_sqrt.sqrt (vdot (Amoeba.pVector l) (Amoeba.pVector l)).
Proof.
  intros l.
  destruct (angleLocals_fields (Amoeba.MkVec3 0 1 0) (Amoeba.MkVec3 0 0 0)
              (Amoeba.MkVec3 0 0 1) ia qk ck qtk pk sk)
    as (Hd0 & Hd1 & _ & _ & Hp & _).
  cbv zeta in Hd0, Hd1, Hp. fold l in Hd0, Hd1, Hp. rewrite Hp, Hd0, Hd1.
  unfold vdot. cbn.
  match goal with |- _ <= R_sqrt.sqrt ?x => replace x with 1 by ring end.
  rewrite sqrt_1. lra.
Qed.

Lemma angle_force_is_gradient_witness :
  let l := Amoeba.angleLocals (Amoeba.MkVec3 0 1 0) (Amoeba.MkVec3 0 0 0)
             (Amoeba.MkVec3 0 0 1) 100 1 (1 / 10) (1 / 100) (1 / 1000) (1 / 10000) in
  derivable_pt_lim
    (fun h =>
       Amoeba.energyTerm
         (Amoeba.angleLocals
            (Amoeba.vadd (Amoeba.MkVec3 0 1 0) (Amoeba.vscale (Amoeba.MkVec3 0 0 1) h))
            (Amoeba.vadd (Amoeba.MkVec3 0 0 0) (Amoeba.vscale (Amoeba.MkVec3 0 0 0) h))
            (Amoeba.vadd (Amoeba.MkVec3 0 0 1) (Amoeba.vscale (Amoeba.MkVec3 0 0 0) h))
            100 1 (1 / 10) (1 / 100) (1 / 1000) (1 / 10000)))
    0
    (- (vdot (Amoeba.deltaCrossP0 l) (Amoeba.MkVec3 0 0 1)
        + vdot (Amoeba.deltaCrossP1 l) (Amoeba.MkVec3 0 0 0)
        + vdot (Amoeba.deltaCrossP2 l) (Amoeba.MkVec3 0 0 0))).
Proof.
  apply (angle_force_is_gradient (Amoeba.MkVec3 0 1 0) (Amoeba.MkVec3 0 0 0)
           (Amoeba.MkVec3 0 0 1) (Amoeba.MkVec3 0 0 1) (Amoeba.MkVec3 0 0 0)
           (Amoeba.MkVec3 0 0 0)).
  apply testOneAngle_unclamped.
Defined.

Lemma angle_energy_depends_on_shape_witness :
  let l := Amoeba.angleLocals (Amoeba.MkVec3 0 1 0) (Amoeba.MkVec3 0 0 0)
             (Amoeba.MkVec3 0 0 1) 100 1 (1 / 10) (1 / 100) (1 / 1000) (1 / 10000) in
  let l' := Amoeba.angleLocals (Amoeba.MkVec3 5 0 2) (Amoeba.MkVec3 5 0 0)
              (Amoeba.MkVec3 7 0 0) 100 1 (1 / 10) (1 / 100) (1 / 1000) (1 / 10000) in
  Amoeba.cosine l' = Amoeba.cosine l
  /\ Amoeba.energyTerm l' = Amoeba.energyTerm l
  /\ Amoeba.dEdR l' = Amoeba.dEdR l.
Proof.
  apply (angle_energy_depends_on_shape
           (Amoeba.MkVec3 0 1 0) (Amoeba.MkVec3 0 0 0) (Amoeba.MkVec3 0 0 1)
           (Amoeba.MkVec3 5 0 2) (Amoeba.MkVec3 5 0 0) (Amoeba.MkVec3 7 0 0) 4).
  - apply Vec3_neq_c1. cbn. lra.
  - apply Vec3_neq_c2. cbn. lra.
  - lra.
  - unfold vdot. cbn. ring.
  - unfold vdot. cbn. ring.
  - unfold vdot. cbn. ring.
Defined.

Lemma angle_force_collinear_witness :
  let l := Amoeba.angleLocals (Amoeba.MkVec3 1 0 0) (Amoeba.MkVec3 0 0 0)
             (Amoeba.MkVec3 (-2) 0 0) 100 1 (1 / 10) (1 / 100) (1 / 1000) (1 / 10000) in
  Amoeba.rp l = 1 / 1000000
  /\ Amoeba.cosine l = (if Rltb 0 (-2) then 1 else -1)
  /\ Amoeba.deltaCrossP0 l = Amoeba.vzero
  /\ Amoeba.deltaCrossP1 l = Amoeba.vzero
  /\ Amoeba.deltaCrossP2 l = Amoeba.vzero.
Proof.
  apply (angle_force_collinear (Amoeba.MkVec3 1 0 0) (Amoeba.MkVec3 0 0 0)
           (Amoeba.MkVec3 (-2) 0 0) (-2)).
  - apply Vec3_neq_c0. cbn. lra.
  - lra.
  - apply Vec3_eq; cbn; ring.
Defined.

Lemma angle_force_equilibrium_witness :
  let ideal := dRADIAN * acos (Amoeba.cosine
                 (Amoeba.angleLocals (Amoeba.MkVec3 0 1 0) (Amoeba.MkVec3 0 0 0)
                    (Amoeba.MkVec3 0 0 1) 0 1 (1 / 10) (1 / 100) (1 / 1000) (1 / 10000))) in
  let l := Amoeba.angleLocals (Amoeba.MkVec3 0 1 0) (Amoeba.MkVec3 0 0 0)
             (Amoeba.MkVec3 0 0 1) ideal 1 (1 / 10) (1 / 100) (1 / 1000) (1 / 10000) in
  Amoeba.energyTerm l = 0
  /\ Amoeba.deltaCrossP0 l = Amoeba.vzero
  /\ Amoeba.deltaCrossP1 l = Amoeba.vzero
  /\ Amoeba.deltaCrossP2 l = Amoeba.vzero.
Proof.
  intros ideal.
  apply (angle_force_equilibrium (Amoeba.MkVec3 0 1 0) (Amoeba.MkVec3 0 0 0)
           (Amoeba.MkVec3 0 0 1) ideal).
  - apply Vec3_neq_c1. cbn. lra.
  - apply Vec3_neq_c2. cbn. lra.
  - right. right. split; [|reflexivity].
    destruct (unclamped_locals (Amoeba.MkVec3 0 1 0) (Amoeba.MkVec3 0 0 0)
                (Amoeba.MkVec3 0 0 1) ideal 1 (1 / 10) (1 / 100) (1 / 1000) (1 / 10000)
                (testOneAngle_unclamped _ _ _ _ _ _)) as (_ & _ & _ & Hc & _).
    exact Hc.
Defined.

End TestOneAngle.

(** Two stand-ins for [acos] that agree where the code calls it and differ
    elsewhere. *)
Lemma acos_argument_in_domain_witness :
  let acos1 := fun x : float => x in
  let acos2 := fun x : float =>
    if (PrimFloat.ltb (-1)%float x && PrimFloat.ltb x 1%float) || PrimFloat.is_nan x
    then x else 0%float in
  acos1 2%float <> acos2 2%float
  /\ Amoeba.getPrefactorsGivenAngleCosine (H := Double_float acos1)
       2%float 100%float 1%float 0.5%float 0.25%float 0.125%float 0.0625%float
     = Amoeba.getPrefactorsGivenAngleCosine (H := Double_float acos2)
         2%float 100%float 1%float 0.5%float 0.25%float 0.125%float 0.0625%float.
Proof.
  intros acos1 acos2. split.
  - unfold acos1, acos2. vm_compute. discriminate.
  - apply (acos_argument_in_domain acos1 acos2).
    intros x [[H1 H2]|Hn]; unfold acos1, acos2.
    + now rewrite H1, H2.
    + rewrite Hn. now rewrite orb_true_r.
Defined.

Lemma computeAmoebaAngleForce_frame_witness :
  exists forces' energy',
    Amoeba.computeAmoebaAngleForce
      0 testOneAnglePositions testOneAngleForce
      (replicate 4 Amoeba.vzero) 0%R = Some (forces', energy')
    /\ length forces' = 4%nat
    /\ forces' !! 3%nat = Some Amoeba.vzero.
Proof.
  destruct (proj2 (computeAmoebaAngleForce_is_Some 0 testOneAnglePositions
                     testOneAngleForce (replicate 4 Amoeba.vzero) 0%R))
    as [[forces' energy'] Hc].
  { eexists. split; [reflexivity|]. split; repeat split; cbn; lia. }
  exists forces', energy'. split; [exact Hc|].
  destruct (computeAmoebaAngleForce_frame _ _ _ _ _ _ _ Hc) as (a & Ha & Hlen & Hfr).
  injection Ha as <-. split; [exact Hlen|].
  rewrite (Hfr 3%nat); [reflexivity|cbn; lia..].
Defined.

Lemma computeAmoebaAngleForces_net_force_witness :
  Forall (angleInRange (length testOneAnglePositions)) (Amoeba.angles testOneAngleForce)
  /\ exists forces energy,
       Amoeba.computeAmoebaAngleForces testOneAnglePositions testOneAngleForce
       = Some (forces, energy)
       /\ length forces = 3%nat
       /\ Amoeba.totalForce forces = Amoeba.vzero.
Proof.
  assert (Hr : Forall (angleInRange (length testOneAnglePositions))
                      (Amoeba.angles testOneAngleForce)).
  { repeat constructor; cbn; lia. }
  split; [exact Hr|].
  exact (computeAmoebaAngleForces_net_force testOneAnglePositions testOneAngleForce Hr).
Defined.

Lemma computeAmoebaAngleForces_order_witness :
  let a := Amoeba.MkAngleParameters 0 1 2 100%R 1%R in
  let b := Amoeba.MkAngleParameters 2 0 1 60%R 2%R in
  Amoeba.computeAmoebaAngleForces testOneAnglePositions
    (Amoeba.MkAmoebaAngleForce [a; b] (1 / 10) (1 / 100) (1 / 1000) (1 / 10000))%R
  = Amoeba.computeAmoebaAngleForces testOneAnglePositions
      (Amoeba.MkAmoebaAngleForce [b; a] (1 / 10) (1 / 100) (1 / 1000) (1 / 10000))%R.
Proof.
  intros a b. apply computeAmoebaAngleForces_order. apply perm_swap.
Defined.

(** ** The accessors of [CudaNonbondedUtilities] *)

Section EngineAccessors.

Context {D : Type} `{Scalar D} {CUdeviceptr : Type}.
Implicit Types this : CudaNonbondedUtilities D CUdeviceptr.

(** C6.  [getNumEnergyBuffers()] is the [int] product of what
    [getNumForceThreadBlocks()] and [getForceThreadBlockSize()] report,
    that is [numForceThreadBlocks * forceThreadBlockSize]; it is the exact
    product whenever that fits an [int]. *)
Theorem getNumEnergyBuffers_product this :
  getNumEnergyBuffers this
  = Int.mul (getNumForceThreadBlocks this) (getForceThreadBlockSize this)
  /\ getNumEnergyBuffers this
     = Int.mul (numForceThreadBlocks this) (forceThreadBlockSize this)
  /\ (Int.in_range (numForceThreadBlocks this * forceThreadBlockSize this) ->
      getNumEnergyBuffers this
      = (getNumForceThreadBlocks this * getForceThreadBlockSize this)%Z).
Proof.
  repeat split. intros Hr. unfold getNumEnergyBuffers, Int.mul.
  now rewrite wrap_id.
Qed.

Lemma getHasInteractions_addInteraction (noCutoffDistance : D)
    usesCutoff usesPeriodic usesExclusions (cutoffDistance : D)
    exclusionList kernel forceGroup this this' :
  addInteraction noCutoffDistance usesCutoff usesPeriodic usesExclusions
                 cutoffDistance exclusionList kernel forceGroup this
  = Some this' ->
  getHasInteractions this'
  = dne (if usesCutoff then cutoffDistance else noCutoffDistance) (dint (-1)).
Proof.
  unfold addInteraction. intros Hadd.
  destruct (if usesExclusions then _ else _) as [this1|]; [|discriminate].
  cbn in Hadd. injection Hadd as <-. reflexivity.
Qed.

Lemma registerAll_snoc (noCutoffDistance : D) terms (t : InteractionTerm D) this :
  registerAll noCutoffDistance (terms ++ [t]) this
  = (this' ← registerAll noCutoffDistance terms this;
     addInteraction noCutoffDistance (term_usesCutoff t) (term_usesPeriodic t)
                    (term_usesExclusions t) (term_cutoffDistance t)
                    (term_exclusionList t) (term_kernel t) (term_forceGroup t)
                    this').
Proof. unfold registerAll. now rewrite foldl_app. Qed.

(** The sentinel at work, whatever the arithmetic: if [-1.0] compares
    equal to itself, and every registration leaves in [cutoff] a value
    that does not, then [getHasInteractions()] tells whether anything was
    registered. *)
Lemma getHasInteractions_history (noCutoffDistance : D)
    (context : CudaContext D) (terms : list (InteractionTerm D)) this :
  dne (dint (-1)) (dint (-1)) = false ->
  dne noCutoffDistance (dint (-1)) = true ->
  Forall (fun t => term_usesCutoff t = true ->
                   dne (term_cutoffDistance t) (dint (-1)) = true) terms ->
  registerAll noCutoffDistance terms
              (newCudaNonbondedUtilities (CUdeviceptr := CUdeviceptr) context)
  = Some this ->
  (getHasInteractions this = true <-> terms <> []).
Proof.
  intros Hfresh Hnc Hvalid.
  destruct terms as [|t0 terms0] using rev_ind.
  - intros [= <-]. split; [|congruence].
    unfold getHasInteractions, newCudaNonbondedUtilities. cbn [cutoff].
    rewrite Hfresh. discriminate.
  - rewrite registerAll_snoc.
    destruct (registerAll noCutoffDistance terms0 _) as [this0|];
      cbn [mbind option_bind]; [|discriminate].
    intros Hadd. apply getHasInteractions_addInteraction in Hadd.
    split; [intros _; now destruct terms0|]. intros _. rewrite Hadd.
    apply Forall_app in Hvalid as [_ Hlast].
    apply Forall_cons in Hlast as [Hlast _].
    destruct (term_usesCutoff t0); [now apply Hlast|exact Hnc].
Qed.

End EngineAccessors.

Example getNumEnergyBuffers_example : getNumEnergyBuffers launchedEngine = 7680%Z.
Proof. reflexivity. Qed.

(** A fresh engine has no interactions, in binary64 and in exact
    arithmetic alike. *)
Lemma getHasInteractions_new :
  (forall context : CudaContext float,
      getHasInteractions (newCudaNonbondedUtilities (CUdeviceptr := N) context)
      = false)
  /\ (forall context : CudaContext Q,
         getHasInteractions (newCudaNonbondedUtilities (CUdeviceptr := N) context)
         = false).
Proof. split; intros; reflexivity. Qed.

(** A binary64 value that compares at or above zero (so, no NaN) does not
    compare equal to [-1.0]. *)
Lemma float_nonneg_not_sentinel (c : float) :
  PrimFloat.leb 0%float c = true -> PrimFloat.eqb c (-1)%float = false.
Proof.
  rewrite FloatAxioms.leb_spec, FloatAxioms.eqb_spec.
  replace (Prim2SF 0%float) with (S754_zero false) by reflexivity.
  replace (Prim2SF (-1)%float) with (S754_finite true 4503599627370496 (-52))
    by reflexivity.
  generalize 4503599627370496%positive (-52)%Z. intros M E.
  unfold SFleb, SFeqb.
  destruct (Prim2SF c) as [s|s| |s m e].
  - reflexivity.
  - destruct s; intros Hc; [discriminate Hc|reflexivity].
  - intros Hc; discriminate Hc.
  - destruct s; intros Hc; [discriminate Hc|reflexivity].
Qed.

Lemma Q_nonneg_not_sentinel (c : Q) :
  (0 <= c)%Q -> Qeq_bool c (inject_Z (-1)) = false.
Proof.
  intros Hc. destruct (Qeq_bool c (inject_Z (-1))) eqn:Heq; [|reflexivity].
  apply Qeq_bool_iff in Heq. rewrite Heq in Hc. now apply Qle_bool_iff in Hc.
Qed.

(** With 0 for the value that [cutoff] holds after a term without cutoff,
    such a term is registered with whatever [cutoffDistance], [-1.0]
    included: the argument is ignored. *)
Example getHasInteractions_unused_distance :
  match addInteraction (CUdeviceptr := N) 0%float false false false
          (-1)%float [] "E = k/r" 0
          (newCudaNonbondedUtilities (MkCudaContext [] (MkPoint 0 0 0)%float 32))
  with
  | Some this => getCutoffDistance this = 0%float
                 /\ getHasInteractions this = true
  | None => False
  end.
Proof. split; reflexivity. Qed.

Section RegisteredInteractions.

Context {CUdeviceptr : Type}.


End RegisteredInteractions.


(** ** The exclusion encoding *)

Section ExclusionEncoding.

Variable blockSize : nat.
Hypothesis blockSize_pos : 0 < blockSize.

Lemma elem_of_exclusionPairs (exclusionList : list (list nat)) i j :
  (i, j) ∈ exclusionPairs exclusionList
  ↔ ∃ js, exclusionList !! i = Some js ∧ j ∈ js.
Proof.
  unfold exclusionPairs. rewrite list_elem_of_join. split.
  - intros (l & Hij & Hl). apply elem_of_lookup_imap in Hl as (k & js & -> & Hk).
    apply list_elem_of_fmap in Hij as (j' & [= -> ->] & Hj). eauto.
  - intros (js & Hi & Hj). exists (pair i <$> js). split.
    + apply list_elem_of_fmap. eauto.
    + apply elem_of_lookup_imap. eauto.
Qed.

Lemma excluded_spec exclusionList i j :
  excluded exclusionList i j = true
  ↔ (i, j) ∈ exclusionPairs exclusionList ∨ (j, i) ∈ exclusionPairs exclusionList.
Proof.
  unfold excluded. rewrite orb_true_iff, !bool_decide_eq_true, !elem_of_exclusionPairs.
  split; intros [Hx|Hx]; [left|right|left|right].
  - destruct (exclusionList !! i) as [js|] eqn:E; simpl in Hx; [eauto|].
    by apply elem_of_nil in Hx.
  - destruct (exclusionList !! j) as [js|] eqn:E; simpl in Hx; [eauto|].
    by apply elem_of_nil in Hx.
  - destruct Hx as (js & -> & Hj). done.
  - destruct Hx as (js & -> & Hj). done.
Qed.

Lemma excluded_sym exclusionList i j :
  excluded exclusionList i j = excluded exclusionList j i.
Proof. unfold excluded. apply orb_comm. Qed.

Lemma ownerTile_sym i j : ownerTile blockSize i j = ownerTile blockSize j i.
Proof. unfold ownerTile. by rewrite Nat.max_comm, Nat.min_comm. Qed.

Lemma pairBit_sym i j : pairBit blockSize i j = pairBit blockSize j i.
Proof. unfold pairBit. by rewrite Nat.max_comm, Nat.min_comm. Qed.

Lemma bitIndex_inj r c r' c' :
  c < blockSize → c' < blockSize →
  bitIndex blockSize r c = bitIndex blockSize r' c' → r = r' ∧ c = c'.
Proof.
  unfold bitIndex. intros Hc Hc' Heq. apply Nat2N.inj in Heq.
  assert (r = r') as ->; [nia|]. split; [done|lia].
Qed.

(** The atom pair behind bit [(r, c)] of tile [(x, y)]. *)
Lemma pair_of_tile_bit i j x y r c :
  r < blockSize → c < blockSize →
  ownerTile blockSize i j = (x, y) →
  pairBit blockSize i j = bitIndex blockSize r c →
  i `max` j = x * blockSize + r ∧ i `min` j = y * blockSize + c.
Proof.
  unfold ownerTile, pairBit, blockOf. intros Hr Hc [= <- <-] Hbit.
  apply bitIndex_inj in Hbit as [<- <-]; [|apply Nat.mod_upper_bound; lia|done].
  split.
  - rewrite Nat.mul_comm. apply Nat.div_mod_eq.
  - rewrite Nat.mul_comm. apply Nat.div_mod_eq.
Qed.

Lemma tile_bit_of_pair x y r c :
  r < blockSize → c < blockSize → y * blockSize + c ≤ x * blockSize + r →
  ownerTile blockSize (x * blockSize + r) (y * blockSize + c) = (x, y)
  ∧ pairBit blockSize (x * blockSize + r) (y * blockSize + c)
    = bitIndex blockSize r c.
Proof.
  intros Hr Hc Hle. unfold ownerTile, pairBit, blockOf.
  rewrite Nat.max_l, Nat.min_r by lia.
  rewrite !Nat.div_add_l, !Nat.div_small, !Nat.add_0_r by lia.
  rewrite !(Nat.add_comm (_ * _)), !Nat.Div0.mod_add, !Nat.mod_small by lia.
  done.
Qed.

(** What folding [placePair] over a list of pairs does to one tile. *)
Lemma foldl_placePair_is_Some (pairs : list (nat * nat)) (masks : gmap Tile N) t :
  is_Some (foldl (placePair blockSize) masks pairs !! t)
  ↔ is_Some (masks !! t) ∨ ∃ p, p ∈ pairs ∧ ownerTile blockSize p.1 p.2 = t.
Proof.
  revert masks. induction pairs as [|p pairs IH]; intros masks; simpl.
  - split; [auto|]. intros [?|(p & Hp & _)]; [done|]. by apply elem_of_nil in Hp.
  - rewrite IH. unfold placePair at 1.
    destruct (decide (ownerTile blockSize p.1 p.2 = t)) as [<-|Hne].
    + rewrite lookup_insert_eq. split; [|eauto].
      intros _. right. exists p. split; [left|done].
    + rewrite lookup_insert_ne by done. split.
      * intros [?|(q & Hq & Ht)]; [by left|]. right. exists q. split; [by right|done].
      * intros [?|(q & Hq & Ht)]; [by left|].
        apply elem_of_cons in Hq as [->|Hq]; [done|]. right. eauto.
Qed.

Lemma foldl_placePair_testbit (pairs : list (nat * nat)) (masks : gmap Tile N) t b :
  N.testbit (default 0%N (foldl (placePair blockSize) masks pairs !! t)) b = true
  ↔ N.testbit (default 0%N (masks !! t)) b = true
    ∨ ∃ p, p ∈ pairs ∧ ownerTile blockSize p.1 p.2 = t
           ∧ pairBit blockSize p.1 p.2 = b.
Proof.
  revert masks. induction pairs as [|p pairs IH]; intros masks; simpl.
  - split; [auto|]. intros [?|(p & Hp & _)]; [done|]. by apply elem_of_nil in Hp.
  - rewrite IH. unfold placePair at 1.
    destruct (decide (ownerTile blockSize p.1 p.2 = t)) as [<-|Hne].
    + rewrite lookup_insert_eq. simpl. rewrite N.setbit_eqb.
      destruct (N.eqb_spec (pairBit blockSize p.1 p.2) b) as [<-|Hb]; simpl.
      * split; [|auto]. intros _. right. exists p. split; [left|done].
      * split.
        -- intros [?|(q & Hq & Ht & Hbit)]; [by left|].
           right. exists q. split; [by right|done].
        -- intros [?|(q & Hq & Ht & Hbit)]; [by left|].
           apply elem_of_cons in Hq as [->|Hq]; [done|]. right. eauto.
    + rewrite lookup_insert_ne by done. split.
      * intros [?|(q & Hq & Ht & Hbit)]; [by left|].
        right. exists q. split; [by right|done].
      * intros [?|(q & Hq & Ht & Hbit)]; [by left|].
        apply elem_of_cons in Hq as [->|Hq]; [done|]. right. eauto.
Qed.

(** A tile has a mask exactly when an excluded pair belongs to it. *)
Lemma tileMasks_is_Some exclusionList t :
  is_Some (tileMasks blockSize exclusionList !! t)
  ↔ ∃ i j, excluded exclusionList i j = true ∧ ownerTile blockSize i j = t.
Proof.
  unfold tileMasks. rewrite foldl_placePair_is_Some, lookup_empty. split.
  - intros [[? [=]]|([i j] & Hp & Ht)]. exists i, j. split; [|done].
    apply excluded_spec. by left.
  - intros (i & j & Hex & Ht). right. apply excluded_spec in Hex as [Hp|Hp].
    + by exists (i, j).
    + exists (j, i). split; [done|]. by rewrite ownerTile_sym.
Qed.

(** Bit [(r, c)] of the mask of tile [(x, y)] is the exclusion of atom
    [x*blockSize + r] with atom [y*blockSize + c]; on a diagonal tile the
    pair is stored once, at [c <= r]. *)
Lemma tileMasks_testbit exclusionList x y r c :
  r < blockSize → c < blockSize →
  N.testbit (default 0%N (tileMasks blockSize exclusionList !! (x, y)))
            (bitIndex blockSize r c)
  = (y * blockSize + c <=? x * blockSize + r)
    && excluded exclusionList (x * blockSize + r) (y * blockSize + c).
Proof.
  intros Hr Hc. apply eq_true_iff_eq.
  unfold tileMasks. rewrite foldl_placePair_testbit, lookup_empty. simpl.
  rewrite ?N.bits_0, andb_true_iff, Nat.leb_le, excluded_spec. split.
  - intros [?|([i j] & Hp & Ht & Hbit)]; [done|]. simpl in *.
    destruct (pair_of_tile_bit i j x y r c Hr Hc Ht Hbit) as [Hmax Hmin].
    split; [lia|].
    destruct (Nat.max_spec i j) as [[? Hm]|[? Hm]],
             (Nat.min_spec i j) as [[? Hn]|[? Hn]]; try lia.
    + right. by rewrite <- Hmax, <- Hmin, Hm, Hn.
    + left. by rewrite <- Hmax, <- Hmin, Hm, Hn.
  - intros [Hle Hex]. right.
    destruct (tile_bit_of_pair x y r c Hr Hc Hle) as [Ht Hbit].
    destruct Hex as [Hp|Hp].
    + by exists (x * blockSize + r, y * blockSize + c).
    + exists (y * blockSize + c, x * blockSize + r). simpl.
      by rewrite ownerTile_sym, pairBit_sym.
Qed.

End ExclusionEncoding.

(** ** The layout of the exclusion arrays *)

Lemma prefixSums_lookup (lengths : list nat) acc y :
  y ≤ length lengths →
  prefixSums acc lengths !! y = Some (acc + sum_list (take y lengths)).
Proof.
  revert acc y. induction lengths as [|n lengths IH]; intros acc y Hy.
  - simpl in Hy. assert (y = 0) as -> by lia. simpl. f_equal. lia.
  - destruct y as [|y]; simpl.
    + f_equal. lia.
    + rewrite IH by (simpl in Hy; lia). f_equal. lia.
Qed.

Lemma length_join_imap {A B} (g : nat → list A → list B) (ls : list (list A)) :
  (∀ i l, length (g i l) = length l) →
  length (mjoin (imap g ls)) = length (mjoin ls).
Proof.
  revert g. induction ls as [|l ls IH]; intros g Hg; [done|].
  rewrite imap_cons. simpl. rewrite !length_app, Hg. f_equal.
  apply IH. intros i l'. apply Hg.
Qed.

(** Entry [k] of row [y], in the concatenation of the rows. *)
Lemma lookup_join_row {A} (ls : list (list A)) y l k :
  ls !! y = Some l → k < length l →
  mjoin ls !! (length (mjoin (take y ls)) + k) = l !! k.
Proof.
  intros Hy Hk. pose proof (take_drop_middle ls y l Hy) as Hls.
  set (pre := take y ls) in *. set (post := drop (S y) ls) in *.
  clearbody pre post. subst ls.
  rewrite join_app. rewrite lookup_app_r by lia.
  replace (_ + k - _) with k by lia. simpl. by rewrite lookup_app_l.
Qed.

Lemma lookup_join_imap_row {A B} (g : nat → list A → list B) (ls : list (list A))
    y l k :
  (∀ i l, length (g i l) = length l) →
  ls !! y = Some l → k < length l →
  mjoin (imap g ls) !! (length (mjoin (take y ls)) + k) = g y l !! k.
Proof.
  intros Hg Hy Hk. pose proof (take_drop_middle ls y l Hy) as Hls.
  assert (length (take y ls) = y) as Hpre
    by (apply length_take_le; apply lookup_lt_Some in Hy; lia).
  set (pre := take y ls) in *. set (post := drop (S y) ls) in *.
  clearbody pre post. subst ls.
  rewrite imap_app, join_app, imap_cons. simpl.
  rewrite Hpre, Nat.add_0_r.
  assert (length (mjoin (imap g pre)) = length (mjoin pre)) as Hlen
    by (by apply length_join_imap).
  rewrite lookup_app_r by lia. rewrite Hlen.
  replace (_ + k - _) with k by lia. rewrite lookup_app_l; [done|].
  rewrite Hg. done.
Qed.

Lemma scanRow_found x (indices : list nat) n i k :
  k < n →
  indices !! (i + k) = Some x →
  (∀ k', k' < k → ∃ v, indices !! (i + k') = Some v ∧ v ≠ x) →
  scanRow x indices i n = Return (Z.of_nat (i + k)).
Proof.
  revert i k. induction n as [|n IH]; intros i k Hk Hx Hbefore; [lia|].
  simpl. destruct k as [|k].
  - rewrite Nat.add_0_r in *. rewrite Hx, Nat.eqb_refl. done.
  - destruct (Hbefore 0 ltac:(lia)) as (v & Hv & Hne).
    rewrite Nat.add_0_r in Hv. rewrite Hv.
    destruct (Nat.eqb_spec v x) as [?|_]; [done|].
    replace (i + S k) with (S i + k) in * by lia.
    apply IH; [lia|done|]. intros k' Hk'.
    destruct (Hbefore (S k') ltac:(lia)) as (w & Hw & Hwx).
    exists w. split; [|done]. by replace (S i + k') with (i + S k') by lia.
Qed.

Lemma scanRow_Return x (indices : list nat) n i p :
  scanRow x indices i n = Return p →
  ∃ k, k < n ∧ p = Z.of_nat (i + k) ∧ indices !! (i + k) = Some x.
Proof.
  revert i. induction n as [|n IH]; intros i; simpl; [done|].
  destruct (indices !! i) as [v|] eqn:Hv; [|done].
  destruct (Nat.eqb_spec v x) as [->|_].
  - intros [= <-]. exists 0. rewrite Nat.add_0_r. split; [lia|done].
  - intros (k & Hk & -> & Hx)%IH. exists (S k).
    replace (i + S k) with (S i + k) by lia. split; [lia|done].
Qed.

Section ExclusionLayout.

Variable blockSize : nat.
Variable exclusionList : list (list nat).
Variable numAtoms : nat.

Let numBlocks := numAtomBlocks blockSize numAtoms.
Let masks := tileMasks blockSize exclusionList.
Let rows := exclusionRow masks numBlocks <$> seq 0 numBlocks.
Let es := build blockSize exclusionList numAtoms.
Let start (y : nat) := length (mjoin (take y rows)).

Lemma rows_lookup y :
  y < numBlocks → rows !! y = Some (exclusionRow masks numBlocks y).
Proof.
  intros Hy. unfold rows. rewrite list_lookup_fmap, lookup_seq_lt by done. done.
Qed.

Lemma elem_of_exclusionRow x y :
  x ∈ exclusionRow masks numBlocks y ↔ is_Some (masks !! (x, y)) ∧ x < numBlocks.
Proof.
  unfold exclusionRow. rewrite list_elem_of_filter, elem_of_seq. intuition lia.
Qed.

Lemma NoDup_exclusionRow y : NoDup (exclusionRow masks numBlocks y).
Proof. apply NoDup_filter, NoDup_seq. Qed.

Lemma rowIndices_lookup y :
  y ≤ numBlocks → es_exclusionRowIndices es !! y = Some (start y).
Proof.
  intros Hy. unfold es, build. simpl. fold numBlocks masks rows.
  rewrite prefixSums_lookup by (unfold rows; rewrite !length_fmap, length_seq; lia).
  f_equal. unfold start. rewrite length_join, fmap_take. done.
Qed.

Lemma start_S y :
  y < numBlocks → start (S y) = start y + length (exclusionRow masks numBlocks y).
Proof.
  intros Hy. unfold start. rewrite (take_S_r _ _ _ (rows_lookup y Hy)).
  rewrite join_app, length_app. simpl. rewrite app_nil_r. done.
Qed.

(** A tile that has a mask is found, at the position of its mask. *)
Lemma findExclusionIndex_found (x y : nat) :
  y ≤ x → x < numBlocks → is_Some (masks !! (x, y)) →
  ∃ p : nat,
    findExclusionIndex (Z.of_nat x) (Z.of_nat y)
                       (es_exclusionIndices es) (es_exclusionRowIndices es)
    = Return (Z.of_nat p)
    ∧ es_exclusionIndices es !! p = Some x
    ∧ es_exclusions es !! p = Some (default 0%N (masks !! (x, y))).
Proof.
  intros Hyx Hx Hm. unfold findExclusionIndex.
  destruct (Z.ltb_spec (Z.of_nat x) (Z.of_nat y)) as [?|_]; [lia|].
  destruct (Z.ltb_spec (Z.of_nat y) 0) as [?|_]; [lia|].
  rewrite Nat2Z.id, !rowIndices_lookup by lia.
  replace (y + 1) with (S y) by lia. rewrite start_S by lia.
  replace (_ + _ - _) with (length (exclusionRow masks numBlocks y)) by lia.
  assert (x ∈ exclusionRow masks numBlocks y) as Hin
    by (by apply elem_of_exclusionRow).
  apply list_elem_of_lookup in Hin as (k & Hk).
  assert (k < length (exclusionRow masks numBlocks y)) as Hlen
    by (by eapply lookup_lt_Some).
  assert (Hrow := rows_lookup y ltac:(lia)).
  assert (∀ k', k' < length (exclusionRow masks numBlocks y) →
            es_exclusionIndices es !! (start y + k')
            = exclusionRow masks numBlocks y !! k') as Hidx.
  { intros k' Hk'. unfold es, build, start. simpl. fold numBlocks masks rows.
    by apply lookup_join_row. }
  exists (start y + k). rewrite Nat2Z.id. split; [|split].
  - apply scanRow_found; [done|by rewrite Hidx|].
    intros k' Hk'. rewrite Hidx by lia.
    destruct (lookup_lt_is_Some_2 (exclusionRow masks numBlocks y) k' ltac:(lia))
      as [v Hv].
    exists v. split; [done|]. intros ->.
    pose proof (NoDup_lookup _ _ _ _ (NoDup_exclusionRow y) Hv Hk). lia.
  - by rewrite Hidx.
  - unfold es, build, start. simpl. fold numBlocks masks rows.
    rewrite (lookup_join_imap_row _ rows y _ k) by
      (try done; intros; by rewrite length_fmap).
    by rewrite list_lookup_fmap, Hk.
Qed.

(** Whatever [findExclusionIndex] returns for a row of the encoding is the
    position of the tile's mask. *)
Lemma findExclusionIndex_Return (x y : nat) p :
  y < numBlocks →
  findExclusionIndex (Z.of_nat x) (Z.of_nat y)
                     (es_exclusionIndices es) (es_exclusionRowIndices es)
  = Return p →
  is_Some (masks !! (x, y))
  ∧ es_exclusions es !! Z.to_nat p = Some (default 0%N (masks !! (x, y))).
Proof.
  intros Hy. unfold findExclusionIndex.
  destruct (Z.ltb_spec (Z.of_nat x) (Z.of_nat y)) as [?|_]; [done|].
  destruct (Z.ltb_spec (Z.of_nat y) 0) as [?|_]; [lia|].
  rewrite !Nat2Z.id, !rowIndices_lookup by lia.
  replace (y + 1) with (S y) by lia. rewrite start_S by lia.
  replace (_ + _ - _) with (length (exclusionRow masks numBlocks y)) by lia.
  intros (k & Hk & -> & Hx)%scanRow_Return. rewrite Nat2Z.id.
  assert (Hrow := rows_lookup y ltac:(lia)).
  assert (exclusionRow masks numBlocks y !! k = Some x) as Hkx.
  { rewrite <- Hx. symmetry. unfold es, build, start. simpl.
    fold numBlocks masks rows. by apply lookup_join_row. }
  split.
  - by apply (elem_of_exclusionRow x y), list_elem_of_lookup_2 with k.
  - unfold es, build, start. simpl. fold numBlocks masks rows.
    rewrite (lookup_join_imap_row _ rows y _ k) by
      (try done; intros; by rewrite length_fmap).
    by rewrite list_lookup_fmap, Hkx.
Qed.

End ExclusionLayout.

(** ** Discovery and growth *)

Section Discovery.

Context {CUdeviceptr : Type}.
Implicit Types this : CudaNonbondedUtilities Q CUdeviceptr.

Lemma set_neighbors_twice m n tiles flags m' n' tiles' flags' this :
  set_neighbors m n tiles flags (set_neighbors m' n' tiles' flags' this)
  = set_neighbors m n tiles flags this.
Proof. reflexivity. Qed.

Lemma discoverUnbounded_set_neighbors m n tiles flags this :
  discoverUnbounded (set_neighbors m n tiles flags this) = discoverUnbounded this.
Proof. reflexivity. Qed.

Lemma capacity_set_neighbors (k : nat) n tiles flags this :
  capacity (set_neighbors (Z.of_nat k) n tiles flags this) = k.
Proof. unfold capacity. simpl. apply Nat2Z.id. Qed.

(** The append loop, started from a counter and a list that already hold
    the tiles [found]. *)
Lemma foldl_appendTile (P : Tile → bool) (maxTiles : nat) (tiles found : list Tile) :
  foldl (λ acc t, if P t then appendTile maxTiles acc t else acc)
        (length found, take maxTiles found) tiles
  = (length (found ++ filter (λ t, P t = true) tiles),
     take maxTiles (found ++ filter (λ t, P t = true) tiles)).
Proof.
  revert found. induction tiles as [|t tiles IH]; intros found; simpl.
  - by rewrite app_nil_r.
  - rewrite filter_cons. destruct (P t) eqn:HP.
    + rewrite decide_True by done.
      replace (found ++ t :: filter _ tiles)
        with ((found ++ [t]) ++ filter (λ t, P t = true) tiles)
        by (by rewrite <- app_assoc).
      rewrite <- IH. f_equal. unfold appendTile. simpl.
      rewrite length_app. simpl. f_equal; [lia|].
      destruct (Nat.ltb_spec (length found) maxTiles) as [Hlt|Hge].
      * rewrite (take_ge found) by lia.
        rewrite take_ge by (rewrite length_app; simpl; lia). done.
      * rewrite take_app_le by lia. done.
    + rewrite decide_False by (by intros [=]). apply IH.
Qed.

(** Bounded discovery counts every interacting tile and keeps the first
    [maxTiles] of them. *)
Lemma discover_spec this :
  discover this
  = (length (discoverUnbounded this),
     take (capacity this) (discoverUnbounded this)).
Proof.
  unfold discover, discoverUnbounded.
  pose proof (foldl_appendTile (tileInteracts this) (capacity this)
                (tilesInRange this) []) as Hfold.
  by rewrite take_nil in Hfold.
Qed.

Lemma length_discoverUnbounded this :
  length (discoverUnbounded this) ≤ length (tilesInRange this).
Proof. apply length_filter. Qed.

Section Growth.

Variable grow : nat → nat → nat.
Hypothesis grow_increases : ∀ maxTiles count, maxTiles < count → maxTiles < grow maxTiles count.

(** With enough retries the loop ends with every interacting tile stored,
    in a capacity that holds them; nothing else of the state changes, and
    nothing at all is reallocated when the tiles fit from the start. *)
Lemma discoverAndGrow_spec fuel this :
  length (discoverUnbounded this) ≤ capacity this + fuel →
  ∃ (m : Z) (flags : list N),
    discoverAndGrow grow fuel this
    = set_neighbors m (length (discoverUnbounded this)) (discoverUnbounded this)
                    flags this
    ∧ length (discoverUnbounded this) ≤ Z.to_nat m
    ∧ capacity this ≤ Z.to_nat m
    ∧ (length (discoverUnbounded this) ≤ capacity this →
       m = maxTiles this ∧ flags = interactionFlags this).
Proof.
  revert this. induction fuel as [|fuel IH]; intros this Hfuel.
  - exists (maxTiles this), (interactionFlags this). simpl.
    unfold findInteractingBlocks. rewrite discover_spec. simpl.
    rewrite take_ge by lia. unfold capacity in *. repeat split; lia.
  - simpl. unfold overflowed, findInteractingBlocks at 1 2.
    rewrite discover_spec. simpl.
    change (capacity (set_neighbors _ _ _ _ this)) with (capacity this).
    destruct (Nat.leb_spec (length (discoverUnbounded this)) (capacity this))
      as [Hfit|Hover]; simpl.
    + exists (maxTiles this), (interactionFlags this).
      unfold findInteractingBlocks. rewrite discover_spec. simpl.
      rewrite take_ge by lia. unfold capacity in *. repeat split; lia.
    + unfold updateNeighborListSize, findInteractingBlocks.
      rewrite discover_spec. simpl.
      change (capacity (set_neighbors _ _ _ _ this)) with (capacity this).
      destruct (Nat.leb_spec (length (discoverUnbounded this)) (capacity this))
        as [?|_]; [lia|].
      rewrite set_neighbors_twice.
      pose proof (grow_increases _ _ Hover) as Hgrow.
      set (this' := set_neighbors _ 0%nat [] [] this).
      destruct (IH this') as (m & flags & Heq & Hm & Hcap & _).
      { unfold this'. rewrite capacity_set_neighbors.
        rewrite discoverUnbounded_set_neighbors. lia. }
      unfold this' in Hcap. rewrite capacity_set_neighbors in Hcap.
      exists m, flags. rewrite Heq. unfold this'.
      rewrite discoverUnbounded_set_neighbors, set_neighbors_twice.
      change (discoverUnbounded this') with (discoverUnbounded this) in Hm.
      split; [done|]. split; [done|]. split; [lia|]. intros ?. lia.
Qed.

Lemma findBlockBounds_set_neighbors m n tiles flags this :
  findBlockBounds (set_neighbors m n tiles flags (findBlockBounds this))
  = set_neighbors m n tiles flags (findBlockBounds this).
Proof. reflexivity. Qed.

(** What [prepareInteractions] leaves: the bounds of phase 1, every
    interacting tile of the range, their flags, and a capacity that holds
    them. *)
Lemma prepareInteractions_spec this :
  let bounded := findBlockBounds this in
  let tiles := discoverUnbounded bounded in
  ∃ m : Z,
    prepareInteractions grow this
    = set_neighbors m (length tiles) tiles (tileFlags bounded <$> tiles) bounded
    ∧ length tiles ≤ Z.to_nat m
    ∧ capacity this ≤ Z.to_nat m
    ∧ (length tiles ≤ capacity this → m = maxTiles this).
Proof.
  intros bounded tiles. unfold prepareInteractions.
  destruct (discoverAndGrow_spec (length (tilesInRange this)) bounded)
    as (m & flags & Heq & Hm & Hcap & Hsame).
  { pose proof (length_discoverUnbounded bounded).
    change (tilesInRange bounded) with (tilesInRange this) in *. lia. }
  exists m. fold bounded. rewrite Heq. fold tiles. repeat split; try done.
  intros Hfit. by apply Hsame.
Qed.

End Growth.

End Discovery.

(** ** Geometry of the pruning *)

Section Geometry.

Local Open Scope Q_scope.

Lemma Qabs_le_sq (a b : Q) : Qabs a <= Qabs b → a * a <= b * b.
Proof.
  intros Hab.
  assert (0 <= Qabs a) as Ha by apply Qabs_nonneg.
  assert (Qabs a * Qabs a <= Qabs b * Qabs b) as Hsq.
  { revert Ha Hab. generalize (Qabs a) (Qabs b). intros x y ? ?. Lqa.nra. }
  rewrite <- !Qabs_Qmult in Hsq.
  rewrite !Qabs_pos in Hsq by Lqa.nra. done.
Qed.

Lemma gap_le_sq (g d : Q) : 0 <= g → g <= Qabs d → g * g <= d * d.
Proof.
  intros Hg Hgd. apply Qabs_le_sq. rewrite (Qabs_pos g) by done. done.
Qed.

(** No periodic image of a difference is shorter than its nearest
    image. *)
Lemma nearestImage_minimal (L d : Q) (k : Z) :
  Qabs (nearestImage true L d) <= Qabs (d - inject_Z k * L).
Proof.
  unfold nearestImage.
  set (n := Qfloor (d / L + (1 # 2))).
  pose proof (Qfloor_le (d / L + (1 # 2))) as Hlo.
  pose proof (Qlt_floor (d / L + (1 # 2))) as Hhi.
  fold n in Hlo, Hhi. rewrite inject_Z_plus in Hhi.
  change (inject_Z 1) with 1 in Hhi.
  destruct (Qeq_dec L 0) as [HL|HL].
  - assert (d - inject_Z n * L == d - inject_Z k * L) as -> by (rewrite HL; ring).
    apply Qle_refl.
  - assert (d == (d / L) * L) as Hd by (field; done).
    set (u := d / L) in *.
    assert (d - inject_Z n * L == (u - inject_Z n) * L) as -> by (rewrite Hd at 1; ring).
    assert (d - inject_Z k * L == (u - inject_Z k) * L) as -> by (rewrite Hd at 1; ring).
    rewrite !Qabs_Qmult. apply Qmult_le_compat_r; [|apply Qabs_nonneg].
    destruct (Z.lt_trichotomy k n) as [Hk|[->|Hk]]; [|apply Qle_refl|];
      apply Qabs_Qle_condition.
    + assert (inject_Z (k + 1) <= inject_Z n) as Hkn by (rewrite <- Zle_Qle; lia).
      rewrite inject_Z_plus in Hkn. change (inject_Z 1) with 1 in Hkn.
      assert (0 <= u - inject_Z k) as Hpos by Lqa.lra.
      rewrite (Qabs_pos _ Hpos). Lqa.lra.
    + assert (inject_Z (n + 1) <= inject_Z k) as Hkn by (rewrite <- Zle_Qle; lia).
      rewrite inject_Z_plus in Hkn. change (inject_Z 1) with 1 in Hkn.
      assert (u - inject_Z k <= 0) as Hneg by Lqa.lra.
      rewrite (Qabs_neg _ Hneg). Lqa.lra.
Qed.


Lemma Qabs_triangle3 (a b c : Q) : Qabs (a + b + c) <= Qabs a + Qabs b + Qabs c.
Proof.
  eapply Qle_trans; [apply Qabs_triangle|].
  apply Qplus_le_compat; [apply Qabs_triangle|apply Qle_refl].
Qed.

(** Along one axis, the gap between two boxes is at most the distance of
    any two points they hold: without periodicity ... *)
Lemma axisGap_le_open (L cx cy hx hy p q : Q) :
  Qabs (p - cx) <= hx → Qabs (q - cy) <= hy →
  axisGap false L cx cy hx hy <= Qabs (nearestImage false L (p - q)).
Proof.
  intros Hp Hq. unfold axisGap, nearestImage.
  apply Q.max_lub; [apply Qabs_nonneg|].
  assert (cx - cy == (cx - p) + (p - q) + (q - cy)) as -> by ring.
  pose proof (Qabs_triangle3 (cx - p) (p - q) (q - cy)) as Htri.
  rewrite (Qabs_Qminus cx p) in Htri.
  revert Hp Hq Htri.
  generalize (Qabs (p - cx)) (Qabs (q - cy)) (Qabs (p - q))
             (Qabs (cx - p + (p - q) + (q - cy))).
  intros. Lqa.lra.
Qed.

(** ... and with it, where the boxes hold the images of the points in the
    primary cell and differences are taken to the nearest image. *)
Lemma axisGap_le_periodic (L cx cy hx hy p q : Q) :
  Qabs (foldCoord L p - cx) <= hx → Qabs (foldCoord L q - cy) <= hy →
  axisGap true L cx cy hx hy <= Qabs (nearestImage true L (p - q)).
Proof.
  intros Hp Hq. unfold axisGap.
  apply Q.max_lub; [apply Qabs_nonneg|].
  set (a := Qfloor (p / L)). set (b := Qfloor (q / L)).
  set (m := Qfloor ((p - q) / L + (1 # 2))).
  pose proof (nearestImage_minimal L (cx - cy) (m - a + b)) as Hmin.
  assert (cx - cy - inject_Z (m - a + b) * L
          == (cx - foldCoord L p) + nearestImage true L (p - q)
             + (foldCoord L q - cy)) as Hsum.
  { unfold foldCoord, nearestImage. fold a b m.
    unfold Z.sub. rewrite !inject_Z_plus, inject_Z_opp. ring. }
  rewrite Hsum in Hmin.
  pose proof (Qabs_triangle3 (cx - foldCoord L p) (nearestImage true L (p - q))
                             (foldCoord L q - cy)) as Htri.
  rewrite (Qabs_Qminus cx (foldCoord L p)) in Htri.
  revert Hp Hq Htri Hmin.
  generalize (Qabs (foldCoord L p - cx)) (Qabs (foldCoord L q - cy))
             (Qabs (nearestImage true L (p - q)))
             (Qabs (nearestImage true L (cx - cy)))
             (Qabs (cx - foldCoord L p + nearestImage true L (p - q)
                    + (foldCoord L q - cy))).
  intros. Lqa.lra.
Qed.

Lemma axisGap_nonneg periodic (L cx cy hx hy : Q) :
  0 <= axisGap periodic L cx cy hx hy.
Proof. unfold axisGap. apply Q.le_max_l. Qed.

Lemma foldl_pointMin_le (ps : list (Point Q)) (p m : Point Q) :
  m ∈ p :: ps →
  px (foldl pointMin p ps) <= px m ∧ py (foldl pointMin p ps) <= py m
  ∧ pz (foldl pointMin p ps) <= pz m.
Proof.
  revert p m. induction ps as [|a ps IH]; intros p m Hm.
  - apply list_elem_of_singleton in Hm as ->. simpl.
    repeat split; apply Qle_refl.
  - simpl.
    assert (m ∈ pointMin p a :: ps ∨ m = p ∨ m = a) as [Hin|Heq].
    { apply elem_of_cons in Hm as [->|Hm]; [auto|].
      apply elem_of_cons in Hm as [->|Hm]; [auto|]. left. by right. }
    + by apply IH.
    + destruct (IH (pointMin p a) (pointMin p a) ltac:(left)) as (Hx & Hy & Hz).
      destruct Heq as [->| ->]; simpl in *; repeat split;
        (eapply Qle_trans; [eassumption|]);
        first [apply Q.le_min_l | apply Q.le_min_r].
Qed.

Lemma foldl_pointMax_ge (ps : list (Point Q)) (p m : Point Q) :
  m ∈ p :: ps →
  px m <= px (foldl pointMax p ps) ∧ py m <= py (foldl pointMax p ps)
  ∧ pz m <= pz (foldl pointMax p ps).
Proof.
  revert p m. induction ps as [|a ps IH]; intros p m Hm.
  - apply list_elem_of_singleton in Hm as ->. simpl.
    repeat split; apply Qle_refl.
  - simpl.
    assert (m ∈ pointMax p a :: ps ∨ m = p ∨ m = a) as [Hin|Heq].
    { apply elem_of_cons in Hm as [->|Hm]; [auto|].
      apply elem_of_cons in Hm as [->|Hm]; [auto|]. left. by right. }
    + by apply IH.
    + destruct (IH (pointMax p a) (pointMax p a) ltac:(left)) as (Hx & Hy & Hz).
      destruct Heq as [->| ->]; simpl in *; repeat split;
        (eapply Qle_trans; [|eassumption]);
        first [apply Q.le_max_l | apply Q.le_max_r].
Qed.

Lemma within_half_extent (lo hi m : Q) :
  lo <= m → m <= hi → Qabs (m - (lo + hi) / 2) <= (hi - lo) / 2.
Proof.
  intros Hlo Hhi. apply Qabs_Qle_condition.
  change ((lo + hi) / 2) with ((lo + hi) * (1 # 2)).
  change ((hi - lo) / 2) with ((hi - lo) * (1 # 2)).
  split; Lqa.lra.
Qed.

(** Every member of a block lies in the block's bounding box. *)
Lemma boundOf_contains (members : list (Point Q)) (m : Point Q) :
  m ∈ members →
  let c := (boundOf members).1 in
  let h := (boundOf members).2 in
  Qabs (px m - px c) <= px h ∧ Qabs (py m - py c) <= py h
  ∧ Qabs (pz m - pz c) <= pz h.
Proof.
  destruct members as [|p ps]; [by intros ?%elem_of_nil|].
  intros Hm. simpl.
  destruct (foldl_pointMin_le ps p m Hm) as (Hx & Hy & Hz).
  destruct (foldl_pointMax_ge ps p m Hm) as (Hx' & Hy' & Hz').
  repeat split; by apply within_half_extent.
Qed.

End Geometry.

(** ** Soundness of the pruning *)

Section Pruning.

Context {CUdeviceptr : Type}.
Implicit Types this : CudaNonbondedUtilities Q CUdeviceptr.

Local Open Scope Q_scope.

Lemma withinDistance_true (cutoff distance2 : Q) :
  withinDistance cutoff distance2 = true
  ↔ 0 <= cutoff ∧ distance2 <= cutoff * cutoff.
Proof. unfold withinDistance. by rewrite andb_true_iff, !Qle_bool_iff. Qed.

Lemma withinDistance_mono (cutoff d d' : Q) :
  d' <= d → withinDistance cutoff d = true → withinDistance cutoff d' = true.
Proof.
  rewrite !withinDistance_true. intros Hd [Hc Hle]. split; [done|].
  by apply Qle_trans with d.
Qed.

Lemma sum_sq_le (gx gy gz dx dy dz : Q) :
  0 <= gx → gx <= Qabs dx → 0 <= gy → gy <= Qabs dy → 0 <= gz → gz <= Qabs dz →
  gx * gx + gy * gy + gz * gz <= dx * dx + dy * dy + dz * dz.
Proof.
  intros. repeat apply Qplus_le_compat; by apply gap_le_sq.
Qed.

(** The nearest images are at most as far apart as any images. *)
Lemma pairDistance2_le_image this (k : Z * Z * Z) (p q : Point Q) :
  (usePeriodic this = false → k = (0, 0, 0)%Z) →
  pairDistance2 this p q
  <= imageDistance2 (periodicBoxSize (context this)) k p q.
Proof.
  intros Hk. unfold pairDistance2, imageDistance2. cbv zeta.
  destruct (usePeriodic this) eqn:Hper.
  - repeat apply Qplus_le_compat; apply Qabs_le_sq, nearestImage_minimal.
  - rewrite (Hk eq_refl). unfold nearestImage. simpl.
    apply Qle_lteq. right. ring.
Qed.

Lemma withinCutoff_pairInteracts this (p q : Point Q) :
  withinCutoff this p q → pairInteracts this p q = true.
Proof.
  unfold withinCutoff, pairInteracts. intros [->|(Hc & k & Hk & Hle)]; [done|].
  apply orb_true_iff. right. apply withinDistance_true. split; [done|].
  eapply Qle_trans; [by apply pairDistance2_le_image|done].
Qed.

Lemma withinCutoff_sym this (p q : Point Q) :
  withinCutoff this p q → withinCutoff this q p.
Proof.
  unfold withinCutoff. intros [?|(Hc & [[kx ky] kz] & Hk & Hle)]; [by left|].
  right. split; [done|]. exists (- kx, - ky, - kz)%Z. split.
  - intros Hper. by injection (Hk Hper) as -> -> ->.
  - eapply Qle_trans; [|exact Hle]. unfold imageDistance2. simpl.
    rewrite !inject_Z_opp. apply Qle_lteq. right. ring.
Qed.

Lemma blockOf_lt_blockCount this i :
  (0 < blockSizeOf this)%nat → (i < atomCount this)%nat →
  (blockOf (blockSizeOf this) i < blockCount this)%nat.
Proof.
  unfold blockCount, numAtomBlocks, blockOf. intros Hbs Hi.
  set (bs := blockSizeOf this) in *. set (n := atomCount this) in *.
  replace (n + bs - 1)%nat with ((n - 1) + 1 * bs)%nat by lia.
  rewrite Nat.div_add by lia.
  pose proof (Nat.Div0.div_le_mono i (n - 1) bs ltac:(lia)). lia.
Qed.

Lemma blockMembers_elem this i (p : Point Q) :
  (0 < blockSizeOf this)%nat → (i < atomCount this)%nat →
  posq (context this) !! i = Some p →
  foldPoint (usePeriodic this) (periodicBoxSize (context this)) p
  ∈ blockMembers this (blockOf (blockSizeOf this) i).
Proof.
  intros Hbs Hi Hp. unfold blockMembers, blockOf.
  set (bs := blockSizeOf this) in *.
  apply list_elem_of_fmap_2, list_elem_of_lookup. exists (i mod bs)%nat.
  rewrite lookup_take_lt by (apply Nat.mod_upper_bound; lia).
  rewrite lookup_drop.
  replace (i / bs * bs + i mod bs)%nat with i
    by (rewrite (Nat.div_mod_eq i bs) at 1; lia).
  by rewrite lookup_take_lt.
Qed.

Lemma blockCenter_findBlockBounds this b :
  (b < blockCount this)%nat →
  blockCenter (findBlockBounds this) !! b = Some (boundOf (blockMembers this b)).1
  ∧ blockBoundingBox (findBlockBounds this) !! b
    = Some (boundOf (blockMembers this b)).2.
Proof.
  intros Hb. unfold findBlockBounds. simpl.
  rewrite !list_lookup_fmap, lookup_seq_lt by done. done.
Qed.

(** A tile that holds an interacting pair passes the bounding-box test. *)
Lemma tileInteracts_of_pair this i j (p q : Point Q) :
  (0 < blockSizeOf this)%nat →
  (i < atomCount this)%nat → (j < atomCount this)%nat →
  posq (context this) !! i = Some p → posq (context this) !! j = Some q →
  pairInteracts this p q = true →
  tileInteracts (findBlockBounds this)
                (blockOf (blockSizeOf this) i, blockOf (blockSizeOf this) j) = true.
Proof.
  intros Hbs Hi Hj Hp Hq. unfold pairInteracts, tileInteracts.
  change (useCutoff (findBlockBounds this)) with (useCutoff this).
  change (cutoff (findBlockBounds this)) with (cutoff this).
  destruct (useCutoff this); [simpl|done].
  apply withinDistance_mono.
  unfold tileDistance2, pairDistance2. cbv zeta.
  change (usePeriodic (findBlockBounds this)) with (usePeriodic this).
  change (context (findBlockBounds this)) with (context this).
  cbn [fst snd].
  destruct (blockCenter_findBlockBounds this (blockOf (blockSizeOf this) i))
    as [-> ->]; [by apply blockOf_lt_blockCount|].
  destruct (blockCenter_findBlockBounds this (blockOf (blockSizeOf this) j))
    as [-> ->]; [by apply blockOf_lt_blockCount|].
  cbn [pointOr0 default from_option].
  pose proof (boundOf_contains _ _ (blockMembers_elem this i p Hbs Hi Hp))
    as (Hix & Hiy & Hiz).
  pose proof (boundOf_contains _ _ (blockMembers_elem this j q Hbs Hj Hq))
    as (Hjx & Hjy & Hjz).
  cbv zeta in Hix, Hiy, Hiz, Hjx, Hjy, Hjz.
  unfold foldPoint in Hix, Hiy, Hiz, Hjx, Hjy, Hjz.
  destruct (usePeriodic this); simpl in Hix, Hiy, Hiz, Hjx, Hjy, Hjz.
  - apply sum_sq_le; first [apply axisGap_nonneg | by apply axisGap_le_periodic].
  - apply sum_sq_le; first [apply axisGap_nonneg | by apply axisGap_le_open].
Qed.

End Pruning.

(** ** Tiles and flags *)

Section TilesAndFlags.

Context {CUdeviceptr : Type}.
Implicit Types this : CudaNonbondedUtilities Q CUdeviceptr.

Lemma join_fmap_bind {A B} (f : A → list B) (l : list A) :
  mjoin (f <$> l) = l ≫= f.
Proof. induction l as [|a l IH]; csimpl; [done|]. by rewrite IH. Qed.

Lemma elem_of_allTiles numBlocks x y :
  (x, y) ∈ allTiles numBlocks ↔ y ≤ x < numBlocks.
Proof.
  unfold allTiles. rewrite join_fmap_bind, list_elem_of_bind. split.
  - intros (y' & Hxy & Hy'). apply list_elem_of_fmap in Hxy as (x' & [= -> ->] & Hx').
    apply elem_of_seq in Hx', Hy'. lia.
  - intros Hxy. exists y. split.
    + apply list_elem_of_fmap. exists x. split; [done|]. apply elem_of_seq. lia.
    + apply elem_of_seq. lia.
Qed.

Lemma NoDup_allTiles numBlocks : NoDup (allTiles numBlocks).
Proof.
  unfold allTiles. rewrite join_fmap_bind. apply NoDup_bind.
  - intros y1 y2 [x y] _ _ Hy1 Hy2.
    apply list_elem_of_fmap in Hy1 as (? & [= _ ->] & _).
    apply list_elem_of_fmap in Hy2 as (? & [= _ ->] & _). done.
  - intros y _. apply NoDup_fmap_2; [|apply NoDup_seq].
    by intros ?? [=].
  - apply NoDup_seq.
Qed.

Lemma tilesInRange_allTiles this t :
  t ∈ tilesInRange this → t ∈ allTiles (blockCount this).
Proof. unfold tilesInRange. intros Ht. by apply subseteq_take, subseteq_drop in Ht. Qed.

Lemma NoDup_tilesInRange this : NoDup (tilesInRange this).
Proof.
  unfold tilesInRange.
  eapply sublist_NoDup; [|apply sublist_take].
  eapply sublist_NoDup; [|apply sublist_drop]. apply NoDup_allTiles.
Qed.

Lemma sum_list_row_lengths (n m : nat) :
  m ≤ n →
  2 * sum_list ((λ y, n - y) <$> seq (n - m) m) = m * (m + 1).
Proof.
  induction m as [|m IH]; intros Hm; [done|].
  cbn [seq fmap list_fmap sum_list sum_list_with].
  replace (S (n - S m)) with (n - m) by lia.
  replace (n - (n - S m)) with (S m) by lia.
  specialize (IH ltac:(lia)). revert IH.
  generalize (sum_list ((λ y, n - y) <$> seq (n - m) m)). intros k IH.
  cbv [Datatypes.id]. nia.
Qed.

(** The tile index space has [numBlocks*(numBlocks+1)/2] tiles. *)
Lemma length_allTiles numBlocks :
  length (allTiles numBlocks) = numBlocks * (numBlocks + 1) / 2.
Proof.
  unfold allTiles. rewrite length_join, <- list_fmap_compose.
  erewrite list_fmap_ext; [|intros i y _; cbn; rewrite length_fmap, length_seq; done].
  pose proof (sum_list_row_lengths numBlocks numBlocks ltac:(lia)) as Hsum.
  rewrite Nat.sub_diag in Hsum.
  apply Nat.div_unique_exact; [lia|]. rewrite <- Hsum. reflexivity.
Qed.

(** An engine that starts at tile 0 and has as many tiles as there are is
    responsible for the whole tile space. *)
Lemma owns_all_tiles this :
  startTileIndex this = 0%Z →
  numTiles this = Z.of_nat (blockCount this * (blockCount this + 1) / 2) →
  tilesInRange this = allTiles (blockCount this).
Proof.
  intros Hstart Hnum. unfold tilesInRange. rewrite Hstart, Hnum, Nat2Z.id.
  cbn [Z.to_nat drop]. apply take_ge. by rewrite length_allTiles.
Qed.

Lemma elem_of_discoverUnbounded this t :
  t ∈ discoverUnbounded this ↔ tileInteracts this t = true ∧ t ∈ tilesInRange this.
Proof. unfold discoverUnbounded. by rewrite list_elem_of_filter. Qed.

Lemma NoDup_discoverUnbounded this : NoDup (discoverUnbounded this).
Proof. apply NoDup_filter, NoDup_tilesInRange. Qed.

(** The bits that [setBits] sets. *)
Lemma setBits_inner_testbit (f : nat → bool) (g : nat → N) (cs : list nat) (m : N) b :
  N.testbit (foldl (λ m c, if f c then N.setbit m (g c) else m) m cs) b = true
  ↔ N.testbit m b = true ∨ ∃ c, c ∈ cs ∧ f c = true ∧ g c = b.
Proof.
  revert m. induction cs as [|c cs IH]; intros m; simpl.
  - split; [auto|]. intros [?|(c & Hc & _)]; [done|]. by apply elem_of_nil in Hc.
  - rewrite IH. destruct (f c) eqn:Hf.
    + rewrite N.setbit_eqb, orb_true_iff, N.eqb_eq. split.
      * intros [[<-|?]|(c' & Hc' & ?)]; [right|by left|right].
        -- exists c. split; [left|done].
        -- exists c'. split; [by right|done].
      * intros [?|(c' & Hc' & Hfc & Hg)]; [auto|].
        apply elem_of_cons in Hc' as [->|Hc']; [auto|]. right. eauto.
    + split.
      * intros [?|(c' & Hc' & ?)]; [by left|]. right. exists c'. split; [by right|done].
      * intros [?|(c' & Hc' & Hfc & Hg)]; [auto|].
        apply elem_of_cons in Hc' as [->|Hc']; [congruence|]. right. eauto.
Qed.

Lemma setBits_outer_testbit (f : nat → nat → bool) (size : nat) (rs : list nat)
    (m : N) b :
  N.testbit
    (foldl (λ m r,
              foldl (λ m c, if f r c then N.setbit m (bitIndex size r c) else m)
                    m (seq 0 size)) m rs) b = true
  ↔ N.testbit m b = true
    ∨ ∃ r c, r ∈ rs ∧ c < size ∧ f r c = true ∧ bitIndex size r c = b.
Proof.
  revert m. induction rs as [|r rs IH]; intros m; simpl.
  - split; [auto|]. intros [?|(r & c & Hr & _)]; [done|]. by apply elem_of_nil in Hr.
  - rewrite IH, (setBits_inner_testbit (f r) (bitIndex size r)). split.
    + intros [[?|(c & Hc & Hf & Hb)]|(r' & c & Hr' & ?)]; [by left|right|right].
      * exists r, c. apply elem_of_seq in Hc. split; [left|]. split; [lia|done].
      * exists r', c. split; [by right|done].
    + intros [?|(r' & c & Hr' & Hc & Hf & Hb)]; [auto|].
      apply elem_of_cons in Hr' as [->|Hr'].
      * left. right. exists c. split; [apply elem_of_seq; lia|done].
      * right. eauto 10.
Qed.

Lemma setBits_testbit (f : nat → nat → bool) (size r c : nat) :
  r < size → c < size →
  N.testbit (setBits f size) (bitIndex size r c) = f r c.
Proof.
  intros Hr Hc. apply eq_true_iff_eq. unfold setBits.
  rewrite setBits_outer_testbit. simpl. split.
  - intros [?|(r' & c' & Hr' & Hc' & Hf & Hb)]; [done|].
    apply bitIndex_inj in Hb as [? ?]; [congruence|lia|done..].
  - intros Hf. right. exists r, c. split; [apply elem_of_seq; lia|done].
Qed.

(** The mask an initialized engine reads for a tile is the mask the
    encoder accumulated for it. *)
Lemma exclusionMask_eq this x y :
  Initialized this → x < blockCount this → y ≤ x →
  exclusionMask this (x, y)
  = default 0%N (tileMasks (blockSizeOf this) (atomExclusions this) !! (x, y)).
Proof.
  intros [Hbs Hes] Hx Hy. unfold exclusionMask. simpl.
  assert (exclusions this
          = es_exclusions (build (blockSizeOf this) (atomExclusions this)
                                 (atomCount this))) as -> by (by rewrite <- Hes).
  assert (exclusionIndices this
          = es_exclusionIndices (build (blockSizeOf this) (atomExclusions this)
                                       (atomCount this))) as -> by (by rewrite <- Hes).
  assert (exclusionRowIndices this
          = es_exclusionRowIndices (build (blockSizeOf this) (atomExclusions this)
                                          (atomCount this))) as -> by (by rewrite <- Hes).
  destruct (tileMasks (blockSizeOf this) (atomExclusions this) !! (x, y))
    as [mask|] eqn:Hmask.
  - destruct (findExclusionIndex_found (blockSizeOf this) (atomExclusions this)
                (atomCount this) x y Hy Hx) as (p & -> & _ & Hp).
    { by rewrite Hmask. }
    rewrite Nat2Z.id, Hp, Hmask. done.
  - destruct (findExclusionIndex _ _ _ _) as [p| |] eqn:Hfind; [|done..].
    apply findExclusionIndex_Return in Hfind as [[? Hsome] _]; [|unfold blockCount in Hx; lia].
    congruence.
Qed.

Lemma tileFlags_testbit this x y r c :
  Initialized this → x < blockCount this → y ≤ x →
  r < blockSizeOf this → c < blockSizeOf this →
  N.testbit (tileFlags this (x, y)) (bitIndex (blockSizeOf this) r c)
  = bitInteracts this (x, y) r c
    && negb ((y * blockSizeOf this + c <=? x * blockSizeOf this + r)
             && excluded (atomExclusions this) (x * blockSizeOf this + r)
                         (y * blockSizeOf this + c)).
Proof.
  intros Hinit Hx Hy Hr Hc. unfold tileFlags.
  rewrite N.ldiff_spec, setBits_testbit, exclusionMask_eq by done.
  rewrite tileMasks_testbit by (done || apply Hinit). done.
Qed.

End TilesAndFlags.

(** ** The pairs that [prepareInteractions] flags *)

Section FlaggedPairs.

Context {CUdeviceptr : Type}.
Implicit Types this : CudaNonbondedUtilities Q CUdeviceptr.

Variable grow : nat → nat → nat.
Hypothesis grow_increases :
  ∀ maxTiles count, maxTiles < count → maxTiles < grow maxTiles count.

Lemma pairFlagged_sym this k i j : pairFlagged this k i j → pairFlagged this k j i.
Proof.
  intros (Hk & t & flags & r & c & Ht & Hf & Hr & Hc & Hbit & Hpair).
  split; [done|]. exists t, flags, r, c. repeat split; try done.
  destruct Hpair; [by right|by left].
Qed.

Lemma bitInteracts_true this t r c :
  bitInteracts this t r c = true →
  ∃ p q, take (atomCount this) (posq (context this)) !! (pairOfBit this t r c).1 = Some p
         ∧ take (atomCount this) (posq (context this)) !! (pairOfBit this t r c).2 = Some q
         ∧ (pairOfBit this t r c).2 < (pairOfBit this t r c).1
         ∧ pairInteracts this p q = true.
Proof.
  unfold bitInteracts. destruct (pairOfBit this t r c) as [i j]. simpl.
  destruct (take _ _ !! i) as [p|]; [|done].
  destruct (take _ _ !! j) as [q|]; [|done].
  intros [Hlt Hint]%andb_true_iff. apply Nat.ltb_lt in Hlt.
  exists p, q. done.
Qed.

(** An ordered pair, higher index first. *)
Lemma ordered_pair_flagged this hi lo (p q : Point Q) :
  Initialized this →
  lo < hi → hi < atomCount this →
  posq (context this) !! hi = Some p → posq (context this) !! lo = Some q →
  withinCutoff this p q →
  excluded (atomExclusions this) hi lo = false →
  ownerTile (blockSizeOf this) hi lo ∈ tilesInRange this →
  ∃ k, pairFlagged (prepareInteractions grow this) k hi lo.
Proof.
  intros Hinit Hlt Hhi Hp Hq Hclose Hex Hrange.
  destruct (prepareInteractions_spec grow grow_increases this) as (m & Heq & _).
  cbv zeta in Heq. rewrite Heq. clear Heq.
  set (bounded := findBlockBounds this).
  set (bs := blockSizeOf this) in *.
  assert (0 < bs) as Hbs by apply Hinit.
  assert (ownerTile bs hi lo = (blockOf bs hi, blockOf bs lo)) as Htile
    by (unfold ownerTile; by rewrite Nat.max_l, Nat.min_r by lia).
  assert ((blockOf bs hi, blockOf bs lo) ∈ discoverUnbounded bounded) as Hin.
  { apply elem_of_discoverUnbounded. split; [|by rewrite <- Htile].
    apply tileInteracts_of_pair with p q; try done; [lia|].
    by apply withinCutoff_pairInteracts. }
  assert (blockOf bs hi * bs + hi mod bs = hi) as Ehi
    by (unfold blockOf; rewrite (Nat.div_mod_eq hi bs) at 3; lia).
  assert (blockOf bs lo * bs + lo mod bs = lo) as Elo
    by (unfold blockOf; rewrite (Nat.div_mod_eq lo bs) at 3; lia).
  assert (hi mod bs < bs) as Hr by (apply Nat.mod_upper_bound; lia).
  assert (lo mod bs < bs) as Hc by (apply Nat.mod_upper_bound; lia).
  apply list_elem_of_lookup in Hin as [k Hk]. exists k.
  unfold pairFlagged.
  cbn [interactionCount interactingTiles interactionFlags set_neighbors].
  change (blockSizeOf (set_neighbors _ _ _ _ bounded)) with bs.
  split; [by eapply lookup_lt_Some|].
  exists (blockOf bs hi, blockOf bs lo),
         (tileFlags bounded (blockOf bs hi, blockOf bs lo)),
         (hi mod bs), (lo mod bs).
  split; [done|]. split; [by rewrite list_lookup_fmap, Hk|].
  split; [done|]. split; [done|]. split.
  - change bs with (blockSizeOf bounded).
    rewrite tileFlags_testbit; try done.
    + change (blockSizeOf bounded) with bs.
      change (atomExclusions bounded) with (atomExclusions this).
      rewrite Ehi, Elo, Hex, andb_false_r, andb_true_r.
      unfold bitInteracts, pairOfBit. simpl.
      change (blockSizeOf bounded) with bs. rewrite Ehi, Elo.
      change (atomCount bounded) with (atomCount this).
      change (context bounded) with (context this).
      rewrite !lookup_take_lt, Hp, Hq by lia.
      apply andb_true_iff. split; [by apply Nat.ltb_lt|].
      by apply (withinCutoff_pairInteracts this).
    + by apply (blockOf_lt_blockCount this).
    + unfold blockOf. apply Nat.Div0.div_le_mono. lia.
  - left. unfold pairOfBit. simpl.
    change (blockSizeOf (set_neighbors _ _ _ _ bounded)) with bs.
    by rewrite Ehi, Elo.
Qed.

(** A pair is flagged in its own tile only. *)
Lemma pairFlagged_tile this k i j :
  Initialized this →
  pairFlagged (prepareInteractions grow this) k i j →
  interactingTiles (prepareInteractions grow this) !! k
  = Some (ownerTile (blockSizeOf this) i j).
Proof.
  intros Hinit.
  destruct (prepareInteractions_spec grow grow_increases this) as (m & Heq & _).
  cbv zeta in Heq. rewrite Heq. clear Heq.
  set (bounded := findBlockBounds this).
  unfold pairFlagged.
  cbn [interactionCount interactingTiles interactionFlags set_neighbors].
  change (blockSizeOf (set_neighbors _ _ _ _ bounded)) with (blockSizeOf this).
  intros (_ & [x y] & flags & r & c & Ht & Hf & Hr & Hc & Hbit & Hpair).
  rewrite Ht. f_equal.
  rewrite list_lookup_fmap, Ht in Hf. injection Hf as <-.
  assert ((x, y) ∈ allTiles (blockCount this)) as Hall.
  { apply list_elem_of_lookup_2 in Ht.
    apply elem_of_discoverUnbounded in Ht as [_ Ht].
    by apply tilesInRange_allTiles in Ht. }
  apply elem_of_allTiles in Hall as [Hy Hx].
  change (blockSizeOf this) with (blockSizeOf bounded) in Hbit.
  rewrite tileFlags_testbit in Hbit by done.
  apply andb_true_iff in Hbit as [Hint _].
  apply bitInteracts_true in Hint as (_ & _ & _ & _ & Hlt & _).
  unfold pairOfBit in *. simpl in Hlt, Hpair.
  change (blockSizeOf (set_neighbors _ _ _ _ bounded)) with (blockSizeOf this)
    in Hpair.
  change (blockSizeOf bounded) with (blockSizeOf this) in Hlt.
  set (bs := blockSizeOf this) in *.
  assert (x = (x * bs + r) / bs) as Ex
    by (rewrite Nat.div_add_l, Nat.div_small by lia; lia).
  assert (y = (y * bs + c) / bs) as Ey
    by (rewrite Nat.div_add_l, Nat.div_small by lia; lia).
  unfold ownerTile, blockOf.
  destruct Hpair as [[= <- <-]|[= <- <-]].
  - rewrite Nat.max_l, Nat.min_r by lia. by rewrite <- Ex, <- Ey.
  - rewrite Nat.max_r, Nat.min_l by lia. by rewrite <- Ex, <- Ey.
Qed.

(** Every pair the kernel will evaluate is an unexcluded pair. *)
Lemma flaggedPairs_not_excluded this i j :
  Initialized this →
  (i, j) ∈ flaggedPairs (prepareInteractions grow this) →
  excluded (atomExclusions this) i j = false.
Proof.
  intros Hinit.
  destruct (prepareInteractions_spec grow grow_increases this) as (m & Heq & _).
  cbv zeta in Heq. rewrite Heq. clear Heq.
  set (bounded := findBlockBounds this).
  unfold flaggedPairs.
  cbn [interactionCount interactingTiles interactionFlags set_neighbors].
  intros (l & Hij & Hl)%list_elem_of_join.
  apply elem_of_lookup_zip_with in Hl as (k & t & flags & -> & Ht & Hflags).
  apply lookup_take_Some in Ht as [Ht _].
  rewrite list_lookup_fmap, Ht in Hflags. injection Hflags as <-.
  assert (t ∈ allTiles (blockCount this)) as Hall.
  { apply list_elem_of_lookup_2 in Ht.
    apply elem_of_discoverUnbounded in Ht as [_ Ht].
    by apply tilesInRange_allTiles in Ht. }
  destruct t as [x y]. apply elem_of_allTiles in Hall as [Hy Hx].
  unfold flaggedPairsOf in Hij.
  apply list_elem_of_join in Hij as (row & Hij & Hrow).
  apply list_elem_of_fmap in Hrow as (r & -> & Hr).
  apply list_elem_of_omap in Hij as (c & Hc & Hbit).
  apply elem_of_seq in Hr, Hc.
  change (blockSizeOf (set_neighbors _ _ _ _ bounded)) with (blockSizeOf bounded) in *.
  destruct (N.testbit _ _) eqn:Htest; [|done].
  rewrite tileFlags_testbit in Htest by (done || lia).
  apply andb_true_iff in Htest as [Hint Hnot].
  apply bitInteracts_true in Hint as (_ & _ & _ & _ & Hlt & _).
  unfold pairOfBit in *. simpl in *. injection Hbit as <- <-.
  change (atomExclusions bounded) with (atomExclusions this) in Hnot.
  change (blockSizeOf (set_neighbors _ _ _ _ bounded)) with (blockSizeOf bounded).
  destruct (excluded _ _ _); [|done].
  rewrite andb_true_r in Hnot. apply negb_true_iff, Nat.leb_gt in Hnot. lia.
Qed.

(** The kernel's result depends on the pair term only through the pairs
    it evaluates. *)
Lemma foldl_evaluatePair_ext
    (pairTerm pairTerm' : nat → nat → Point Q → Point Q → Q * Point Q * Point Q)
    (unitOf : nat → nat) this (pairs : list (nat * nat)) acc :
  (∀ i j p q, (i, j) ∈ pairs → pairTerm i j p q = pairTerm' i j p q) →
  foldl (evaluatePair pairTerm unitOf this) acc pairs
  = foldl (evaluatePair pairTerm' unitOf this) acc pairs.
Proof.
  revert acc. induction pairs as [|[i j] pairs IH]; intros acc Hext; [done|].
  simpl. rewrite IH by (intros; apply Hext; by right). f_equal.
  unfold evaluatePair. destruct acc as [n [forces energies]]. simpl.
  rewrite Hext by left. done.
Qed.

Lemma length_accumulate {A} (add : A → A → A) (buffer : list A) i v :
  length (accumulate add buffer i v) = length buffer.
Proof.
  unfold accumulate. destruct (buffer !! i); [apply length_insert|done].
Qed.

Lemma lookup_accumulate_ne {A} (add : A → A → A) (buffer : list A) i j v :
  i ≠ j → accumulate add buffer i v !! j = buffer !! j.
Proof.
  intros Hne. unfold accumulate.
  destruct (buffer !! i); [by apply list_lookup_insert_ne|done].
Qed.

Lemma foldl_evaluatePair_buffers
    (pairTerm : nat → nat → Point Q → Point Q → Q * Point Q * Point Q)
    (unitOf : nat → nat) this (pairs : list (nat * nat)) acc :
  energyBufferCount this ≠ 0 →
  let r := foldl (evaluatePair pairTerm unitOf this) acc pairs in
  length r.2.1 = length acc.2.1
  ∧ length r.2.2 = length acc.2.2
  ∧ ∀ s, energyBufferCount this ≤ s → r.2.2 !! s = acc.2.2 !! s.
Proof.
  intros Hunits. revert acc.
  induction pairs as [|ij pairs IH]; intros acc; [done|].
  simpl. destruct (IH (evaluatePair pairTerm unitOf this acc ij)) as (Hf & He & Hs).
  rewrite Hf, He. unfold evaluatePair in *.
  destruct acc as [n [forces energies]].
  destruct (pairTerm _ _ _ _) as [[e fi] fj]. simpl in *.
  rewrite !length_accumulate. split; [done|]. split; [done|].
  intros s Hle. rewrite Hs by done. apply lookup_accumulate_ne.
  pose proof (Nat.mod_upper_bound (unitOf n) _ Hunits). lia.
Qed.

(** [computeInteractions] resizes no buffer and accumulates energy into
    the first [getNumEnergyBuffers()] energy buffers only. *)
Lemma computeInteractions_buffers
    (pairTerm : nat → nat → Point Q → Point Q → Q * Point Q * Point Q)
    (unitOf : nat → nat) this (forces : list (Point Q)) (energyBuffers : list Q) :
  let r := computeInteractions pairTerm unitOf this forces energyBuffers in
  length r.1 = length forces
  ∧ length r.2 = length energyBuffers
  ∧ ∀ s, Z.to_nat (getNumEnergyBuffers this) ≤ s →
         r.2 !! s = energyBuffers !! s.
Proof.
  unfold computeInteractions.
  destruct (Nat.eqb_spec (energyBufferCount this) 0) as [?|Hunits]; [done|].
  exact (foldl_evaluatePair_buffers pairTerm unitOf this (flaggedPairs this)
           (0, (forces, energyBuffers)) Hunits).
Qed.

End FlaggedPairs.

(** ** The claims about the exclusion lookup and the neighbor list *)

(** C2.  On the arrays that [build] produces, for block indices [x >= y]
    of a tile that contains an excluded pair, [findExclusionIndex(x, y,
    exclusionIndices, exclusionRowIndices)] returns a position [p] such
    that [exclusions[p]] is the bitmask of tile [(x, y)]: its bit
    [(r, c)] tells whether atom [x*blockSize + r] and atom
    [y*blockSize + c] are excluded (a diagonal tile stores a pair once, at
    [c <= r]).  Whatever the arrays, a call with [x < y] throws. *)
Theorem findExclusionIndex_correct
    (blockSize : nat) (exclusionList : list (list nat)) (numAtoms : nat) :
  0 < blockSize →
  let es := build blockSize exclusionList numAtoms in
  (∀ x y : nat,
      y ≤ x → x < numAtomBlocks blockSize numAtoms →
      (∃ i j, excluded exclusionList i j = true
              ∧ ownerTile blockSize i j = (x, y)) →
      ∃ (p : nat) (mask : N),
        findExclusionIndex (Z.of_nat x) (Z.of_nat y)
                           (es_exclusionIndices es) (es_exclusionRowIndices es)
        = Return (Z.of_nat p)
        ∧ es_exclusions es !! p = Some mask
        ∧ ∀ r c, r < blockSize → c < blockSize →
            N.testbit mask (bitIndex blockSize r c)
            = (y * blockSize + c <=? x * blockSize + r)
              && excluded exclusionList (x * blockSize + r) (y * blockSize + c))
  ∧ (∀ (x y : Z) (exclusionIndices exclusionRowIndices : list nat),
        (x < y)%Z →
        findExclusionIndex x y exclusionIndices exclusionRowIndices = Exception).
Proof.
  intros Hbs es. split.
  - intros x y Hy Hx Hpair.
    apply tileMasks_is_Some in Hpair.
    destruct (findExclusionIndex_found blockSize exclusionList numAtoms x y Hy Hx Hpair)
      as (p & Hfind & _ & Hmask).
    exists p, (default 0%N (tileMasks blockSize exclusionList !! (x, y))).
    split; [exact Hfind|]. split; [exact Hmask|].
    intros r c Hr Hc. by apply tileMasks_testbit.
  - intros x y indices rowIndices Hxy. unfold findExclusionIndex.
    by destruct (Z.ltb_spec x y) as [_|?]; [|lia].
Qed.

Example findExclusionIndex_example :
  let es := build 2 exampleExclusions 5 in
  es = MkExclusionSet [4%N; 2%N; 4%N] [0; 2; 1] [0; 2; 3; 3]
  ∧ findExclusionIndex 2 0 (es_exclusionIndices es) (es_exclusionRowIndices es)
    = Return 1
  ∧ findExclusionIndex 1 0 (es_exclusionIndices es) (es_exclusionRowIndices es)
    = Exception
  ∧ findExclusionIndex 0 2 (es_exclusionIndices es) (es_exclusionRowIndices es)
    = Exception.
Proof. vm_compute. done. Qed.

Lemma findExclusionIndex_correct_witness :
  0 < 2
  ∧ ∃ (p : nat) (mask : N),
      findExclusionIndex 2 0
        (es_exclusionIndices (build 2 exampleExclusions 5))
        (es_exclusionRowIndices (build 2 exampleExclusions 5))
      = Return (Z.of_nat p)
      ∧ es_exclusions (build 2 exampleExclusions 5) !! p = Some mask
      ∧ ∀ r c, r < 2 → c < 2 →
          N.testbit mask (bitIndex 2 r c)
          = (0 * 2 + c <=? 2 * 2 + r)
            && excluded exampleExclusions (2 * 2 + r) (0 * 2 + c).
Proof.
  split; [lia|].
  apply (proj1 (findExclusionIndex_correct 2 exampleExclusions 5 ltac:(lia)) 2 0);
    [lia|vm_compute; lia|].
  exists 4, 1. split; reflexivity.
Defined.

Section NeighborListClaims.

Context {CUdeviceptr : Type}.
Implicit Types this : CudaNonbondedUtilities Q CUdeviceptr.

Variable grow : nat → nat → nat.
Hypothesis grow_increases :
  ∀ maxTiles count, maxTiles < count → maxTiles < grow maxTiles count.

(** C3.  Discovery with unbounded capacity is what bounded discovery
    produces from any capacity that holds every tile of the range.  When
    the interacting tiles of a configuration outnumber the capacity
    [maxTiles], the first discovery stores a prefix of that list only;
    after [updateNeighborListSize] a new discovery stores the prefix that
    the new, larger capacity holds, and the retries of
    [prepareInteractions] end with exactly the list of the unbounded run:
    no tile discovered before the growth is lost. *)
Theorem growth_loses_no_tile this :
  let bounded := findBlockBounds this in
  let unbounded := discoverUnbounded bounded in
  capacity this < length unbounded →
  let first := findInteractingBlocks bounded in
  let second := findInteractingBlocks (updateNeighborListSize grow first) in
  let final := prepareInteractions grow this in
  (∀ m : Z, length (tilesInRange this) ≤ Z.to_nat m →
     interactingTiles (findInteractingBlocks (set_neighbors m 0 [] [] bounded))
     = unbounded)
  ∧ interactionCount first = length unbounded
  ∧ interactingTiles first = take (capacity this) unbounded
  ∧ capacity this < capacity second
  ∧ interactionCount second = length unbounded
  ∧ interactingTiles second = take (capacity second) unbounded
  ∧ interactingTiles final = unbounded
  ∧ interactionCount final = length unbounded
  ∧ length unbounded ≤ capacity final
  ∧ (∀ t, t ∈ interactingTiles first → t ∈ interactingTiles second)
  ∧ (∀ t, t ∈ interactingTiles first → t ∈ interactingTiles final)
  ∧ (∀ t, t ∈ interactingTiles second → t ∈ interactingTiles final).
Proof.
  intros bounded unbounded Hover first second final.
  assert (interactionCount first = length unbounded
          ∧ interactingTiles first = take (capacity this) unbounded) as [Hc1 Ht1].
  { unfold first, findInteractingBlocks. rewrite discover_spec. done. }
  assert (updateNeighborListSize grow first
          = set_neighbors (Z.of_nat (grow (capacity this) (length unbounded)))
                          0 [] [] bounded) as Hgrown.
  { unfold updateNeighborListSize. rewrite Hc1.
    change (capacity first) with (capacity this).
    destruct (Nat.leb_spec (length unbounded) (capacity this)); [lia|done]. }
  assert (capacity second = grow (capacity this) (length unbounded)) as Hcap2.
  { unfold second. rewrite Hgrown. apply capacity_set_neighbors. }
  assert (interactionCount second = length unbounded
          ∧ interactingTiles second = take (capacity second) unbounded) as [Hc2 Ht2].
  { rewrite Hcap2. unfold second. rewrite Hgrown.
    unfold findInteractingBlocks. rewrite discover_spec.
    rewrite capacity_set_neighbors. done. }
  destruct (prepareInteractions_spec grow grow_increases this)
    as (m & Hfinal & Hm & _).
  cbv zeta in Hfinal. fold bounded unbounded final in Hfinal, Hm.
  pose proof (grow_increases _ _ Hover) as Hgrow.
  assert (interactingTiles final = unbounded) as Htf by (by rewrite Hfinal).
  split.
  { intros m' Hm'. unfold findInteractingBlocks. rewrite discover_spec.
    cbn [interactingTiles set_neighbors snd].
    rewrite discoverUnbounded_set_neighbors. apply take_ge.
    pose proof (length_discoverUnbounded bounded) as Hlen.
    change (tilesInRange bounded) with (tilesInRange this) in Hlen.
    fold unbounded in Hlen |- *. unfold capacity. simpl. lia. }
  repeat split; try done.
  - lia.
  - by rewrite Hfinal.
  - rewrite Hfinal. done.
  - intros t. rewrite Ht1, Ht2, !elem_of_take.
    intros (i & Hi & Hlt). exists i. split; [done|lia].
  - intros t. rewrite Ht1, Htf. apply subseteq_take.
  - intros t. rewrite Ht2, Htf. apply subseteq_take.
Qed.

(** C4.  Two calls of [prepareInteractions] in a row, the positions
    unchanged, leave the same [interactingTiles] and [interactionFlags];
    the second call changes nothing at all. *)
Theorem prepareInteractions_idempotent this :
  let once := prepareInteractions grow this in
  let twice := prepareInteractions grow once in
  getInteractingTiles twice = getInteractingTiles once
  ∧ getInteractionFlags twice = getInteractionFlags once
  ∧ getInteractionCount twice = getInteractionCount once
  ∧ twice = once.
Proof.
  intros once twice.
  assert (twice = once) as ->; [|done].
  destruct (prepareInteractions_spec grow grow_increases this)
    as (m & Honce & Hm & _).
  cbv zeta in Honce. fold once in Honce.
  destruct (prepareInteractions_spec grow grow_increases once)
    as (m' & Htwice & _ & _ & Hsame).
  cbv zeta in Htwice, Hsame. fold twice in Htwice.
  rewrite Htwice. rewrite Honce at 5.
  rewrite Honce in Hsame |- *.
  rewrite findBlockBounds_set_neighbors in Hsame |- *.
  rewrite discoverUnbounded_set_neighbors in Hsame |- *.
  rewrite set_neighbors_twice.
  rewrite Hsame; [done|]. unfold capacity. simpl. done.
Qed.

(** C1.  For an initialized engine that is responsible for the whole
    tile space, as it is unless [setTileRange] gave it a part of it: after
    [prepareInteractions], every pair of distinct particles that is within
    the cutoff distance and not excluded has its bit set in the flags of
    exactly one interacting tile; and no pair that [computeInteractions]
    evaluates is excluded, so the forces and energies it accumulates do
    not depend on what the interaction would be for an excluded pair,
    whatever its distance.  When [setTileRange] shares the tiles out
    between devices, a device flags such a pair if and only if it owns the
    pair's tile, and never twice: the devices of a partition of the tile
    space flag it exactly once between them. *)
Theorem pairs_flagged_exactly_once this :
  Initialized this →
  tilesInRange this = allTiles (blockCount this) →
  let after := prepareInteractions grow this in
  (∀ i j (p q : Point Q),
      i ≠ j → i < atomCount this → j < atomCount this →
      posq (context this) !! i = Some p → posq (context this) !! j = Some q →
      withinCutoff this p q →
      excluded (atomExclusions this) i j = false →
      exists! k, pairFlagged after k i j)
  ∧ (∀ i j, (i, j) ∈ flaggedPairs after →
            excluded (atomExclusions this) i j = false)
  ∧ (∀ (pairTerm pairTerm' : nat → nat → Point Q → Point Q → Q * Point Q * Point Q)
       (unitOf : nat → nat) (forces : list (Point Q)) (energyBuffers : list Q),
        (∀ i j p q, excluded (atomExclusions this) i j = false →
                    pairTerm i j p q = pairTerm' i j p q) →
        computeInteractions pairTerm unitOf after forces energyBuffers
        = computeInteractions pairTerm' unitOf after forces energyBuffers)
  ∧ (∀ (start count : Z) i j (p q : Point Q),
        let device := setTileRange start count this in
        let shard := prepareInteractions grow device in
        i ≠ j → i < atomCount this → j < atomCount this →
        posq (context this) !! i = Some p → posq (context this) !! j = Some q →
        withinCutoff this p q →
        excluded (atomExclusions this) i j = false →
        ((∃ k, pairFlagged shard k i j)
         ↔ ownerTile (blockSizeOf this) i j ∈ tilesInRange device)
        ∧ (∀ k k', pairFlagged shard k i j → pairFlagged shard k' i j → k = k')).
Proof.
  assert (Hflag : ∀ (that : CudaNonbondedUtilities Q CUdeviceptr) i j
                    (p q : Point Q),
             Initialized that →
             i ≠ j → i < atomCount that → j < atomCount that →
             posq (context that) !! i = Some p →
             posq (context that) !! j = Some q →
             withinCutoff that p q →
             excluded (atomExclusions that) i j = false →
             ownerTile (blockSizeOf that) i j ∈ tilesInRange that →
             ∃ k, pairFlagged (prepareInteractions grow that) k i j).
  { intros that i j p q Hinit Hne Hi Hj Hp Hq Hclose Hex Hrange.
    destruct (Nat.lt_total i j) as [Hlt|[->|Hlt]]; [|done|].
    - destruct (ordered_pair_flagged grow grow_increases that j i q p)
        as [k Hk]; try done.
      + by apply withinCutoff_sym.
      + by rewrite excluded_sym.
      + by rewrite ownerTile_sym.
      + exists k. by apply pairFlagged_sym.
    - by apply (ordered_pair_flagged grow grow_increases that i j p q). }
  assert (Honce : ∀ (that : CudaNonbondedUtilities Q CUdeviceptr) i j k k',
             Initialized that →
             pairFlagged (prepareInteractions grow that) k i j →
             pairFlagged (prepareInteractions grow that) k' i j → k = k').
  { intros that i j k k' Hinit Hk Hk'.
    apply (pairFlagged_tile grow grow_increases that _ _ _ Hinit) in Hk, Hk'.
    destruct (prepareInteractions_spec grow grow_increases that) as (m & Heq & _).
    cbv zeta in Heq. rewrite Heq in Hk, Hk'.
    cbn [interactingTiles set_neighbors] in Hk, Hk'.
    exact (NoDup_lookup _ _ _ _ (NoDup_discoverUnbounded _) Hk Hk'). }
  intros Hinit Hall after. split; [|split; [|split]].
  - intros i j p q Hne Hi Hj Hp Hq Hclose Hex.
    destruct (Hflag this i j p q) as [k Hk]; try done.
    { rewrite Hall. unfold ownerTile. apply elem_of_allTiles. split.
      - unfold blockOf. apply Nat.Div0.div_le_mono. lia.
      - apply blockOf_lt_blockCount; [apply Hinit|lia]. }
    exists k. split; [done|]. intros k' Hk'. by apply (Honce this i j).
  - intros i j. by apply flaggedPairs_not_excluded.
  - intros pairTerm pairTerm' unitOf forces energyBuffers Hext.
    unfold computeInteractions.
    destruct (energyBufferCount after =? 0); [done|].
    f_equal. apply foldl_evaluatePair_ext.
    intros i j p q Hij. apply Hext.
    by apply (flaggedPairs_not_excluded grow grow_increases this).
  - intros start count i j p q device shard Hne Hi Hj Hp Hq Hclose Hex.
    assert (Initialized device) as Hdev by exact Hinit.
    split; [split|].
    + intros [k Hk].
      pose proof (pairFlagged_tile grow grow_increases device _ _ _ Hdev Hk) as Ht.
      destruct (prepareInteractions_spec grow grow_increases device)
        as (m & Heq & _).
      cbv zeta in Heq. rewrite Heq in Ht.
      cbn [interactingTiles set_neighbors] in Ht.
      apply list_elem_of_lookup_2, elem_of_discoverUnbounded in Ht as [_ Ht].
      exact Ht.
    + intros Hrange. by apply (Hflag device i j p q).
    + intros k k'. by apply (Honce device i j).
Qed.

End NeighborListClaims.

(** ** The claims on the example configurations *)

Lemma doubling_increases (maxTiles count : nat) :
  maxTiles < count → maxTiles < doubling maxTiles count.
Proof. unfold doubling. lia. Qed.

Lemma initialize_Initialized {CUdeviceptr : Type} (initialCapacity : nat → nat)
    (numParticles : nat) (this : CudaNonbondedUtilities Q CUdeviceptr) :
  0 < TileSize (context this) →
  Initialized (initialize initialCapacity numParticles this).
Proof.
  intros Hbs. split; [exact Hbs|].
  unfold initialize, atomCount, blockSizeOf. simpl. rewrite Nat2Z.id.
  reflexivity.
Qed.

Lemma lineEngine_Initialized : Initialized lineEngine.
Proof. apply initialize_Initialized. simpl. lia. Qed.

Lemma defaultEngine_Initialized ctx usesCutoff usesPeriodic usesExclusions
    cutoffDistance exclusionList :
  0 < TileSize ctx →
  Initialized (defaultEngine ctx usesCutoff usesPeriodic usesExclusions
                             cutoffDistance exclusionList).
Proof.
  intros Hbs. apply initialize_Initialized.
  unfold addInteraction. destruct usesExclusions; exact Hbs.
Qed.

(** Set up without a call of [setTileRange], an engine is responsible for
    the whole tile space of the context's particles. *)
Lemma defaultEngine_owns_all_tiles ctx usesCutoff usesPeriodic usesExclusions
    cutoffDistance exclusionList :
  let this := defaultEngine ctx usesCutoff usesPeriodic usesExclusions
                            cutoffDistance exclusionList in
  tilesInRange this = allTiles (blockCount this).
Proof.
  intros this.
  assert (ctx = context this
          ∧ startTileIndex this = 0%Z
          ∧ numTiles this
            = Z.of_nat (numAtomBlocks (TileSize ctx) (length (posq ctx))
                        * (numAtomBlocks (TileSize ctx) (length (posq ctx)) + 1)
                        / 2)
          ∧ atomCount this = length (posq ctx)) as (Hc & Hs & Hn & Ha).
  { unfold this, defaultEngine, atomCount.
    destruct (addInteraction _ _ _ _ _ _ _ _ _) as [that|] eqn:Hadd; cbn.
    - unfold addInteraction in Hadd.
      destruct usesExclusions; cbn in Hadd.
      + unfold requestExclusions in Hadd. cbn in Hadd. injection Hadd as <-.
        cbn. by rewrite Nat2Z.id.
      + injection Hadd as <-. cbn. by rewrite Nat2Z.id.
    - by rewrite Nat2Z.id. }
  apply owns_all_tiles; [done|].
  unfold blockCount, blockSizeOf. by rewrite Ha, <- Hc.
Qed.

(** The line of seven particles: four tiles fit at first, eight interact
    (the two ends are neighbors through the periodic box). *)
Example lineEngine_prepared :
  let first := findInteractingBlocks (findBlockBounds lineEngine) in
  let final := prepareInteractions doubling lineEngine in
  (maxTiles lineEngine, interactionCount first, interactingTiles first)
  = (4%Z, 8, [(0, 0); (1, 0); (3, 0); (1, 1)])
  ∧ (maxTiles final, interactionCount final, interactingTiles final,
     interactionFlags final)
    = (8%Z, 8,
       [(0, 0); (1, 0); (3, 0); (1, 1); (2, 1); (2, 2); (3, 2); (3, 3)],
       [0%N; 2%N; 1%N; 4%N; 2%N; 4%N; 2%N; 0%N])
  ∧ flaggedPairs final = [(2, 1); (6, 0); (3, 2); (4, 3); (5, 4); (6, 5)].
Proof. vm_compute. done. Qed.

Lemma growth_loses_no_tile_witness :
  (∀ maxTiles count, maxTiles < count → maxTiles < doubling maxTiles count)
  ∧ capacity lineEngine
    < length (discoverUnbounded (findBlockBounds lineEngine))
  ∧ interactingTiles (prepareInteractions doubling lineEngine)
    = discoverUnbounded (findBlockBounds lineEngine)
  ∧ ∀ t, t ∈ interactingTiles (findInteractingBlocks (findBlockBounds lineEngine)) →
         t ∈ interactingTiles (prepareInteractions doubling lineEngine).
Proof.
  assert (capacity lineEngine
          < length (discoverUnbounded (findBlockBounds lineEngine))) as Hover
    by (vm_compute; lia).
  pose proof (growth_loses_no_tile doubling doubling_increases lineEngine Hover)
    as (_ & _ & _ & _ & _ & _ & Hfinal & _ & _ & _ & Hkept & _).
  split; [exact doubling_increases|]. split; [exact Hover|].
  split; [exact Hfinal|exact Hkept].
Defined.

Lemma prepareInteractions_idempotent_witness :
  (∀ maxTiles count, maxTiles < count → maxTiles < doubling maxTiles count)
  ∧ getInteractingTiles
      (prepareInteractions doubling (prepareInteractions doubling lineEngine))
    = getInteractingTiles (prepareInteractions doubling lineEngine)
  ∧ getInteractionFlags
      (prepareInteractions doubling (prepareInteractions doubling lineEngine))
    = getInteractionFlags (prepareInteractions doubling lineEngine).
Proof.
  pose proof (prepareInteractions_idempotent doubling doubling_increases lineEngine)
    as (Htiles & Hflags & _).
  split; [exact doubling_increases|]. split; [exact Htiles|exact Hflags].
Defined.

(** The end-to-end scenario of the design, three particles without
    cutoff or exclusions: one interacting tile, block 0 with itself, and
    the three pairs flagged. *)
Example threeParticleEngine_prepared :
  let final := prepareInteractions doubling threeParticleEngine in
  tilesInRange threeParticleEngine = [(0, 0)]
  ∧ (interactionCount final, interactingTiles final) = (1, [(0, 0)])
  ∧ flaggedPairs final = [(1, 0); (2, 0); (2, 1)].
Proof. vm_compute. done. Qed.

(** The four particles on two devices, the first with the tiles [(0,0)]
    and [(1,0)], the second with the tile [(1,1)]: the pairs are shared
    out, each flagged by one device. *)
Example fourEngine_shards :
  flaggedPairs (prepareInteractions doubling fourEngine)
  = [(1, 0); (2, 1); (3, 2)]
  ∧ flaggedPairs (prepareInteractions doubling (setTileRange 0 2 fourEngine))
    = [(1, 0); (2, 1)]
  ∧ flaggedPairs (prepareInteractions doubling (setTileRange 2 1 fourEngine))
    = [(3, 2)].
Proof. vm_compute. done. Qed.

(** Particles 6 and 0 of the line are one unit apart through the
    periodic box. *)
Lemma pairs_flagged_exactly_once_witness :
  (∀ maxTiles count, maxTiles < count → maxTiles < doubling maxTiles count)
  ∧ Initialized wholeLineEngine
  ∧ tilesInRange wholeLineEngine = allTiles (blockCount wholeLineEngine)
  ∧ withinCutoff wholeLineEngine (atX 6) (atX 0)
  ∧ exists! k, pairFlagged (prepareInteractions doubling wholeLineEngine) k 6 0.
Proof.
  assert (withinCutoff wholeLineEngine (atX 6) (atX 0)) as Hclose.
  { right. split; [by apply Qle_bool_iff|]. exists (1, 0, 0)%Z.
    split; [by intros [=]|]. by apply Qle_bool_iff. }
  assert (Initialized wholeLineEngine) as Hinit
    by (apply defaultEngine_Initialized; simpl; lia).
  assert (tilesInRange wholeLineEngine = allTiles (blockCount wholeLineEngine))
    as Hall by apply defaultEngine_owns_all_tiles.
  split; [exact doubling_increases|]. split; [exact Hinit|].
  split; [exact Hall|]. split; [exact Hclose|].
  apply (proj1 (pairs_flagged_exactly_once doubling doubling_increases
                  wholeLineEngine Hinit Hall) 6 0 (atX 6) (atX 0));
    [lia|vm_compute; lia|vm_compute; lia|reflexivity|reflexivity|exact Hclose
    |reflexivity].
Defined.
